(** * NLPLogAnalysis: log normalizers and the TF-IDF n-gram scorer

    A shallow embedding of [code/log_handlers.py] and of
    [code/get_log_insights.py], with the properties of the
    insight-extraction pipeline proved about it.

    Conventions.
    - A Python [str] is a [string]; its characters are the code points
      below 256.
    - A Python [list] is a [list]; a [dict] is an association list kept in
      insertion order, which is the iteration order of a Python dict.
    - A Python [float] is a real number: rounding is not modelled.
    - An exception is a value of [exn] carried by [result]. *)

From Stdlib Require Import String Ascii List ZArith Arith Bool Lia Sorted Permutation.
From Stdlib Require Import Reals Lra Psatz.
Import ListNotations.

Open Scope list_scope.
Open Scope string_scope.

(** ** Exceptions *)

Inductive exn : Set :=
| IndexError
| ValueError.

Inductive result (A : Type) : Type :=
| Ok (a : A)
| Raise (e : exn).

Arguments Ok {A} a.
Arguments Raise {A} e.

Definition bind {A B : Type} (r : result A) (k : A -> result B) : result B :=
  match r with
  | Ok a => k a
  | Raise e => Raise e
  end.

Notation "x <- r ;; k" := (bind r (fun x => k))
  (at level 61, r at next level, right associativity).
Notation "' p <- r ;; k" := (bind r (fun p => k))
  (at level 61, p pattern, r at next level, right associativity).

(** [l[i]] for a non-negative index. *)
Definition subscript {A : Type} (l : list A) (i : nat) : result A :=
  match nth_error l i with
  | Some a => Ok a
  | None => Raise IndexError
  end.

(** ** The [str] methods the handlers use *)

Module PyStr.

Definition dquote : ascii := ascii_of_nat 34.
Definition newline : ascii := ascii_of_nat 10.
Definition hyphen : ascii := ascii_of_nat 45.

Definition NL : string := String newline "".
Definition DQ : string := String dquote "".

(** [s.startswith(p)] *)
Fixpoint startswith (p s : string) : bool :=
  match p, s with
  | "", _ => true
  | String _ _, "" => false
  | String a p', String b s' => Ascii.eqb a b && startswith p' s'
  end.

(** [s[n:]] *)
Fixpoint drop (n : nat) (s : string) : string :=
  match n, s with
  | 0, _ => s
  | S _, "" => ""
  | S k, String _ s' => drop k s'
  end.

(** The leftmost occurrence of [sep] in [s]: the text before it and the
    text after it, as [s.partition(sep)] finds them. *)
Fixpoint partition (sep s : string) : option (string * string) :=
  if startswith sep s then Some ("", drop (String.length sep) s)
  else
    match s with
    | "" => None
    | String c s' =>
        match partition sep s' with
        | Some (before, after) => Some (String c before, after)
        | None => None
        end
    end.

(** [s.split(sep)] for a non-empty [sep]: cut at the leftmost occurrence,
    then go on in what follows it. Each cut consumes at least one character,
    so [String.length s] rounds are enough ([split_unfold]). *)
Fixpoint split_from (rounds : nat) (sep s : string) : list string :=
  match partition sep s with
  | None => [s]
  | Some (before, after) =>
      match rounds with
      | 0 => [s]
      | S k => before :: split_from k sep after
      end
  end.

Definition split (sep s : string) : list string :=
  split_from (String.length s) sep s.

(** [sep.join(l)] *)
Definition join (sep : string) (l : list string) : string :=
  String.concat sep l.

(** [s.replace(c, '')] for a one-character [c]. *)
Fixpoint remove_all (c : ascii) (s : string) : string :=
  match s with
  | "" => ""
  | String a s' =>
      if Ascii.eqb a c then remove_all c s' else String a (remove_all c s')
  end.

(** [c in s] for a one-character [c]. *)
Fixpoint has_char (c : ascii) (s : string) : bool :=
  match s with
  | "" => false
  | String a s' => Ascii.eqb a c || has_char c s'
  end.

(** [sep] occurs in [s]. *)
Definition Occurs (sep s : string) : Prop :=
  exists a b, s = a ++ sep ++ b.

Definition endswith_newline (s : string) : Prop :=
  exists body, s = body ++ NL.

End PyStr.

(** ** log_handlers.py *)

(** [LogHandlerInterface]: the two static methods of a handler. The file at
    [path] is given by the list [file_to_read.readlines()] returns. *)
Class LogHandlerInterface : Type := {
  get_log_file_prefixes : list string;
  parse_log_file : list string -> result (list string)
}.

Module ApacheErrorLogHandler.
Import PyStr.

Definition prefixes : list string := ["error_log"; "ssl_error_log"].

(** The body of the [for line in lines] loop: what the line appends to
    [log_record_list]. *)
Definition parse_line (line : string) : list string :=
  let tmp_str_arr := split "] " line in
  if (2 <? List.length tmp_str_arr)%nat then
    let log_record := join " " (skipn 2 tmp_str_arr) in
    [log_record]
  else [].

Definition parse_lines (lines : list string) : list string :=
  fold_left (fun log_record_list line => (log_record_list ++ parse_line line)%list)
            lines [].

#[export] Instance handler : LogHandlerInterface := {
  get_log_file_prefixes := prefixes;
  parse_log_file lines := Ok (parse_lines lines)
}.

End ApacheErrorLogHandler.

Module ApacheAccessLogHandler.
Import PyStr.

Definition prefixes : list string := ["access_log"; "ssl_access_log"].

Definition sep_client : string := " - - [".
Definition sep_request : string := "] " ++ DQ.

(** The body of the [for line in lines] loop: the record the line appends,
    or the exception a subscript raises. *)
Definition parse_line (line : string) : result string :=
  let tmp_str_arr := split sep_client line in
  client_ip <- subscript tmp_str_arr 0 ;;
  field1 <- subscript tmp_str_arr 1 ;;
  let rest_of_rec_arr := split sep_request field1 in
  rest_of_rec <- subscript rest_of_rec_arr 1 ;;
  let rest_of_rec := remove_all dquote rest_of_rec in
  let rest_of_rec := remove_all hyphen rest_of_rec in
  let log_record := client_ip ++ " " ++ rest_of_rec in
  Ok log_record.

Fixpoint parse_loop (lines : list string) (log_record_list : list string)
  : result (list string) :=
  match lines with
  | [] => Ok log_record_list
  | line :: lines' =>
      log_record <- parse_line line ;;
      parse_loop lines' (log_record_list ++ [log_record])%list
  end.

#[export] Instance handler : LogHandlerInterface := {
  get_log_file_prefixes := prefixes;
  parse_log_file lines := parse_loop lines []
}.

End ApacheAccessLogHandler.

(** *** Vocabulary of the statements about the handlers *)

Module Lines.
Import PyStr.

(** An access-log line lacks one of the two delimiters the handler
    splits on. *)
Definition lacks_access_delimiters (line : string) : Prop :=
  ~ Occurs ApacheAccessLogHandler.sep_client line \/
  ~ Occurs ApacheAccessLogHandler.sep_request line.

(** An error-log line does not hold two ["] "] delimiters one after the
    other, so it has no third field. *)
Definition lacks_error_delimiters (line : string) : Prop :=
  ~ exists a b c, line = a ++ "] " ++ b ++ "] " ++ c.


(** The access-log line of the specification's round trip. *)
Definition access_line_example : string :=
  "127.0.0.1 - - [01/Jan/2020] " ++ DQ ++ "GET /x HTTP/1.1" ++ DQ
  ++ " 200 - -".


End Lines.

(** ** get_log_insights.py: [get_top_ngrams]

    [get_top_ngrams] builds
    [TfidfVectorizer(ngram_range=(n, n), lowercase=False,
                     token_pattern=r'\S+', smooth_idf=False)]
    and leaves every other parameter of scikit-learn's vectorizer at its
    default: [analyzer='word'], [stop_words=None], [binary=False],
    [min_df=1], [max_df=1.0], [max_features=None], [vocabulary=None],
    [use_idf=True], [sublinear_tf=False] and [norm='l2'].  The module below
    follows what [fit_transform] does under these parameters. *)

Module TfidfVectorizer.
Import PyStr.
Local Open Scope list_scope.
Local Open Scope nat_scope.

(** *** The analyzer *)

(** The characters [\s] matches in a [str] pattern, among the code points
    below 256: TAB to CR, FS to US, space, NEL and NBSP. *)
Definition isspace (c : ascii) : bool :=
  let k := nat_of_ascii c in
  ((9 <=? k) && (k <=? 13)) || ((28 <=? k) && (k <=? 31))
  || (k =? 32) || (k =? 133) || (k =? 160).

(** [re.compile(r'\S+').findall(doc)]: the maximal runs of non-space
    characters, left to right. [run] is the run being read. *)
Fixpoint findall_from (run : string) (doc : string) : list string :=
  match doc with
  | EmptyString =>
      match run with
      | EmptyString => []
      | _ => [run]
      end
  | String c doc' =>
      if isspace c then
        match run with
        | EmptyString => findall_from EmptyString doc'
        | _ => run :: findall_from EmptyString doc'
        end
      else findall_from (run ++ String c EmptyString)%string doc'
  end.

Definition tokenize (doc : string) : list string :=
  findall_from EmptyString doc.

(** [l[i:j]] and [range(a, b)] *)
Definition slice {A : Type} (l : list A) (i j : nat) : list A :=
  firstn (j - i) (skipn i l).

Definition range (a b : nat) : list nat := seq a (b - a).

(** [_word_ngrams(tokens)] with [ngram_range = (min_n, max_n)] and no stop
    words. *)
Definition word_ngrams (min_n max_n : nat) (tokens : list string)
  : list string :=
  if max_n =? 1 then tokens
  else
    let original_tokens := tokens in
    let '(tokens, min_n) :=
      if min_n =? 1 then (original_tokens, min_n + 1) else ([], min_n) in
    let n_original_tokens := length original_tokens in
    tokens ++
    flat_map
      (fun n =>
         map (fun i => join " " (slice original_tokens i (i + n)))
             (range 0 (n_original_tokens - n + 1)))
      (range min_n (Nat.min (max_n + 1) (n_original_tokens + 1))).

(** The analyzer [build_analyzer()] returns: no decoding, no accent
    stripping, no lowercasing, then the tokens, then their n-grams. *)
Definition analyze (n : nat) (doc : string) : list string :=
  word_ngrams n n (tokenize doc).

(** *** [_count_vocab] *)

(** [vocabulary]: term to column index, a [defaultdict] whose default is
    its own length. [feature_counter]: column index to count. A row of the
    sparse matrix: the stored entries of one document, column and value. *)
Definition vocab : Type := list (string * nat).
Definition counter : Type := list (nat * nat).

Fixpoint lookup (term : string) (vocabulary : vocab) : option nat :=
  match vocabulary with
  | [] => None
  | (t, idx) :: rest => if String.eqb t term then Some idx else lookup term rest
  end.

(** [feature_idx = vocabulary[feature]] *)
Definition vocabulary_getitem (vocabulary : vocab) (feature : string)
  : vocab * nat :=
  match lookup feature vocabulary with
  | Some idx => (vocabulary, idx)
  | None => (vocabulary ++ [(feature, length vocabulary)], length vocabulary)
  end.

(** [feature_counter[feature_idx] = 1] when the key is new, [+= 1]
    otherwise. *)
Fixpoint count_feature (feature_idx : nat) (feature_counter : counter)
  : counter :=
  match feature_counter with
  | [] => [(feature_idx, 1)]
  | (j, c) :: rest =>
      if j =? feature_idx then (j, c + 1) :: rest
      else (j, c) :: count_feature feature_idx rest
  end.

(** The loop [for feature in analyze(doc)]. *)
Definition count_features (features : list string) (vocabulary : vocab)
  : vocab * counter :=
  fold_left
    (fun '(vocabulary, feature_counter) feature =>
       let '(vocabulary, feature_idx) := vocabulary_getitem vocabulary feature in
       (vocabulary, count_feature feature_idx feature_counter))
    features (vocabulary, []).

(** The loop [for doc in raw_documents]; each document adds one row. *)
Definition count_documents (n : nat) (raw_documents : list string)
  : vocab * list counter :=
  fold_left
    (fun '(vocabulary, rows) doc =>
       let '(vocabulary, feature_counter) :=
         count_features (analyze n doc) vocabulary in
       (vocabulary, rows ++ [feature_counter]))
    raw_documents ([], []).

(** [_count_vocab(raw_documents, fixed_vocab=False)]: an empty vocabulary
    raises [ValueError("empty vocabulary; ...")]. The entries of a row are
    kept in the order of the counter; [sort_indices] only reorders them. *)
Definition count_vocab (n : nat) (raw_documents : list string)
  : result (vocab * list counter) :=
  let '(vocabulary, X) := count_documents n raw_documents in
  match vocabulary with
  | [] => Raise ValueError
  | _ => Ok (vocabulary, X)
  end.

(** *** [_sort_features] *)

(** [sorted(vocabulary.items())]: the terms are distinct, so the items are
    ordered by term, code point by code point. *)
Fixpoint insert_item (item : string * nat) (l : list (string * nat))
  : list (string * nat) :=
  match l with
  | [] => [item]
  | y :: l' =>
      if String.leb (fst item) (fst y) then item :: y :: l'
      else y :: insert_item item l'
  end.

Definition sorted_items (vocabulary : vocab) : list (string * nat) :=
  fold_right insert_item [] vocabulary.

(** [vocabulary[term] = new_val] for a term the dict holds: the value
    changes, the place of the key does not. *)
Fixpoint vocabulary_setitem (term : string) (new_val : nat) (vocabulary : vocab)
  : vocab :=
  match vocabulary with
  | [] => [(term, new_val)]
  | (t, idx) :: rest =>
      if String.eqb t term then (t, new_val) :: rest
      else (t, idx) :: vocabulary_setitem term new_val rest
  end.

(** [map_index[old_val] = new_val] *)
Fixpoint array_setitem (i : nat) (v : nat) (a : list nat) : list nat :=
  match a, i with
  | [], _ => []
  | _ :: a', 0 => v :: a'
  | x :: a', S i' => x :: array_setitem i' v a'
  end.

(** [enumerate(l)] *)
Definition enumerate {A : Type} (l : list A) : list (nat * A) :=
  combine (seq 0 (length l)) l.

(** [_sort_features(X, vocabulary)]: the columns are renumbered in the
    order of the sorted terms, in the dict and in the matrix alike. *)
Definition sort_features (X : list counter) (vocabulary : vocab)
  : vocab * list counter :=
  let sorted_features := sorted_items vocabulary in
  let '(vocabulary', map_index) :=
    fold_left
      (fun '(vocabulary, map_index) '(new_val, (term, old_val)) =>
         (vocabulary_setitem term new_val vocabulary,
          array_setitem old_val new_val map_index))
      (enumerate sorted_features)
      (vocabulary, repeat 0 (length sorted_features)) in
  (vocabulary',
   map (map (fun '(j, c) => (nth j map_index 0, c))) X).

(** *** [CountVectorizer.fit_transform] *)

(** With [min_df=1] and [max_df=1.0], [_limit_features] keeps every column:
    a column of the vocabulary has between 1 and [n_doc] documents. *)
Definition count_fit_transform (n : nat) (raw_documents : list string)
  : result (vocab * list counter) :=
  '(vocabulary, X) <- count_vocab n raw_documents ;;
  Ok (sort_features X vocabulary).

(** *** [TfidfTransformer] *)

Definition row : Type := list (nat * R).

Definition Rsum (l : list R) : R := fold_right Rplus 0%R l.

(** [_document_frequency(X)]: [np.bincount(X.indices)], the number of
    stored entries of column [j]. *)
Definition document_frequency (X : list counter) (j : nat) : nat :=
  length (filter (fun e => fst e =? j) (concat X)).

(** [idf_ = np.log(n_samples / df) + 1.0]; with [smooth_idf=False] nothing
    is added to [n_samples] or to [df]. *)
Definition idf (X : list counter) (j : nat) : R :=
  (ln (INR (length X) / INR (document_frequency X j)) + 1)%R.

(** [X.data *= idf_[X.indices]], on the counts converted to floats. *)
Definition scale_row (X : list counter) (r : counter) : row :=
  map (fun '(j, c) => (j, (INR c * idf X j)%R)) r.

(** [normalize(X, norm='l2')]: a row whose squares sum to zero is left as
    it is, any other row is divided by its Euclidean norm. *)
Definition normalize_row (r : row) : row :=
  let sum_ := Rsum (map (fun e => (snd e * snd e)%R) r) in
  if Req_dec_T sum_ 0 then r
  else map (fun '(j, v) => (j, (v / sqrt sum_)%R)) r.

Definition tfidf_transform (X : list counter) : list row :=
  map (fun r => normalize_row (scale_row X r)) X.

(** [bag_of_words.sum(axis=0)[0, j]]: the sum of the stored entries of
    column [j]. *)
Definition column_sum (bag_of_words : list row) (j : nat) : R :=
  Rsum (map snd (filter (fun e => fst e =? j) (concat bag_of_words))).

(** [fit_transform(raw_documents)]: the matrix and [vocabulary_]. *)
Definition fit_transform (n : nat) (raw_documents : list string)
  : result (vocab * list row) :=
  '(vocabulary_, X) <- count_fit_transform n raw_documents ;;
  Ok (vocabulary_, tfidf_transform X).

End TfidfVectorizer.

(** [sorted(words_freq, key=lambda x: x[1], reverse=True)]: a stable sort,
    so entries of equal weight keep their order. *)
Fixpoint insert_by_weight (x : string * R) (l : list (string * R))
  : list (string * R) :=
  match l with
  | [] => [x]
  | y :: l' =>
      if Rlt_dec (snd x) (snd y) then y :: insert_by_weight x l'
      else x :: y :: l'
  end.

Definition sorted_by_weight (words_freq : list (string * R))
  : list (string * R) :=
  fold_right insert_by_weight [] words_freq.

Definition get_top_ngrams (record_list : list string) (n : nat)
  : result (list (string * R)) :=
  '(vocabulary_, bag_of_words) <- TfidfVectorizer.fit_transform n record_list ;;
  let sum_words := TfidfVectorizer.column_sum bag_of_words in
  let words_freq := map (fun '(word, idx) => (word, sum_words idx)) vocabulary_ in
  let words_freq := sorted_by_weight words_freq in
  Ok (firstn 10 words_freq).

(** [analyze_log_files(log_handler, input_dir, n)], from the files
    [get_matching_log_files] found on: each file is given by its lines. The
    records of all the files are gathered, then ranked; the value is
    [common_words], which the function prints. *)
Fixpoint extend_records (log_handler : LogHandlerInterface)
         (paths : list (list string)) (log_record_list : list string)
  : result (list string) :=
  match paths with
  | [] => Ok log_record_list
  | path :: paths' =>
      records <- @parse_log_file log_handler path ;;
      extend_records log_handler paths' (log_record_list ++ records)%list
  end.

Definition analyze_log_files (log_handler : LogHandlerInterface)
           (paths : list (list string)) (n : nat)
  : result (list (string * R)) :=
  log_record_list <- extend_records log_handler paths [] ;;
  get_top_ngrams log_record_list n.

(** ** The scorer in the terms of the specification

    The quantities the statements about [get_top_ngrams] are written in:
    term frequency, document frequency, inverse document frequency and the
    weights built from them, defined on the n-grams of the records and not
    on the vectorizer's dict and matrix. *)

Module Scorer.
Import TfidfVectorizer.
Local Open Scope list_scope.
Local Open Scope nat_scope.

(** Every n-gram occurrence of the corpus, record by record. *)
Definition grams (n : nat) (docs : list string) : list string :=
  concat (map (analyze n) docs).

(** TF: the number of occurrences of [g] in [d]. *)
Definition TF (n : nat) (g d : string) : nat :=
  count_occ string_dec (analyze n d) g.

(** df: the number of documents [g] occurs in at least once. *)
Definition DF (n : nat) (docs : list string) (g : string) : nat :=
  length (filter (fun d => 0 <? TF n g d) docs).

(** IDF without smoothing. *)
Definition IDF (n : nat) (docs : list string) (g : string) : R :=
  (ln (INR (length docs) / INR (DF n docs g)) + 1)%R.

Definition tfidf (n : nat) (docs : list string) (g d : string) : R :=
  (INR (TF n g d) * IDF n docs g)%R.

(** The raw sum of TF x IDF over the documents. *)
Definition raw_weight (n : nat) (docs : list string) (g : string) : R :=
  Rsum (map (tfidf n docs g) docs).

(** The sum of the squared TF-IDF weights of the distinct n-grams of [d]:
    the square of the Euclidean norm of the document's row. *)
Definition squares (n : nat) (docs : list string) (d : string) : R :=
  Rsum (map (fun g => (tfidf n docs g d * tfidf n docs g d)%R)
            (nodup string_dec (analyze n d))).

(** The weight of [g] in [d] after the row is scaled to unit Euclidean
    norm; a document without n-grams has weight 0 throughout. *)
Definition l2_tfidf (n : nat) (docs : list string) (g d : string) : R :=
  if Req_dec_T (squares n docs d) 0 then 0%R
  else (tfidf n docs g d / sqrt (squares n docs d))%R.

Definition l2_weight (n : nat) (docs : list string) (g : string) : R :=
  Rsum (map (l2_tfidf n docs g) docs).

(** The distinct elements of a list, each at its first occurrence. *)
Definition mem (t : string) (keys : list string) : bool :=
  existsb (String.eqb t) keys.

Definition add_key (keys : list string) (t : string) : list string :=
  if mem t keys then keys else keys ++ [t].

Definition first_occurrences (l : list string) : list string :=
  fold_left add_key l [].

Fixpoint index_of (t : string) (keys : list string) : nat :=
  match keys with
  | [] => 0
  | k :: keys' => if String.eqb k t then 0 else S (index_of t keys')
  end.

(** The dict that numbers [keys] from 0 in their order, and the row of a
    document under a numbering [ix] of the terms. *)
Definition numbered (keys : list string) : vocab :=
  combine keys (seq 0 (length keys)).

Definition counted (ix : string -> nat) (n : nat) (d : string) : counter :=
  map (fun t => (ix t, TF n t d)) (first_occurrences (analyze n d)).

(** The column of a term once the features are sorted: its place among
    the sorted terms. *)
Definition column (n : nat) (docs : list string) (t : string) : nat :=
  index_of t
    (map fst (sorted_items (numbered (first_occurrences (grams n docs))))).

(** The two stores the loop of [sort_features] writes, one at a time. *)
Definition set_vocabulary (v : vocab) (a : nat * (string * nat)) : vocab :=
  vocabulary_setitem (fst (snd a)) (fst a) v.

Definition set_map_index (m : list nat) (a : nat * (string * nat))
  : list nat :=
  array_setitem (snd (snd a)) (fst a) m.

(** The weights do not increase along the list. *)
Definition non_increasing (l : list (string * R)) : Prop :=
  StronglySorted (fun x y => (snd y <= snd x)%R) l.

(** The ranked list in closed form: the distinct n-grams in the order of
    their first occurrence, each with its weight, sorted stably by weight
    and cut at ten; no n-gram at all is the vectorizer's [ValueError]. *)
Definition ranking (n : nat) (docs : list string)
  : result (list (string * R)) :=
  match grams n docs with
  | [] => Raise ValueError
  | _ =>
      Ok (firstn 10
            (sorted_by_weight
               (map (fun g => (g, l2_weight n docs g))
                    (first_occurrences (grams n docs)))))
  end.

(** *** Sample corpora *)

(** One record, the same token twice. *)
Definition corpus_repeated : list string := ["a a"].

(** The three documents of the specification's scenario. *)
Definition corpus_scenario : list string := ["a b"; "a c"; "a b"].

(** One error-log record of four tokens, with its newline. *)
Definition corpus_notice : list string :=
  [("caught SIGTERM, shutting down" ++ PyStr.NL)%string].

End Scorer.

(** The weights of the scenario, written out: the IDF of [a] is 1, and each
    row is divided by its Euclidean norm. *)
Module Scenario.
Local Open Scope R_scope.

Definition idf_b : R := ln (3 / 2) + 1.
Definition idf_c : R := ln 3 + 1.

Definition weight_a : R :=
  1 / sqrt (1 + idf_b * idf_b) + 1 / sqrt (1 + idf_c * idf_c)
  + 1 / sqrt (1 + idf_b * idf_b).

Definition weight_b : R :=
  idf_b / sqrt (1 + idf_b * idf_b) + idf_b / sqrt (1 + idf_b * idf_b).

Definition weight_c : R := idf_c / sqrt (1 + idf_c * idf_c).

End Scenario.


(** ** The vectorizer at any gram size

    [main] hands [int(options.num_grams)] to the vectorizer, and that can be
    any integer. [_word_ngrams] is followed here with Python's integers:
    a negative bound of a slice counts from the end of the list. The rest
    of [fit_transform] does not look at [n]; it is taken over from above,
    with the analyzer as an argument. *)

Module GramSize.
Import PyStr TfidfVectorizer.
Local Open Scope list_scope.

(** [l[i:j]] for integers: a negative bound has the length added, and both
    bounds are then clipped to the list. *)
Definition slice_int {A : Type} (l : list A) (i j : Z) : list A :=
  let len := Z.of_nat (length l) in
  let bound (k : Z) : nat :=
    Z.to_nat (if (k <? 0)%Z then Z.max 0 (k + len) else Z.min k len) in
  slice l (bound i) (bound j).

(** [range(a, b)] for integers. *)
Definition range_int (a b : Z) : list Z :=
  map (fun k => (a + Z.of_nat k)%Z) (seq 0 (Z.to_nat (b - a))).

(** [_word_ngrams(tokens)] with [ngram_range = (min_n, max_n)]. *)
Definition word_ngrams_int (min_n max_n : Z) (tokens : list string)
  : list string :=
  if (max_n =? 1)%Z then tokens
  else
    let original_tokens := tokens in
    let '(tokens, min_n) :=
      if (min_n =? 1)%Z then (original_tokens, (min_n + 1)%Z)
      else ([], min_n) in
    let n_original_tokens := Z.of_nat (length original_tokens) in
    tokens ++
    flat_map
      (fun n =>
         map (fun i => join " " (slice_int original_tokens i (i + n)))
             (range_int 0 (n_original_tokens - n + 1)))
      (range_int min_n (Z.min (max_n + 1) (n_original_tokens + 1))).

Definition analyze_int (n : Z) (doc : string) : list string :=
  word_ngrams_int n n (tokenize doc).

(** [_count_vocab], [CountVectorizer.fit_transform], [fit_transform] and
    [get_top_ngrams] as above, for the analyzer [analyze]. *)
Definition count_documents_by (analyze : string -> list string)
           (raw_documents : list string) : vocab * list counter :=
  fold_left
    (fun '(vocabulary, rows) doc =>
       let '(vocabulary, feature_counter) :=
         count_features (analyze doc) vocabulary in
       (vocabulary, rows ++ [feature_counter]))
    raw_documents ([], []).

Definition count_vocab_by (analyze : string -> list string)
           (raw_documents : list string) : result (vocab * list counter) :=
  let '(vocabulary, X) := count_documents_by analyze raw_documents in
  match vocabulary with
  | [] => Raise ValueError
  | _ => Ok (vocabulary, X)
  end.

Definition count_fit_transform_by (analyze : string -> list string)
           (raw_documents : list string) : result (vocab * list counter) :=
  '(vocabulary, X) <- count_vocab_by analyze raw_documents ;;
  Ok (sort_features X vocabulary).

Definition fit_transform_by (analyze : string -> list string)
           (raw_documents : list string) : result (vocab * list row) :=
  '(vocabulary_, X) <- count_fit_transform_by analyze raw_documents ;;
  Ok (vocabulary_, tfidf_transform X).

Definition get_top_ngrams_by (analyze : string -> list string)
           (record_list : list string) : result (list (string * R)) :=
  '(vocabulary_, bag_of_words) <- fit_transform_by analyze record_list ;;
  let sum_words := column_sum bag_of_words in
  let words_freq := map (fun '(word, idx) => (word, sum_words idx)) vocabulary_ in
  let words_freq := sorted_by_weight words_freq in
  Ok (firstn 10 words_freq).

(** [get_top_ngrams(record_list, n)] for any integer [n]. *)
Definition get_top_ngrams_int (record_list : list string) (n : Z)
  : result (list (string * R)) :=
  get_top_ngrams_by (analyze_int n) record_list.

End GramSize.

(** ** get_log_insights.py: the files, the options and [main]

    The script reaches the file system through [os.path.exists],
    [glob.glob], [os.path.getmtime] and [open(path, "r")] with
    [readlines()], and the command line through [parser.parse_args()] and
    [int(options.num_grams)]. What these calls give is the input of a run;
    nothing is assumed of it here. A run is taken against one state of the
    file system: a call gives the same for the same argument. A
    modification time is a finite float; it is written on the scale of the
    smallest float unit, as an integer, so that the order is the order of
    the floats. Writing to the standard output is taken to succeed. *)

Module Pipeline.
Import PyStr GramSize.
Local Open Scope list_scope.

(** *** Exceptions of the script *)

(** [GetLogInsightsException(message, exitcode)]; an exception of a
    handler's loop or of the vectorizer; the [OSError] of a call into the
    file system; the [UnicodeDecodeError] of [readlines]. *)
Inductive raised : Type :=
| GetLogInsightsException (message : string) (exitcode : Z)
| Exception (e : exn)
| OSError
| UnicodeDecodeError.

Inductive outcome (A : Type) : Type :=
| Returns (a : A)
| Raises (r : raised).

Arguments Returns {A} a.
Arguments Raises {A} r.

(** *** The file system *)

(** What [open(path, "r")] and [readlines()] give for a path: the lines,
    or an [OSError] (no such file, a directory, no permission), or a
    [UnicodeDecodeError] (bytes that are no text in the encoding). *)
Inductive read : Type :=
| Lines (lines : list string)
| CannotOpen
| CannotDecode.

(** [getmtime] is [None] where [os.path.getmtime] raises [OSError], as it
    does on a link that leads nowhere. *)
Record world : Type := {
  path_exists : string -> bool;
  glob : string -> list string;
  getmtime : string -> option Z;
  readlines : string -> read
}.

(** *** [get_matching_log_files] *)

(** ['%s/%s*' % (input_dir, log_prefix)] *)
Definition pattern (input_dir log_prefix : string) : string :=
  (input_dir ++ "/" ++ log_prefix ++ "*")%string.

(** The loop [for log_prefix in log_prefixes_list]. *)
Definition matched (w : world) (input_dir : string)
           (log_prefixes_list : list string) : list string :=
  fold_left (fun error_file_list log_prefix =>
               error_file_list ++ glob w (pattern input_dir log_prefix))
            log_prefixes_list [].

(** [sorted(error_file_list, key=os.path.getmtime)] first calls the key on
    every element, in order; an [OSError] of a call ends the sort. *)
Fixpoint keyed (w : world) (paths : list string)
  : option (list (Z * string)) :=
  match paths with
  | [] => Some []
  | path :: paths' =>
      match getmtime w path with
      | None => None
      | Some t =>
          match keyed w paths' with
          | None => None
          | Some l => Some ((t, path) :: l)
          end
      end
  end.

(** The sort itself is stable, oldest first. *)
Fixpoint insert_by_mtime (x : Z * string) (l : list (Z * string))
  : list (Z * string) :=
  match l with
  | [] => [x]
  | y :: l' =>
      if (fst y <? fst x)%Z then y :: insert_by_mtime x l'
      else x :: y :: l'
  end.

Definition sorted_by_mtime (l : list (Z * string)) : list (Z * string) :=
  fold_right insert_by_mtime [] l.

Definition get_matching_log_files (w : world) (input_dir : string)
           (log_prefixes_list : list string) : outcome (list string) :=
  let error_file_list := matched w input_dir log_prefixes_list in
  match keyed w error_file_list with
  | None => Raises OSError
  | Some l => Returns (map snd (sorted_by_mtime l))
  end.

(** *** [validate_input] *)

(** The options [parser.parse_args()] returns. [num_grams] stands for
    [int(options.num_grams)], the one use the script makes of the option:
    the integer, or [None] where [int] raises [ValueError]. *)
Record options : Type := {
  log_type : string;
  num_grams : option Z;
  input_dir : string
}.

Definition SUPPORTED_LOG_TYPES : list string :=
  ["apache-error"; "apache-access"].

Definition message_input_dir : string :=
  ("The option " ++ DQ ++ "i" ++ DQ
   ++ " must be provided as -i /path/to/server/logs")%string.

Definition message_log_type : string :=
  ("The option " ++ DQ ++ "t" ++ DQ
   ++ " must be provided as -t <log_type>. Valid log types are "
   ++ "['apache-error', 'apache-access']")%string.

(** The checks of [validate_input] on the parsed options. *)
Definition validate_input (parsed : options) : outcome options :=
  if String.eqb (input_dir parsed) "" then
    Raises (GetLogInsightsException message_input_dir 1)
  else if negb (existsb (String.eqb (log_type parsed)) SUPPORTED_LOG_TYPES) then
    Raises (GetLogInsightsException message_log_type 1)
  else Returns parsed.

(** *** [analyze_log_files] *)

(** [log_handler.parse_log_file(path)]: the file is opened and read, then
    the loop of the handler runs over its lines. *)
Definition parse_log_file_path (w : world) (log_handler : LogHandlerInterface)
           (path : string) : outcome (list string) :=
  match readlines w path with
  | CannotOpen => Raises OSError
  | CannotDecode => Raises UnicodeDecodeError
  | Lines lines =>
      match @parse_log_file log_handler lines with
      | Ok log_record_list => Returns log_record_list
      | Raise e => Raises (Exception e)
      end
  end.

(** The loop [for path in paths]. *)
Fixpoint extend_records_in (w : world) (log_handler : LogHandlerInterface)
         (paths : list string) (log_record_list : list string)
  : outcome (list string) :=
  match paths with
  | [] => Returns log_record_list
  | path :: paths' =>
      match parse_log_file_path w log_handler path with
      | Raises r => Raises r
      | Returns records =>
          extend_records_in w log_handler paths' (log_record_list ++ records)
      end
  end.

Definition message_no_dir (dir : string) : string :=
  ("The input_dir at path " ++ dir ++ " does not seem to exist")%string.

(** [analyze_log_files(log_handler, input_dir, n)]: the check of the path,
    the matching files, the records of the files, then their ranking. The
    value is [common_words], which the function prints as a table. *)
Definition analyze_log_files_in (w : world) (log_handler : LogHandlerInterface)
           (input_dir : string) (n : Z) : outcome (list (string * R)) :=
  if negb (path_exists w input_dir) then
    Raises (GetLogInsightsException (message_no_dir input_dir) 1)
  else
    match get_matching_log_files w input_dir
                                 (@get_log_file_prefixes log_handler) with
    | Raises r => Raises r
    | Returns paths =>
        match extend_records_in w log_handler paths [] with
        | Raises r => Raises r
        | Returns log_record_list =>
            match get_top_ngrams_int log_record_list n with
            | Ok common_words => Returns common_words
            | Raise e => Raises (Exception e)
            end
        end
    end.

(** *** [main] *)

(** What [parser.parse_args()] does with the command line: it prints the
    help and leaves with status 0, or reports a usage error and leaves with
    status 2, or returns the options. *)
Inductive command_line : Type :=
| Help
| UsageError
| Parsed (parsed : options).

(** The handler [main] builds for a validated log type. *)
Definition handler_of (type : string) : LogHandlerInterface :=
  if String.eqb type "apache-error" then ApacheErrorLogHandler.handler
  else ApacheAccessLogHandler.handler.

(** [main()]: the exit status of the process, and the table of n-grams when
    one is printed. The [SystemExit] of [parse_args] is caught nowhere;
    leaving [main] at its end is status 0. *)
Definition main (args : command_line) (w : world)
  : Z * option (list (string * R)) :=
  match args with
  | Help => (0%Z, None)
  | UsageError => (2%Z, None)
  | Parsed parsed =>
      match validate_input parsed with
      | Raises (GetLogInsightsException _ exitcode) => (exitcode, None)
      | Raises _ => (1%Z, None)
      | Returns options =>
          let log_handler := handler_of (log_type options) in
          match num_grams options with
          | None => (1%Z, None)
          | Some n =>
              match analyze_log_files_in w log_handler
                                         (input_dir options) n with
              | Returns common_words => (0%Z, Some common_words)
              | Raises (GetLogInsightsException _ exitcode) =>
                  (exitcode, None)
              | Raises _ => (1%Z, None)
              end
          end
      end
  end.

End Pipeline.

(** *** Vocabulary of the further statements *)

Module More.
Import PyStr Pipeline.
Local Open Scope list_scope.

(** The string holds a character that [\s] matches. *)
Fixpoint has_space (s : string) : bool :=
  match s with
  | EmptyString => false
  | String c s' => TfidfVectorizer.isspace c || has_space s'
  end.

(** A token: not empty and free of space characters. *)
Definition is_token (t : string) : Prop :=
  t <> EmptyString /\ has_space t = false.

(** The paths [glob] yields for the prefixes, prefix after prefix. *)
Definition found (w : world) (input_dir : string)
           (log_prefixes_list : list string) : list string :=
  flat_map (fun log_prefix => glob w (pattern input_dir log_prefix))
           log_prefixes_list.

(** [os.path.getmtime] returns on every path of the list. *)
Definition all_timed (w : world) (paths : list string) : Prop :=
  forall path, In path paths -> getmtime w path <> None.

(** The time of the first path is at most the time of the second. *)
Definition not_newer (w : world) (p q : string) : Prop :=
  match getmtime w p, getmtime w q with
  | Some t, Some u => (t <= u)%Z
  | _, _ => False
  end.

(** The paths are in the order of their times, oldest first. *)
Definition oldest_first (w : world) (paths : list string) : Prop :=
  StronglySorted (not_newer w) paths.

(** The paths of [l] whose time is [t], in their order in [l]. *)
Definition at_time (w : world) (t : Z) (l : list string) : list string :=
  filter (fun path =>
            match getmtime w path with
            | Some u => (u =? t)%Z
            | None => false
            end) l.

(** The file at the path can be opened and read. *)
Definition readable (w : world) (path : string) : Prop :=
  exists lines, readlines w path = Lines lines.

(** The lines of the file at the path, none when it cannot be read. *)
Definition lines_of (w : world) (path : string) : list string :=
  match readlines w path with
  | Lines lines => lines
  | _ => []
  end.

(** The name starts with one of the prefixes. *)
Definition matches (log_prefixes_list : list string) (name : string) : bool :=
  existsb (fun log_prefix => startswith log_prefix name) log_prefixes_list.

(** [glob] in a directory of the names [names], for a prefix without
    pattern characters: the names that start with the prefix, each behind
    the directory part [dir] of the pattern. *)
Definition lists (w : world) (input_dir dir : string) (names : list string)
           (log_prefix : string) : Prop :=
  glob w (pattern input_dir log_prefix) =
  map (append dir) (filter (startswith log_prefix) names).

(** The entry has the weight [w]. *)
Definition weighs (w : R) (x : string * R) : bool :=
  if Req_dec_T (snd x) w then true else false.

(** One record of eleven distinct tokens. *)
Definition tokens_eleven : list string :=
  ["a"; "b"; "c"; "d"; "e"; "f"; "g"; "h"; "i"; "j"; "k"]%string.

Definition record_eleven : string := "a b c d e f g h i j k".

Definition corpus_eleven : list string := [record_eleven].

(** An access-log line whose request holds the second delimiter again. *)
Definition access_line_bracket : string :=
  ("1.1.1.1 - - [t] " ++ DQ ++ "GET /] " ++ DQ ++ "x" ++ DQ ++ " 200" ++ NL)%string.

(** *** Sample runs *)

(** A log directory with two error logs and one access log. *)
Definition httpd : string := "/var/log/httpd".

Definition world_httpd : world :=
  {| path_exists := fun path => String.eqb path httpd;
     glob := fun pat =>
       if String.eqb pat "/var/log/httpd/error_log*" then
         ["/var/log/httpd/error_log"; "/var/log/httpd/error_log.1"]
       else if String.eqb pat "/var/log/httpd/access_log*" then
         ["/var/log/httpd/access_log"]
       else [];
     getmtime := fun path =>
       if String.eqb path "/var/log/httpd/error_log" then Some 30%Z
       else if String.eqb path "/var/log/httpd/error_log.1" then Some 10%Z
       else if String.eqb path "/var/log/httpd/access_log" then Some 20%Z
       else None;
     readlines := fun path =>
       if String.eqb path "/var/log/httpd/error_log" then
         Lines ["[t] [error] disk full"]
       else if String.eqb path "/var/log/httpd/error_log.1" then
         Lines ["[t] [notice] resuming normal operations"; "restart"]
       else if String.eqb path "/var/log/httpd/access_log" then
         Lines [Lines.access_line_example; "no delimiters here"]
       else CannotOpen |}.

(** A directory whose error log is a link that leads nowhere. *)
Definition world_dangling : world :=
  {| path_exists := fun path => String.eqb path httpd;
     glob := fun pat =>
       if String.eqb pat "/var/log/httpd/error_log*" then
         ["/var/log/httpd/error_log"]
       else [];
     getmtime := fun _ => None;
     readlines := fun _ => CannotOpen |}.

(** A directory without a log file. *)
Definition world_empty : world :=
  {| path_exists := fun path => String.eqb path httpd;
     glob := fun _ => [];
     getmtime := fun _ => None;
     readlines := fun _ => CannotOpen |}.

Definition options_for (type : string) (n : Z) : options :=
  {| log_type := type; num_grams := Some n; input_dir := httpd |}.

End More.

(** * Facts about the [str] model *)

Module PyStrFacts.
Import PyStr.

Lemma append_nil_r (s : string) : s ++ "" = s.
Proof. induction s as [|c s IH]; simpl; [reflexivity | now rewrite IH]. Qed.

Lemma append_assoc (a b c : string) : (a ++ b) ++ c = a ++ b ++ c.
Proof. induction a as [|x a IH]; simpl; [reflexivity | now rewrite IH]. Qed.

Lemma length_append (a b : string) :
  String.length (a ++ b) = String.length a + String.length b.
Proof. induction a as [|x a IH]; simpl; [reflexivity | now rewrite IH]. Qed.

Lemma startswith_app (p r : string) : startswith p (p ++ r) = true.
Proof.
  induction p as [|c p IH]; simpl; [reflexivity|].
  now rewrite Ascii.eqb_refl, IH.
Qed.

Lemma startswith_inv (p s : string) :
  startswith p s = true -> s = p ++ drop (String.length p) s.
Proof.
  revert s; induction p as [|c p IH]; intros s H; simpl in *.
  - reflexivity.
  - destruct s as [|d s]; [discriminate|].
    apply andb_true_iff in H as [Hc Hp].
    apply Ascii.eqb_eq in Hc; subst d.
    simpl. f_equal. now apply IH.
Qed.

Lemma drop_app (p r : string) : drop (String.length p) (p ++ r) = r.
Proof. induction p as [|c p IH]; simpl; [now destruct r | exact IH]. Qed.

Lemma partition_eq (sep s : string) :
  partition sep s =
  if startswith sep s then Some ("", drop (String.length sep) s)
  else match s with
       | "" => None
       | String c s' =>
           match partition sep s' with
           | Some (before, after) => Some (String c before, after)
           | None => None
           end
       end.
Proof. destruct s; reflexivity. Qed.

(** [partition] cuts [s] at an occurrence of [sep]. *)
Lemma partition_some (sep s b a : string) :
  partition sep s = Some (b, a) -> s = b ++ sep ++ a.
Proof.
  revert b a; induction s as [|c s IH]; intros b a H;
    rewrite partition_eq in H.
  - destruct (startswith sep "") eqn:E; [|discriminate].
    injection H as <- <-. now apply startswith_inv.
  - destruct (startswith sep (String c s)) eqn:E.
    + injection H as <- <-. now apply startswith_inv.
    + destruct (partition sep s) as [[b' a']|] eqn:P; [|discriminate].
      injection H as <- <-. simpl. f_equal. now apply IH.
Qed.

(** [partition] finds [sep] whenever it occurs. *)
Lemma partition_none (sep s : string) :
  partition sep s = None -> ~ Occurs sep s.
Proof.
  induction s as [|c s IH]; intros H [a [b E]]; rewrite partition_eq in H.
  - destruct a; [|discriminate]. simpl in E.
    rewrite E, startswith_app in H. discriminate.
  - destruct a as [|x a].
    + simpl in E. rewrite E, startswith_app in H. discriminate.
    + simpl in E. injection E as _ E.
      destruct (startswith sep (String c s)); [discriminate|].
      destruct (partition sep s) as [[b' a']|] eqn:P; [discriminate|].
      apply IH; [reflexivity|]. now exists a, b.
Qed.

Lemma partition_occurs (sep s : string) :
  Occurs sep s -> exists b a, partition sep s = Some (b, a).
Proof.
  intros H. destruct (partition sep s) as [[b a]|] eqn:P.
  - now exists b, a.
  - now apply partition_none in P.
Qed.

Lemma partition_shorter (sep s b a : string) :
  sep <> "" -> partition sep s = Some (b, a) ->
  String.length a < String.length s.
Proof.
  intros Hsep H. apply partition_some in H. subst s.
  rewrite !length_append. destruct sep; [congruence | simpl; lia].
Qed.

Lemma split_from_enough (sep : string) (k1 k2 : nat) (s : string) :
  sep <> "" -> String.length s <= k1 -> String.length s <= k2 ->
  split_from k1 sep s = split_from k2 sep s.
Proof.
  intros Hsep. revert k2 s.
  induction k1 as [|k1 IH]; intros k2 s H1 H2;
    destruct k2 as [|k2]; simpl;
    destruct (partition sep s) as [[b a]|] eqn:P; try reflexivity;
    pose proof (partition_shorter _ _ _ _ Hsep P); try lia.
  f_equal. apply IH; lia.
Qed.

(** The rounds never run out: [split] cuts at every occurrence in turn. *)
Lemma split_unfold (sep s : string) :
  sep <> "" ->
  split sep s = match partition sep s with
                | None => [s]
                | Some (before, after) => before :: split sep after
                end.
Proof.
  intros Hsep. unfold split.
  destruct (String.length s) as [|k] eqn:L; simpl;
    destruct (partition sep s) as [[b a]|] eqn:P; try reflexivity;
    pose proof (partition_shorter _ _ _ _ Hsep P) as Hlt; [lia|].
  f_equal. apply split_from_enough; [assumption| lia | lia].
Qed.

Lemma split_ind (sep : string) (P : string -> list string -> Prop) :
  sep <> "" ->
  (forall s, partition sep s = None -> P s [s]) ->
  (forall s b a, partition sep s = Some (b, a) ->
                 P a (split sep a) -> P s (b :: split sep a)) ->
  forall s, P s (split sep s).
Proof.
  intros Hsep Hnone Hsome s.
  remember (String.length s) as n eqn:Hn.
  revert s Hn. induction n as [n IH] using lt_wf_ind. intros s Hn.
  rewrite (split_unfold _ _ Hsep).
  destruct (partition sep s) as [[b a]|] eqn:E.
  - apply Hsome; [assumption|].
    apply (IH (String.length a)); [|reflexivity].
    subst n. now apply (partition_shorter sep s b a).
  - now apply Hnone.
Qed.

Lemma split_nonempty (sep s : string) : split sep s <> [].
Proof.
  unfold split. destruct (String.length s); simpl;
    destruct (partition sep s) as [[b a]|]; discriminate.
Qed.

Lemma join_cons (sep x : string) (l : list string) :
  l <> [] -> join sep (x :: l) = x ++ sep ++ join sep l.
Proof. destruct l; [congruence | reflexivity]. Qed.

(** Joining the parts with the separator gives the string back. *)
Lemma join_split (sep s : string) :
  sep <> "" -> join sep (split sep s) = s.
Proof.
  intros Hsep. apply (split_ind sep (fun s l => join sep l = s) Hsep).
  - reflexivity.
  - intros s0 b a P IH.
    rewrite join_cons by apply split_nonempty.
    rewrite IH. symmetry. now apply partition_some.
Qed.

(** No occurrence of the separator: one part, the string itself. *)
Lemma split_no_occurrence (sep s : string) :
  sep <> "" -> ~ Occurs sep s -> split sep s = [s].
Proof.
  intros Hsep H. rewrite split_unfold by assumption.
  destruct (partition sep s) as [[b a]|] eqn:P; [|reflexivity].
  exfalso. apply H. exists b, a. now apply partition_some.
Qed.

(** Every part is a piece of the string. *)
Lemma split_part_substring (sep s p : string) :
  sep <> "" -> In p (split sep s) -> exists a b, s = a ++ p ++ b.
Proof.
  intros Hsep. revert p.
  apply (split_ind sep
           (fun s l => forall p, In p l -> exists a b, s = a ++ p ++ b) Hsep).
  - intros s0 _ p [<-|[]]. exists "", "". simpl. now rewrite append_nil_r.
  - intros s0 b a P IH p [<-|Hin].
    + exists "", (sep ++ a). simpl. now apply partition_some.
    + destruct (IH p Hin) as [x [y E]].
      exists (b ++ sep ++ x), y.
      rewrite (partition_some _ _ _ _ P), E.
      now rewrite !append_assoc.
Qed.

Lemma occurs_in_piece (sep s p a b : string) :
  s = a ++ p ++ b -> Occurs sep p -> Occurs sep s.
Proof.
  intros -> [x [y ->]]. exists (a ++ x), (y ++ b).
  now rewrite !append_assoc.
Qed.

(** More than two parts: the separator occurs twice, one after the other. *)
Lemma split_three_parts (sep s : string) :
  sep <> "" -> 2 < List.length (split sep s) ->
  exists a b c, s = a ++ sep ++ b ++ sep ++ c.
Proof.
  intros Hsep H. rewrite split_unfold in H by assumption.
  destruct (partition sep s) as [[b1 a1]|] eqn:P1; [|simpl in H; lia].
  simpl in H. rewrite split_unfold in H by assumption.
  destruct (partition sep a1) as [[b2 a2]|] eqn:P2; [|simpl in H; lia].
  exists b1, b2, a2.
  now rewrite (partition_some _ _ _ _ P1), (partition_some _ _ _ _ P2).
Qed.

(** *** A character appended to the string, when the separator lacks it *)

Section Appended.
Variable sep : string.
Variable c : ascii.
Hypothesis sep_lacks_c : has_char c sep = false.

Let t : string := String c "".






End Appended.



End PyStrFacts.

(** * The record normalizers *)

Module HandlerFacts.
Import PyStr PyStrFacts Lines.

Lemma error_parse_lines_app (l1 l2 : list string) :
  ApacheErrorLogHandler.parse_lines (l1 ++ l2)%list =
  (ApacheErrorLogHandler.parse_lines l1 ++
   ApacheErrorLogHandler.parse_lines l2)%list.
Proof.
  unfold ApacheErrorLogHandler.parse_lines.
  assert (G : forall l acc,
             fold_left (fun r line =>
                          (r ++ ApacheErrorLogHandler.parse_line line)%list)
                       l acc =
             (acc ++ fold_left (fun r line =>
                          (r ++ ApacheErrorLogHandler.parse_line line)%list)
                       l [])%list).
  { induction l as [|x l IH]; intros acc; simpl.
    - now rewrite app_nil_r.
    - rewrite IH, (IH (ApacheErrorLogHandler.parse_line x)).
      now rewrite app_assoc. }
  rewrite fold_left_app. apply G.
Qed.

Lemma error_parse_lines_one (line : string) :
  ApacheErrorLogHandler.parse_lines [line] =
  ApacheErrorLogHandler.parse_line line.
Proof. reflexivity. Qed.

Lemma error_line_skipped (line : string) :
  lacks_error_delimiters line -> ApacheErrorLogHandler.parse_line line = [].
Proof.
  intros H. unfold ApacheErrorLogHandler.parse_line.
  destruct (Nat.ltb_spec 2 (List.length (split "] " line))) as [L|L];
    [|reflexivity].
  exfalso. apply H. apply split_three_parts; [discriminate | exact L].
Qed.

Lemma subscript_in {A : Type} (l : list A) (i : nat) (a : A) :
  subscript l i = Ok a -> In a l.
Proof.
  unfold subscript. destruct (nth_error l i) eqn:E; [|discriminate].
  intros [= <-]. now apply nth_error_In with i.
Qed.

(** Every failure of the access-log handler on a line is an [IndexError]. *)
Lemma access_line_raises_index (line : string) (e : exn) :
  ApacheAccessLogHandler.parse_line line = Raise e -> e = IndexError.
Proof.
  unfold ApacheAccessLogHandler.parse_line, bind, subscript.
  repeat match goal with
         | |- context [nth_error ?l ?i] => destruct (nth_error l i)
         end; intros [=]; congruence.
Qed.

Lemma access_line_fails (line : string) :
  lacks_access_delimiters line ->
  ApacheAccessLogHandler.parse_line line = Raise IndexError.
Proof.
  intros H. unfold ApacheAccessLogHandler.parse_line.
  destruct (subscript (split ApacheAccessLogHandler.sep_client line) 0)
    as [client|e0] eqn:E0; simpl;
    [|unfold subscript in E0; destruct nth_error; congruence].
  destruct (subscript (split ApacheAccessLogHandler.sep_client line) 1)
    as [field1|e1] eqn:E1; simpl;
    [|unfold subscript in E1; destruct nth_error; congruence].
  assert (Hf : ~ Occurs ApacheAccessLogHandler.sep_request field1).
  { destruct H as [H|H].
    - rewrite split_no_occurrence in E1; [discriminate|discriminate|exact H].
    - intros O. apply H.
      apply subscript_in in E1.
      apply split_part_substring in E1 as [a [b E]]; [|discriminate].
      now apply (occurs_in_piece _ _ _ _ _ E). }
  rewrite split_no_occurrence; [reflexivity | discriminate | exact Hf].
Qed.

Lemma access_loop_aborts (before after : list string) (line : string)
      (acc : list string) :
  ApacheAccessLogHandler.parse_line line = Raise IndexError ->
  ApacheAccessLogHandler.parse_loop (before ++ line :: after)%list acc =
  Raise IndexError.
Proof.
  intros H. revert acc. induction before as [|x before IH]; intros acc; simpl.
  - now rewrite H.
  - destruct (ApacheAccessLogHandler.parse_line x) as [r|e] eqn:E; simpl.
    + apply IH.
    + f_equal. now apply access_line_raises_index with x.
Qed.

Lemma access_loop_raises_index (lines acc : list string) (e : exn) :
  ApacheAccessLogHandler.parse_loop lines acc = Raise e -> e = IndexError.
Proof.
  revert acc. induction lines as [|x lines IH]; intros acc; simpl.
  - discriminate.
  - destruct (ApacheAccessLogHandler.parse_line x) as [r|e'] eqn:E; simpl.
    + apply IH.
    + intros [= <-]. now apply access_line_raises_index with x.
Qed.

(** An [IndexError] in one file ends the gathering of the records. *)
Lemma access_records_abort (earlier later : list (list string))
      (path : list string) (acc : list string) :
  @parse_log_file ApacheAccessLogHandler.handler path = Raise IndexError ->
  extend_records ApacheAccessLogHandler.handler
                 (earlier ++ path :: later)%list acc = Raise IndexError.
Proof.
  intros H. revert acc.
  induction earlier as [|p earlier IH]; intros acc; cbn [app extend_records].
  - now rewrite H.
  - destruct (@parse_log_file ApacheAccessLogHandler.handler p)
      as [r|e] eqn:E; cbn [bind].
    + apply IH.
    + f_equal. now apply access_loop_raises_index with p [].
Qed.

(** The error-log records of the files do not depend on a line that is
    skipped. *)
Lemma error_records_skip (earlier later : list (list string))
      (before after : list string) (line : string) (acc : list string) :
  lacks_error_delimiters line ->
  extend_records ApacheErrorLogHandler.handler
                 (earlier ++ (before ++ line :: after) :: later)%list acc =
  extend_records ApacheErrorLogHandler.handler
                 (earlier ++ (before ++ after) :: later)%list acc.
Proof.
  intros H. revert acc.
  induction earlier as [|p earlier IH]; intros acc; cbn [app extend_records].
  - cbn [parse_log_file ApacheErrorLogHandler.handler bind].
    change (line :: after) with ([line] ++ after)%list.
    rewrite !error_parse_lines_app, error_parse_lines_one.
    now rewrite (error_line_skipped line H).
  - cbn [parse_log_file ApacheErrorLogHandler.handler bind]. apply IH.
Qed.

Lemma endswith_newline_has_char (s : string) :
  endswith_newline s -> has_char newline s = true.
Proof.
  intros [body ->]. induction body as [|c body IH]; simpl.
  - reflexivity.
  - rewrite IH. apply orb_true_r.
Qed.




Lemma remove_all_has_char (c : ascii) (s : string) :
  has_char c (remove_all c s) = false.
Proof.
  induction s as [|a s IH]; simpl; [reflexivity|].
  destruct (Ascii.eqb a c) eqn:E; simpl; [exact IH | now rewrite E].
Qed.

End HandlerFacts.

Import PyStr PyStrFacts Lines HandlerFacts.

(** C5. The error-log handler splits a line on ["] "]. When the split has
    more than two parts, the line adds exactly one record to the records
    gathered so far: the parts from index 2 on, joined by one space. When the
    split has two parts or fewer, the line adds nothing. The line
    ["[Mon Jan 01] [error] real error text"] gives ["real error text"]. *)
Theorem error_log_normalizer_spec (lines : list string) (line : string) :
  let parts := split "] " line in
  (2 < List.length parts ->
   ApacheErrorLogHandler.parse_lines (lines ++ [line])%list =
   (ApacheErrorLogHandler.parse_lines lines ++
    [join " " (skipn 2 parts)])%list) /\
  (List.length parts <= 2 ->
   ApacheErrorLogHandler.parse_lines (lines ++ [line])%list =
   ApacheErrorLogHandler.parse_lines lines) /\
  ApacheErrorLogHandler.parse_lines ["[Mon Jan 01] [error] real error text"]
  = ["real error text"].
Proof.
  intros parts. rewrite error_parse_lines_app, error_parse_lines_one.
  unfold ApacheErrorLogHandler.parse_line. fold parts.
  repeat split.
  - intros H. apply Nat.ltb_lt in H. now rewrite H.
  - intros H. apply Nat.ltb_ge in H. rewrite H. apply app_nil_r.
Qed.

Lemma error_log_normalizer_spec_witness :
  ApacheErrorLogHandler.parse_lines (["[t] [warn] x"] ++ ["[t] [error] a] b"])%list
  = (ApacheErrorLogHandler.parse_lines ["[t] [warn] x"] ++ ["a b"])%list /\
  ApacheErrorLogHandler.parse_lines (["[t] [warn] x"] ++ ["no brackets"])%list
  = ApacheErrorLogHandler.parse_lines ["[t] [warn] x"].
Proof.
  split.
  - apply (proj1 (error_log_normalizer_spec ["[t] [warn] x"] "[t] [error] a] b")).
    simpl. lia.
  - apply (proj1 (proj2 (error_log_normalizer_spec ["[t] [warn] x"] "no brackets"))).
    simpl. lia.
Defined.

(** C6. On the line
    [127.0.0.1 - - [01/Jan/2020] "GET /x HTTP/1.1" 200 - -] the client field
    is the text before [" - - ["], the request part is the text after the
    bracket-quote delimiter, every double quote and every hyphen is removed
    from the request part, and the record is the two joined by one space:
    ["127.0.0.1 GET /x HTTP/1.1 200  "]. *)
Theorem access_log_normalizer_example :
  let request := "GET /x HTTP/1.1" ++ DQ ++ " 200 - -" in
  access_line_example =
    "127.0.0.1" ++ ApacheAccessLogHandler.sep_client ++
    "01/Jan/2020" ++ ApacheAccessLogHandler.sep_request ++ request /\
  split ApacheAccessLogHandler.sep_client access_line_example =
    ["127.0.0.1"; "01/Jan/2020" ++ ApacheAccessLogHandler.sep_request ++ request] /\
  split ApacheAccessLogHandler.sep_request
        ("01/Jan/2020" ++ ApacheAccessLogHandler.sep_request ++ request) =
    ["01/Jan/2020"; request] /\
  remove_all hyphen (remove_all dquote request) = "GET /x HTTP/1.1 200  " /\
  has_char dquote "GET /x HTTP/1.1 200  " = false /\
  has_char hyphen "GET /x HTTP/1.1 200  " = false /\
  ApacheAccessLogHandler.parse_line access_line_example =
    Ok ("127.0.0.1" ++ " " ++ "GET /x HTTP/1.1 200  ") /\
  @parse_log_file ApacheAccessLogHandler.handler [access_line_example] =
    Ok ["127.0.0.1 GET /x HTTP/1.1 200  "].
Proof. repeat split. Qed.

(** C7. The two handlers treat a line that lacks the delimiters differently.
    The access-log handler raises [IndexError] out of [parse_log_file],
    whatever the other lines of the file are, and the run over all the files
    ends with that error. The error-log handler returns the records of the
    other lines, as if the line were absent, the run goes on to the ranking
    with them, and the handler never raises. *)
Theorem asymmetric_error_policies
        (earlier later : list (list string)) (before after : list string)
        (line : string) (n : nat) :
  (lacks_access_delimiters line ->
   @parse_log_file ApacheAccessLogHandler.handler (before ++ line :: after)%list
   = Raise IndexError /\
   analyze_log_files ApacheAccessLogHandler.handler
     (earlier ++ (before ++ line :: after) :: later)%list n
   = Raise IndexError) /\
  (lacks_error_delimiters line ->
   @parse_log_file ApacheErrorLogHandler.handler (before ++ line :: after)%list
   = @parse_log_file ApacheErrorLogHandler.handler (before ++ after)%list /\
   analyze_log_files ApacheErrorLogHandler.handler
     (earlier ++ (before ++ line :: after) :: later)%list n
   = analyze_log_files ApacheErrorLogHandler.handler
     (earlier ++ (before ++ after) :: later)%list n) /\
  (forall lines, exists records,
      @parse_log_file ApacheErrorLogHandler.handler lines = Ok records).
Proof.
  repeat split.
  - simpl. apply access_loop_aborts. now apply access_line_fails.
  - unfold analyze_log_files. rewrite access_records_abort; [reflexivity|].
    simpl. apply access_loop_aborts. now apply access_line_fails.
  - simpl. f_equal.
    change (line :: after) with ([line] ++ after)%list.
    rewrite !error_parse_lines_app, error_parse_lines_one.
    now rewrite (error_line_skipped line H).
  - unfold analyze_log_files. now rewrite error_records_skip.
  - intros lines. now eexists.
Qed.

Lemma asymmetric_error_policies_witness :
  analyze_log_files ApacheAccessLogHandler.handler
     [[access_line_example; "no delimiters here"; access_line_example]] 1
  = Raise IndexError /\
  analyze_log_files ApacheErrorLogHandler.handler
     [["[t] [error] first"; "no delimiters here"; "[t] [error] last"]] 1
  = analyze_log_files ApacheErrorLogHandler.handler
     [["[t] [error] first"; "[t] [error] last"]] 1.
Proof.
  split.
  - apply (proj1 (asymmetric_error_policies
                    [] [] [access_line_example] [access_line_example]
                    "no delimiters here" 1)).
    left. apply partition_none. reflexivity.
  - apply (proj1 (proj2 (asymmetric_error_policies
                    [] [] ["[t] [error] first"] ["[t] [error] last"]
                    "no delimiters here" 1))).
    intros [a [b [c E]]].
    apply (partition_none "] " "no delimiters here"); [reflexivity|].
    now exists a, (b ++ "] " ++ c).
Defined.




(** * The vocabulary and the count matrix *)

Module CountFacts.
Import TfidfVectorizer Scorer.
Local Open Scope list_scope.
Local Open Scope nat_scope.

Lemma mem_In (t : string) (keys : list string) :
  mem t keys = true <-> In t keys.
Proof.
  unfold mem. rewrite existsb_exists. split.
  - intros [x [Hx E]]. apply String.eqb_eq in E. now subst.
  - intros H. exists t. split; [assumption | apply String.eqb_refl].
Qed.

Lemma mem_false (t : string) (keys : list string) :
  mem t keys = false <-> ~ In t keys.
Proof.
  rewrite <- mem_In. destruct (mem t keys); intuition congruence.
Qed.

Lemma add_key_In (keys : list string) (t u : string) :
  In u (add_key keys t) <-> In u keys \/ u = t.
Proof.
  unfold add_key. destruct (mem t keys) eqn:E.
  - apply mem_In in E. split; [tauto | intros [H| ->]; assumption].
  - rewrite in_app_iff. simpl. intuition.
Qed.

Lemma add_key_NoDup (keys : list string) (t : string) :
  NoDup keys -> NoDup (add_key keys t).
Proof.
  intros H. unfold add_key. destruct (mem t keys) eqn:E; [assumption|].
  apply mem_false in E. apply NoDup_app; [assumption| | ].
  - constructor; [intros [] | constructor].
  - intros x Hx [<-|[]]. contradiction.
Qed.

Lemma add_key_extends (keys : list string) (t : string) :
  exists more, add_key keys t = keys ++ more.
Proof.
  unfold add_key. destruct (mem t keys).
  - exists []. now rewrite app_nil_r.
  - now exists [t].
Qed.

Lemma add_keys_In (l keys : list string) (u : string) :
  In u (fold_left add_key l keys) <-> In u keys \/ In u l.
Proof.
  revert keys. induction l as [|t l IH]; intros keys; simpl.
  - tauto.
  - rewrite IH, add_key_In. intuition.
Qed.

Lemma add_keys_NoDup (l keys : list string) :
  NoDup keys -> NoDup (fold_left add_key l keys).
Proof.
  revert keys. induction l as [|t l IH]; intros keys H; simpl.
  - assumption.
  - apply IH. now apply add_key_NoDup.
Qed.

Lemma add_keys_extends (l keys : list string) :
  exists more, fold_left add_key l keys = keys ++ more.
Proof.
  revert keys. induction l as [|t l IH]; intros keys; simpl.
  - exists []. now rewrite app_nil_r.
  - destruct (add_key_extends keys t) as [m1 E1].
    destruct (IH (add_key keys t)) as [m2 E2].
    exists (m1 ++ m2). now rewrite E2, E1, app_assoc.
Qed.

Lemma first_occurrences_In (l : list string) (u : string) :
  In u (first_occurrences l) <-> In u l.
Proof. unfold first_occurrences. rewrite add_keys_In. simpl. tauto. Qed.

Lemma first_occurrences_NoDup (l : list string) :
  NoDup (first_occurrences l).
Proof. apply add_keys_NoDup. constructor. Qed.

Lemma first_occurrences_snoc (l : list string) (t : string) :
  first_occurrences (l ++ [t]) = add_key (first_occurrences l) t.
Proof. unfold first_occurrences. now rewrite fold_left_app. Qed.

Lemma first_occurrences_app (l1 l2 : list string) :
  first_occurrences (l1 ++ l2) = fold_left add_key l2 (first_occurrences l1).
Proof. unfold first_occurrences. now rewrite fold_left_app. Qed.

(** The distinct elements are as many as [nodup] keeps. *)
Lemma first_occurrences_length (l : list string) :
  length (first_occurrences l) = length (nodup string_dec l).
Proof.
  apply Permutation_length, NoDup_Permutation.
  - apply first_occurrences_NoDup.
  - apply NoDup_nodup.
  - intros x. now rewrite first_occurrences_In, nodup_In.
Qed.

Lemma first_occurrences_nil (l : list string) :
  first_occurrences l = [] <-> l = [].
Proof.
  split; [|now intros ->].
  destruct l as [|x l]; [reflexivity|]. intros E.
  assert (H : In x (first_occurrences (x :: l)))
    by (apply first_occurrences_In; now left).
  rewrite E in H. destruct H.
Qed.

(** *** Positions *)

Lemma index_of_lt (t : string) (keys : list string) :
  In t keys -> index_of t keys < length keys.
Proof.
  induction keys as [|k keys IH]; simpl; [tauto|].
  intros H. destruct (String.eqb_spec k t) as [E|E]; [lia|].
  destruct H as [H|H]; [contradiction|]. apply IH in H. lia.
Qed.

Lemma index_of_notin (t : string) (keys : list string) :
  ~ In t keys -> index_of t keys = length keys.
Proof.
  induction keys as [|k keys IH]; simpl; [reflexivity|].
  intros H. destruct (String.eqb_spec k t) as [E|E]; [tauto|].
  f_equal. apply IH. tauto.
Qed.

Lemma index_of_app (t : string) (keys more : list string) :
  In t keys -> index_of t (keys ++ more) = index_of t keys.
Proof.
  induction keys as [|k keys IH]; simpl; [tauto|].
  intros H. destruct (String.eqb_spec k t) as [E|E]; [reflexivity|].
  f_equal. apply IH. tauto.
Qed.

Lemma index_of_app_notin (t : string) (keys more : list string) :
  ~ In t keys ->
  index_of t (keys ++ more) = length keys + index_of t more.
Proof.
  induction keys as [|k keys IH]; simpl; [reflexivity|].
  intros H. destruct (String.eqb_spec k t) as [E|E]; [tauto|].
  f_equal. apply IH. tauto.
Qed.

Lemma index_of_inj (a b : string) (keys : list string) :
  In a keys -> index_of a keys = index_of b keys -> a = b.
Proof.
  induction keys as [|k keys IH]; simpl; [tauto|].
  intros H E.
  destruct (String.eqb_spec k a) as [Ea|Ea];
    destruct (String.eqb_spec k b) as [Eb|Eb];
    try congruence; try discriminate.
  apply IH; [tauto | congruence].
Qed.

Lemma index_of_nth (t : string) (keys : list string) :
  In t keys -> nth_error keys (index_of t keys) = Some t.
Proof.
  induction keys as [|k keys IH]; simpl; [tauto|].
  intros H. destruct (String.eqb_spec k t) as [E|E]; [now subst|].
  apply IH. tauto.
Qed.

(** *** The dict that numbers the keys *)

Lemma lookup_numbered_from (s : nat) (t : string) (keys : list string) :
  lookup t (combine keys (seq s (length keys))) =
  if mem t keys then Some (s + index_of t keys) else None.
Proof.
  revert s. induction keys as [|k keys IH]; intros s; simpl; [reflexivity|].
  rewrite (String.eqb_sym t k).
  destruct (String.eqb_spec k t) as [E|E]; simpl.
  - f_equal. lia.
  - rewrite IH. fold (mem t keys).
    destruct (mem t keys); [f_equal; lia | reflexivity].
Qed.

Lemma lookup_numbered (t : string) (keys : list string) :
  lookup t (numbered keys) =
  if mem t keys then Some (index_of t keys) else None.
Proof. unfold numbered. now rewrite lookup_numbered_from. Qed.

Lemma numbered_snoc (keys : list string) (t : string) :
  numbered (keys ++ [t]) = numbered keys ++ [(t, length keys)].
Proof.
  unfold numbered.
  assert (G : forall s,
             combine (keys ++ [t]) (seq s (length (keys ++ [t]))) =
             combine keys (seq s (length keys)) ++ [(t, s + length keys)]).
  { induction keys as [|k keys IH]; intros s; simpl.
    - now rewrite Nat.add_0_r.
    - rewrite IH.
      now replace (S s + length keys) with (s + S (length keys)) by lia. }
  apply G.
Qed.

Lemma numbered_length (keys : list string) :
  length (numbered keys) = length keys.
Proof.
  unfold numbered. rewrite length_combine, length_seq. lia.
Qed.

Lemma numbered_keys (keys : list string) :
  map fst (numbered keys) = keys.
Proof.
  unfold numbered. generalize 0.
  induction keys as [|k keys IH]; intros s; simpl; [reflexivity|].
  now rewrite IH.
Qed.

(** [vocabulary[feature]] on the dict of [keys]: the dict of the keys with
    the feature added, and the position of the feature among them. *)
Lemma vocabulary_getitem_numbered (keys : list string) (t : string) :
  vocabulary_getitem (numbered keys) t =
  (numbered (add_key keys t), index_of t (add_key keys t)).
Proof.
  unfold vocabulary_getitem, add_key.
  rewrite lookup_numbered. destruct (mem t keys) eqn:E.
  - reflexivity.
  - apply mem_false in E.
    rewrite numbered_snoc, numbered_length.
    rewrite index_of_app_notin by assumption.
    simpl. rewrite String.eqb_refl. now rewrite Nat.add_0_r.
Qed.

(** *** The counter of one document *)

Lemma add_key_cons (u t : string) (l : list string) :
  u <> t -> add_key (u :: l) t = u :: add_key l t.
Proof.
  intros H. unfold add_key, mem. simpl.
  destruct (String.eqb_spec t u) as [E|E]; [congruence|]. simpl.
  now destruct (existsb (String.eqb t) l).
Qed.

Lemma add_key_head (t : string) (l : list string) :
  add_key (t :: l) t = t :: l.
Proof. unfold add_key, mem. simpl. now rewrite String.eqb_refl. Qed.

(** Counting a feature once more, on a counter laid out along distinct
    terms [l] under a numbering that tells them apart. *)
Lemma count_feature_counted (ix : string -> nat) (c c' : string -> nat)
      (t : string) (l : list string) :
  NoDup l ->
  (forall u, In u l -> ix u = ix t -> u = t) ->
  c' t = S (c t) ->
  (~ In t l -> c t = 0) ->
  (forall u, u <> t -> c' u = c u) ->
  count_feature (ix t) (map (fun u => (ix u, c u)) l) =
  map (fun u => (ix u, c' u)) (add_key l t).
Proof.
  intros Hnd Hinj Ht H0 Hother.
  induction l as [|u l IH].
  - simpl. rewrite Ht, H0 by tauto. reflexivity.
  - inversion Hnd as [|? ? Hu Hl]; subst. simpl.
    destruct (Nat.eqb_spec (ix u) (ix t)) as [E|E].
    + assert (u = t) by (apply Hinj; [now left | assumption]). subst u.
      rewrite add_key_head. simpl. rewrite Ht.
      f_equal; [f_equal; lia|].
      apply map_ext_in. intros a Ha. f_equal. symmetry. apply Hother.
      intros ->. contradiction.
    + assert (u <> t) by (intros ->; congruence).
      rewrite add_key_cons by assumption. simpl.
      rewrite Hother by assumption. f_equal.
      apply IH; [assumption | | ].
      * intros a Ha. apply Hinj. now right.
      * intros Hn. apply H0. intros [->|Hin]; tauto.
Qed.

Lemma count_features_snoc (p : list string) (t : string) (v : vocab) :
  count_features (p ++ [t]) v =
  let '(vocabulary, feature_counter) := count_features p v in
  let '(vocabulary, feature_idx) := vocabulary_getitem vocabulary t in
  (vocabulary, count_feature feature_idx feature_counter).
Proof.
  unfold count_features. rewrite fold_left_app. cbn [fold_left].
  now destruct (fold_left _ p _).
Qed.

(** The loop over the features of a document, from the dict of [keys]. *)
Lemma count_features_spec (fs keys : list string) :
  NoDup keys ->
  let keys' := fold_left add_key fs keys in
  count_features fs (numbered keys) =
  (numbered keys',
   map (fun u => (index_of u keys', count_occ string_dec fs u))
       (first_occurrences fs)).
Proof.
  intros Hnd. induction fs as [|t p IH] using rev_ind; [reflexivity|].
  cbv zeta in *. rewrite count_features_snoc, IH.
  rewrite vocabulary_getitem_numbered.
  rewrite fold_left_app. simpl fold_left.
  set (keys_p := fold_left add_key p keys).
  set (keys' := add_key keys_p t).
  rewrite first_occurrences_snoc. f_equal.
  assert (Hsub : forall u, In u (first_occurrences p) -> In u keys_p).
  { intros u Hu. apply add_keys_In. right.
    now apply first_occurrences_In. }
  destruct (add_key_extends keys_p t) as [more Emore]. fold keys' in Emore.
  rewrite (map_ext_in _
             (fun u => (index_of u keys', count_occ string_dec p u))).
  2:{ intros u Hu. f_equal. rewrite Emore.
      symmetry. apply index_of_app. now apply Hsub. }
  apply (count_feature_counted (fun u => index_of u keys')).
  - apply first_occurrences_NoDup.
  - intros u Hu E. apply index_of_inj with keys'; [|assumption].
    apply add_key_In. left. now apply Hsub.
  - rewrite count_occ_app. simpl.
    destruct (string_dec t t); [lia | congruence].
  - intros Hn. apply count_occ_not_In.
    now rewrite first_occurrences_In in Hn.
  - intros u Hu. rewrite count_occ_app. simpl.
    destruct (string_dec t u); [congruence | lia].
Qed.

(** *** The loop over the documents *)

Lemma grams_snoc (n : nat) (docs : list string) (d : string) :
  grams n (docs ++ [d]) = grams n docs ++ analyze n d.
Proof.
  unfold grams. rewrite map_app, concat_app. simpl. now rewrite app_nil_r.
Qed.

Lemma grams_In (n : nat) (docs : list string) (g : string) :
  In g (grams n docs) <-> exists d, In d docs /\ In g (analyze n d).
Proof.
  unfold grams. rewrite in_concat. split.
  - intros [l [Hl Hg]]. apply in_map_iff in Hl as [d [<- Hd]]. now exists d.
  - intros [d [Hd Hg]]. exists (analyze n d). split; [|assumption].
    now apply in_map.
Qed.

Lemma count_documents_snoc (n : nat) (docs : list string) (d : string) :
  count_documents n (docs ++ [d]) =
  let '(vocabulary, rows) := count_documents n docs in
  let '(vocabulary, feature_counter) :=
    count_features (analyze n d) vocabulary in
  (vocabulary, rows ++ [feature_counter]).
Proof.
  unfold count_documents. rewrite fold_left_app. cbn [fold_left].
  now destruct (fold_left _ docs _).
Qed.

(** The dict numbers the distinct n-grams in the order of their first
    occurrence, and the row of a document holds, for each of its distinct
    n-grams, the column of the n-gram and its number of occurrences. *)
Theorem count_documents_spec (n : nat) (docs : list string) :
  let keys := first_occurrences (grams n docs) in
  count_documents n docs =
  (numbered keys, map (counted (fun t => index_of t keys) n) docs).
Proof.
  induction docs as [|d ds IH] using rev_ind; [reflexivity|].
  cbv zeta in *. rewrite count_documents_snoc, IH.
  rewrite count_features_spec by apply first_occurrences_NoDup.
  rewrite grams_snoc, first_occurrences_app.
  set (keys_ds := first_occurrences (grams n ds)).
  set (keys := fold_left add_key (analyze n d) keys_ds).
  f_equal. rewrite map_app. simpl. f_equal.
  apply map_ext_in. intros d0 Hd0. unfold counted.
  apply map_ext_in. intros t Ht. f_equal.
  destruct (add_keys_extends (analyze n d) keys_ds) as [more E].
  fold keys in E. rewrite E. symmetry. apply index_of_app.
  apply first_occurrences_In, grams_In. exists d0. split; [assumption|].
  now apply first_occurrences_In.
Qed.

End CountFacts.

(** * Renumbering the columns *)

Module SortFeaturesFacts.
Import TfidfVectorizer Scorer CountFacts.
Local Open Scope list_scope.
Local Open Scope nat_scope.

Lemma insert_item_perm (x : string * nat) (l : list (string * nat)) :
  Permutation (insert_item x l) (x :: l).
Proof.
  induction l as [|y l IH]; simpl; [reflexivity|].
  destruct (String.leb (fst x) (fst y)); [reflexivity|].
  rewrite IH. apply perm_swap.
Qed.

Lemma sorted_items_perm (v : vocab) : Permutation (sorted_items v) v.
Proof.
  induction v as [|x v IH]; simpl; [reflexivity|].
  rewrite insert_item_perm. now constructor.
Qed.

(** *** The two stores the loop writes *)

Lemma renumber_loop_split (l : list (nat * (string * nat)))
      (v : vocab) (m : list nat) :
  fold_left
    (fun '(vocabulary, map_index) '(new_val, (term, old_val)) =>
       (vocabulary_setitem term new_val vocabulary,
        array_setitem old_val new_val map_index))
    l (v, m) =
  (fold_left set_vocabulary l v, fold_left set_map_index l m).
Proof.
  revert v m. induction l as [|[new [t o]] l IH]; intros v m; simpl.
  - reflexivity.
  - apply IH.
Qed.

Lemma enumerate_snoc {A : Type} (l : list A) (x : A) :
  enumerate (l ++ [x]) = enumerate l ++ [(length l, x)].
Proof.
  unfold enumerate.
  assert (G : forall s,
             combine (seq s (length (l ++ [x]))) (l ++ [x]) =
             combine (seq s (length l)) l ++ [(s + length l, x)]).
  { induction l as [|y l IH]; intros s; simpl.
    - now rewrite Nat.add_0_r.
    - rewrite IH.
      now replace (S s + length l) with (s + S (length l)) by lia. }
  apply G.
Qed.

Lemma lookup_setitem (t t' : string) (new : nat) (v : vocab) :
  lookup t' (vocabulary_setitem t new v) =
  if String.eqb t t' then Some new else lookup t' v.
Proof.
  induction v as [|[k idx] v IH]; simpl.
  - reflexivity.
  - destruct (String.eqb_spec k t) as [E|E]; simpl.
    + subst k. now destruct (String.eqb t t').
    + destruct (String.eqb_spec k t') as [E'|E'].
      * subst k. destruct (String.eqb_spec t t'); congruence.
      * exact IH.
Qed.

Lemma setitem_keys (t : string) (new : nat) (v : vocab) :
  In t (map fst v) ->
  map fst (vocabulary_setitem t new v) = map fst v.
Proof.
  induction v as [|[k idx] v IH]; simpl; [tauto|].
  intros H. destruct (String.eqb_spec k t) as [E|E]; simpl.
  - reflexivity.
  - f_equal. apply IH. destruct H; [contradiction | assumption].
Qed.

Lemma array_setitem_length (i x : nat) (a : list nat) :
  length (array_setitem i x a) = length a.
Proof.
  revert i. induction a as [|y a IH]; intros [|i]; simpl; auto.
Qed.

Lemma array_setitem_same (i x : nat) (a : list nat) :
  i < length a -> nth i (array_setitem i x a) 0 = x.
Proof.
  revert i. induction a as [|y a IH]; intros [|i] H; simpl in *;
    try lia. apply IH. lia.
Qed.

Lemma array_setitem_other (i j x : nat) (a : list nat) :
  i <> j -> nth j (array_setitem i x a) 0 = nth j a 0.
Proof.
  revert i j. induction a as [|y a IH]; intros [|i] [|j] H; simpl;
    try reflexivity; try congruence.
  apply IH. congruence.
Qed.

Lemma nodup_index_of (l : list string) (i : nat) (t : string) :
  NoDup l -> nth_error l i = Some t -> index_of t l = i.
Proof.
  revert i. induction l as [|k l IH]; intros [|i] Hnd H; simpl in *;
    try discriminate.
  - injection H as ->. now rewrite String.eqb_refl.
  - inversion Hnd as [|? ? Hk Hl]; subst.
    destruct (String.eqb_spec k t) as [E|E].
    + subst k. exfalso. apply Hk. now apply nth_error_In with i.
    + f_equal. now apply IH.
Qed.

(** After the loop, the dict sends each term to its place in the sorted
    list and keeps its keys in place. *)
Lemma set_vocabulary_loop (l : list (string * nat)) (v : vocab) :
  NoDup (map fst l) ->
  (forall t, In t (map fst l) -> In t (map fst v)) ->
  let v' := fold_left set_vocabulary (enumerate l) v in
  map fst v' = map fst v /\
  forall t, lookup t v' =
            if mem t (map fst l) then Some (index_of t (map fst l))
            else lookup t v.
Proof.
  induction l as [|[t o] l IH] using rev_ind; intros Hnd Hsub;
    [split; reflexivity|].
  cbv zeta in *. rewrite map_app in Hnd, Hsub. simpl in Hnd, Hsub.
  assert (Hnd' : NoDup (map fst l)) by (now apply NoDup_app_remove_r in Hnd).
  assert (Ht : ~ In t (map fst l)).
  { intros Hin. apply NoDup_remove_2 in Hnd. apply Hnd.
    rewrite app_nil_r. assumption. }
  destruct IH as [IHk IHl]; [assumption | |].
  { intros u Hu. apply Hsub, in_app_iff. now left. }
  rewrite enumerate_snoc, fold_left_app. cbn [fold_left].
  unfold set_vocabulary at 1. unfold set_vocabulary at 2. simpl fst. simpl snd.
  split.
  - rewrite setitem_keys; [assumption|].
    rewrite IHk. apply Hsub, in_app_iff. right. now left.
  - intros u. rewrite lookup_setitem, IHl, map_app. simpl map.
    destruct (String.eqb_spec t u) as [E|E].
    + subst u.
      replace (mem t (map fst l ++ [t])) with true
        by (symmetry; apply mem_In, in_app_iff; right; now left).
      rewrite index_of_app_notin by assumption. simpl.
      rewrite String.eqb_refl, length_map. f_equal. lia.
    + destruct (mem u (map fst l)) eqn:M.
      * replace (mem u (map fst l ++ [t])) with true
          by (symmetry; apply mem_In, in_app_iff; left; now apply mem_In).
        now rewrite index_of_app by (now apply mem_In).
      * replace (mem u (map fst l ++ [t])) with false; [reflexivity|].
        symmetry. apply mem_false. rewrite in_app_iff. simpl.
        apply mem_false in M. intuition congruence.
Qed.

(** After the loop, [map_index] sends the old column of each term to the
    place of the term in the sorted list. *)
Lemma set_map_index_loop (l : list (string * nat)) (m : list nat) :
  NoDup (map snd l) ->
  (forall o, In o (map snd l) -> o < length m) ->
  let m' := fold_left set_map_index (enumerate l) m in
  length m' = length m /\
  forall i t o, nth_error l i = Some (t, o) -> nth o m' 0 = i.
Proof.
  induction l as [|[t o] l IH] using rev_ind; intros Hnd Hlt.
  - split; [reflexivity|]. intros [|i] ? ? H; discriminate.
  - cbv zeta in *. rewrite map_app in Hnd, Hlt. simpl in Hnd, Hlt.
    assert (Hnd' : NoDup (map snd l)) by (now apply NoDup_app_remove_r in Hnd).
    assert (Ho : ~ In o (map snd l)).
    { intros Hin. apply NoDup_remove_2 in Hnd. apply Hnd.
      rewrite app_nil_r. assumption. }
    destruct IH as [IHn IHl]; [assumption | |].
    { intros u Hu. apply Hlt, in_app_iff. now left. }
    rewrite enumerate_snoc, fold_left_app. cbn [fold_left].
    unfold set_map_index at 1. unfold set_map_index at 2.
    simpl fst. simpl snd. split.
    + now rewrite array_setitem_length.
    + intros i t' o' H.
      destruct (Nat.lt_ge_cases i (length l)) as [Hi|Hi].
      * rewrite nth_error_app1 in H by assumption.
        rewrite array_setitem_other; [now apply IHl with t'|].
        intros ->. apply Ho.
        apply nth_error_In in H. now apply (in_map snd) in H.
      * rewrite nth_error_app2 in H by assumption.
        destruct (i - length l) as [|k] eqn:K; simpl in H;
          [|destruct k; discriminate].
        injection H as <- <-.
        rewrite array_setitem_same; [lia|].
        rewrite IHn. apply Hlt, in_app_iff. right. now left.
Qed.

Lemma lookup_In (t : string) (o : nat) (v : vocab) :
  lookup t v = Some o -> In (t, o) v.
Proof.
  induction v as [|[k idx] v IH]; simpl; [discriminate|].
  destruct (String.eqb_spec k t) as [E|E].
  - intros [= ->]. subst. now left.
  - intros H. right. now apply IH.
Qed.

(** A dict is given by its keys and the value of each key. *)
Lemma vocab_determined (v : vocab) (f : string -> nat) :
  NoDup (map fst v) ->
  (forall t, In t (map fst v) -> lookup t v = Some (f t)) ->
  v = map (fun t => (t, f t)) (map fst v).
Proof.
  induction v as [|[k idx] v IH]; simpl; intros Hnd H; [reflexivity|].
  inversion Hnd as [|? ? Hk Hv]; subst.
  pose proof (H k (or_introl eq_refl)) as Hkk.
  rewrite String.eqb_refl in Hkk. injection Hkk as ->.
  f_equal. apply IH; [assumption|].
  intros t Ht. specialize (H t (or_intror Ht)).
  destruct (String.eqb_spec k t) as [E|E]; [|assumption].
  subst. contradiction.
Qed.

Lemma numbered_values (keys : list string) :
  map snd (numbered keys) = seq 0 (length keys).
Proof.
  unfold numbered. generalize 0 as s.
  induction keys as [|k keys IH]; intros s; simpl; [reflexivity|].
  now rewrite IH.
Qed.

Section Renumbered.
Variable n : nat.
Variable docs : list string.

Let keys : list string := first_occurrences (grams n docs).
Let sorted : list (string * nat) := sorted_items (numbered keys).

Lemma sorted_terms_perm : Permutation (map fst sorted) keys.
Proof.
  subst sorted. rewrite <- (numbered_keys keys) at 2.
  apply Permutation_map, sorted_items_perm.
Qed.

Lemma sorted_terms_NoDup : NoDup (map fst sorted).
Proof.
  apply Permutation_NoDup with keys.
  - symmetry. apply sorted_terms_perm.
  - apply first_occurrences_NoDup.
Qed.

Lemma sorted_terms_In (t : string) :
  In t (map fst sorted) <-> In t (grams n docs).
Proof.
  split; intros H.
  - apply first_occurrences_In. fold keys.
    now apply (Permutation_in _ sorted_terms_perm).
  - apply first_occurrences_In in H. fold keys in H.
    now apply (Permutation_in _ (Permutation_sym sorted_terms_perm)).
Qed.

Lemma sorted_columns_perm :
  Permutation (map snd sorted) (seq 0 (length keys)).
Proof.
  subst sorted. rewrite <- numbered_values.
  apply Permutation_map, sorted_items_perm.
Qed.

(** Distinct n-grams of the corpus get distinct columns. *)
Lemma column_inj (a b : string) :
  In a (grams n docs) -> column n docs a = column n docs b -> a = b.
Proof.
  intros Ha E. apply index_of_inj with (map fst sorted); [|exact E].
  now apply sorted_terms_In.
Qed.

Lemma map_index_column (t : string) :
  In t (grams n docs) ->
  nth (index_of t keys)
      (fold_left set_map_index (enumerate sorted)
                 (repeat 0 (length sorted))) 0
  = column n docs t.
Proof.
  intros Ht.
  assert (Hk : In t keys) by (now apply first_occurrences_In).
  assert (Hin : In (t, index_of t keys) sorted).
  { apply Permutation_in with (numbered keys).
    - symmetry. apply sorted_items_perm.
    - apply lookup_In. rewrite lookup_numbered.
      apply mem_In in Hk. now rewrite Hk. }
  apply In_nth_error in Hin as [i Hi].
  destruct (set_map_index_loop sorted (repeat 0 (length sorted)))
    as [_ Hm].
  - apply Permutation_NoDup with (seq 0 (length keys)).
    + symmetry. apply sorted_columns_perm.
    + apply seq_NoDup.
  - intros o Ho. rewrite repeat_length.
    apply (Permutation_in _ sorted_columns_perm) in Ho.
    apply in_seq in Ho.
    rewrite <- (length_map fst sorted),
            (Permutation_length sorted_terms_perm). lia.
  - rewrite (Hm i t (index_of t keys) Hi).
    symmetry. apply nodup_index_of; [apply sorted_terms_NoDup|].
    apply (map_nth_error fst _ _ Hi).
Qed.

(** [_sort_features] on the dict and the rows [_count_vocab] built. *)
Theorem sort_features_spec :
  sort_features (map (counted (fun t => index_of t keys) n) docs)
                (numbered keys) =
  (map (fun t => (t, column n docs t)) keys,
   map (counted (column n docs) n) docs).
Proof.
  unfold sort_features. fold sorted.
  rewrite renumber_loop_split. cbv beta iota.
  apply pair_equal_spec. split.
  - destruct (set_vocabulary_loop sorted (numbered keys)) as [Hk Hl].
    + apply sorted_terms_NoDup.
    + intros t Ht. rewrite numbered_keys.
      now apply (Permutation_in _ sorted_terms_perm).
    + rewrite numbered_keys in Hk.
      set (v' := fold_left set_vocabulary _ _) in *.
      rewrite (vocab_determined v' (column n docs)).
      * now rewrite Hk.
      * rewrite Hk. apply first_occurrences_NoDup.
      * intros t Ht. rewrite Hk in Ht. rewrite Hl.
        replace (mem t (map fst sorted)) with true; [reflexivity|].
        symmetry. apply mem_In.
        apply Permutation_in with keys; [|assumption].
        symmetry. apply sorted_terms_perm.
  - rewrite map_map. apply map_ext_in. intros d Hd.
    unfold counted. rewrite map_map. apply map_ext_in. intros t Ht.
    f_equal. apply map_index_column.
    apply grams_In. exists d. split; [assumption|].
    now apply first_occurrences_In.
Qed.

End Renumbered.

(** [CountVectorizer.fit_transform]: a corpus without n-grams raises
    [ValueError]; any other corpus gives the dict of its distinct n-grams,
    in the order of their first occurrence, and one row for each
    document. *)
Theorem count_fit_transform_spec (n : nat) (docs : list string) :
  count_fit_transform n docs =
  match grams n docs with
  | [] => Raise ValueError
  | _ =>
      Ok (map (fun t => (t, column n docs t))
              (first_occurrences (grams n docs)),
          map (counted (column n docs) n) docs)
  end.
Proof.
  unfold count_fit_transform, count_vocab.
  rewrite count_documents_spec.
  destruct (grams n docs) as [|g gs] eqn:G; [reflexivity|].
  rewrite <- G.
  destruct (first_occurrences (grams n docs)) as [|k ks] eqn:K.
  - apply (proj1 (first_occurrences_nil _)) in K. congruence.
  - rewrite <- K. unfold numbered at 1. rewrite K at 1 2. simpl combine.
    cbv iota. unfold bind. rewrite sort_features_spec. reflexivity.
Qed.

End SortFeaturesFacts.

(** * The TF-IDF weights *)

Module TfidfFacts.
Import TfidfVectorizer Scorer CountFacts SortFeaturesFacts.
Local Open Scope list_scope.
Local Open Scope nat_scope.

Lemma Rsum_app (l1 l2 : list R) :
  Rsum (l1 ++ l2) = (Rsum l1 + Rsum l2)%R.
Proof.
  induction l1 as [|x l1 IH]; simpl; [lra | rewrite IH; lra].
Qed.

Lemma Rsum_perm (l1 l2 : list R) :
  Permutation l1 l2 -> Rsum l1 = Rsum l2.
Proof.
  induction 1 as [|x l l' _ IH|x y l|l l' l'' _ IH1 _ IH2]; simpl;
    [reflexivity | rewrite IH; reflexivity | lra | congruence].
Qed.

(** A sum of squares is zero only when each term is. *)
Lemma Rsum_squares_zero {A : Type} (f : A -> R) (l : list A) :
  Rsum (map (fun a => (f a * f a)%R) l) = 0%R ->
  forall a, In a l -> f a = 0%R.
Proof.
  assert (Hpos : forall l', (0 <= Rsum (map (fun a => f a * f a) l'))%R).
  { induction l' as [|x l' IH]; simpl; [lra|]. nra. }
  induction l as [|x l IH]; simpl; [tauto|].
  intros H a [<-|Ha].
  - specialize (Hpos l). nra.
  - apply IH; [|assumption]. specialize (Hpos l). nra.
Qed.

Lemma document_frequency_rows (X : list counter) (j : nat) :
  document_frequency X j =
  list_sum (map (fun r => length (filter (fun e => fst e =? j) r)) X).
Proof.
  unfold document_frequency.
  induction X as [|r X IH]; simpl; [reflexivity|].
  now rewrite filter_app, length_app, IH.
Qed.

Lemma column_sum_rows (bag : list row) (j : nat) :
  column_sum bag j =
  Rsum (map (fun r => Rsum (map snd (filter (fun e => fst e =? j) r))) bag).
Proof.
  unfold column_sum.
  induction bag as [|r bag IH]; simpl; [reflexivity|].
  now rewrite filter_app, map_app, Rsum_app, IH.
Qed.

Lemma DF_sum (n : nat) (docs : list string) (g : string) :
  DF n docs g =
  list_sum (map (fun d => if 0 <? TF n g d then 1 else 0) docs).
Proof.
  unfold DF. induction docs as [|d docs IH]; [reflexivity|].
  cbn [filter map]. unfold list_sum in *. cbn [fold_right].
  destruct (0 <? TF n g d); cbn [length]; rewrite IH; reflexivity.
Qed.

Lemma TF_positive (n : nat) (g d : string) :
  (0 <? TF n g d) = mem g (first_occurrences (analyze n d)).
Proof.
  unfold TF. destruct (mem g (first_occurrences (analyze n d))) eqn:M.
  - apply (proj1 (mem_In _ _)) in M.
    apply (proj1 (first_occurrences_In _ _)) in M.
    apply Nat.ltb_lt. now apply (proj1 (count_occ_In string_dec _ _)).
  - apply (proj1 (mem_false _ _)) in M.
    rewrite first_occurrences_In in M.
    apply Nat.ltb_ge.
    apply (proj1 (count_occ_not_In string_dec _ _)) in M. lia.
Qed.

(** The entries of column [ix g] in a row laid out along distinct terms. *)
Lemma filter_column {V : Type} (ix : string -> nat) (v : string -> V)
      (g : string) (l : list string) :
  NoDup l ->
  (forall t, In t l -> ix t = ix g -> t = g) ->
  filter (fun e => fst e =? ix g) (map (fun t => (ix t, v t)) l) =
  if mem g l then [(ix g, v g)] else [].
Proof.
  intros Hnd Hinj. induction l as [|t l IH]; [reflexivity|].
  inversion Hnd as [|? ? Ht Hl]; subst. simpl.
  assert (IH' := IH Hl (fun u Hu => Hinj u (or_intror Hu))). clear IH.
  destruct (Nat.eqb_spec (ix t) (ix g)) as [E|E].
  - assert (t = g) by (apply Hinj; [now left | assumption]). subst t.
    unfold mem. simpl. rewrite String.eqb_refl. simpl.
    rewrite IH'. apply mem_false in Ht. now rewrite Ht.
  - assert (t <> g) by congruence.
    unfold mem in *. simpl.
    destruct (String.eqb_spec g t); [congruence|]. exact IH'.
Qed.

Section Indexed.
Variable n : nat.
Variable docs : list string.
Variable ix : string -> nat.
Hypothesis ix_inj :
  forall a b, In a (grams n docs) -> ix a = ix b -> a = b.

Let X : list counter := map (counted ix n) docs.

Lemma row_terms (d t : string) :
  In d docs -> In t (first_occurrences (analyze n d)) ->
  In t (grams n docs).
Proof.
  intros Hd Ht. apply grams_In. exists d. split; [assumption|].
  now apply first_occurrences_In.
Qed.

(** [np.bincount] on the stored columns counts the documents that hold
    the n-gram. *)
Lemma document_frequency_DF (g : string) :
  document_frequency X (ix g) = DF n docs g.
Proof using ix_inj.
  rewrite document_frequency_rows, DF_sum. subst X. rewrite map_map.
  f_equal. apply map_ext_in. intros d Hd. unfold counted.
  rewrite filter_column.
  - rewrite TF_positive.
    now destruct (mem g (first_occurrences (analyze n d))).
  - apply first_occurrences_NoDup.
  - intros t Ht. apply ix_inj. now apply row_terms with d.
Qed.

Lemma idf_IDF (g : string) : idf X (ix g) = IDF n docs g.
Proof using ix_inj.
  unfold idf, IDF. rewrite document_frequency_DF.
  subst X. now rewrite length_map.
Qed.

Lemma scale_row_tfidf (d : string) :
  scale_row X (counted ix n d) =
  map (fun t => (ix t, tfidf n docs t d))
      (first_occurrences (analyze n d)).
Proof using ix_inj.
  unfold scale_row, counted. rewrite map_map.
  apply map_ext. intros t. now rewrite idf_IDF.
Qed.

Lemma row_squares (d : string) :
  Rsum (map (fun e : nat * R => (snd e * snd e)%R)
            (scale_row X (counted ix n d))) =
  squares n docs d.
Proof using ix_inj.
  rewrite scale_row_tfidf, map_map. simpl. unfold squares.
  apply Rsum_perm, Permutation_map, NoDup_Permutation.
  - apply first_occurrences_NoDup.
  - apply NoDup_nodup.
  - intros t. now rewrite first_occurrences_In, nodup_In.
Qed.

Lemma squares_zero (d t : string) :
  squares n docs d = 0%R -> In t (analyze n d) ->
  tfidf n docs t d = 0%R.
Proof.
  unfold squares. intros H Ht.
  apply (Rsum_squares_zero (fun g => tfidf n docs g d) _ H).
  now apply nodup_In.
Qed.

(** The row of a document after scaling and normalization. *)
Lemma normalize_row_l2 (d : string) :
  normalize_row (scale_row X (counted ix n d)) =
  map (fun t => (ix t, l2_tfidf n docs t d))
      (first_occurrences (analyze n d)).
Proof using ix_inj.
  unfold normalize_row. rewrite row_squares, scale_row_tfidf.
  unfold l2_tfidf.
  destruct (Req_dec_T (squares n docs d) 0) as [Z|NZ].
  - apply map_ext_in. intros t Ht. f_equal.
    apply squares_zero; [assumption|].
    now apply first_occurrences_In.
  - now rewrite map_map.
Qed.

Lemma l2_tfidf_absent (g d : string) :
  ~ In g (analyze n d) -> l2_tfidf n docs g d = 0%R.
Proof.
  intros H. unfold l2_tfidf, tfidf, TF.
  rewrite (count_occ_not_In string_dec) in H. rewrite H. simpl.
  destruct (Req_dec_T (squares n docs d) 0); [reflexivity|].
  unfold Rdiv. now rewrite !Rmult_0_l.
Qed.

(** The column sum of an n-gram is its weight. *)
Lemma column_sum_l2_weight (g : string) :
  column_sum (tfidf_transform X) (ix g) = l2_weight n docs g.
Proof using ix_inj.
  assert (E : tfidf_transform X =
              map (fun d => normalize_row (scale_row X (counted ix n d)))
                  docs)
    by (unfold tfidf_transform, X; now rewrite map_map).
  rewrite column_sum_rows, E. unfold l2_weight.
  rewrite map_map. f_equal.
  apply map_ext_in. intros d Hd.
  rewrite normalize_row_l2, filter_column.
  - destruct (mem g (first_occurrences (analyze n d))) eqn:M; simpl.
    + lra.
    + apply mem_false in M. rewrite first_occurrences_In in M.
      now rewrite l2_tfidf_absent.
  - apply first_occurrences_NoDup.
  - intros t Ht. apply ix_inj. now apply row_terms with d.
Qed.

End Indexed.

(** [get_top_ngrams] computes the ranking of the closed form. *)
Theorem get_top_ngrams_ranking (docs : list string) (n : nat) :
  get_top_ngrams docs n = ranking n docs.
Proof.
  unfold get_top_ngrams, fit_transform, ranking.
  rewrite count_fit_transform_spec.
  destruct (grams n docs) as [|g0 gs] eqn:G; [reflexivity|].
  rewrite <- G. cbv beta iota delta [bind]. do 3 f_equal.
  rewrite map_map. apply map_ext. intros g. f_equal.
  apply column_sum_l2_weight. apply column_inj.
Qed.

End TfidfFacts.

(** * Ranking *)

Module RankFacts.
Import TfidfVectorizer Scorer CountFacts SortFeaturesFacts TfidfFacts.
Local Open Scope list_scope.
Local Open Scope nat_scope.

Lemma insert_by_weight_perm (x : string * R) (l : list (string * R)) :
  Permutation (insert_by_weight x l) (x :: l).
Proof.
  induction l as [|y l IH]; simpl; [reflexivity|].
  destruct (Rlt_dec (snd x) (snd y)); [|reflexivity].
  rewrite IH. apply perm_swap.
Qed.

Lemma sorted_by_weight_perm (l : list (string * R)) :
  Permutation (sorted_by_weight l) l.
Proof.
  induction l as [|x l IH]; simpl; [reflexivity|].
  rewrite insert_by_weight_perm. now constructor.
Qed.

Lemma insert_by_weight_sorted (x : string * R) (l : list (string * R)) :
  non_increasing l -> non_increasing (insert_by_weight x l).
Proof.
  unfold non_increasing. induction 1 as [|y l Hl IH Hy]; simpl.
  - constructor; constructor.
  - destruct (Rlt_dec (snd x) (snd y)) as [L|L].
    + constructor; [assumption|].
      apply (Permutation_Forall (Permutation_sym (insert_by_weight_perm x l))).
      constructor; [lra | assumption].
    + constructor; [now constructor|].
      constructor; [lra|].
      apply Forall_impl with (2 := Hy). intros z Hz. lra.
Qed.

Lemma sorted_by_weight_sorted (l : list (string * R)) :
  non_increasing (sorted_by_weight l).
Proof.
  induction l as [|x l IH]; simpl; [constructor|].
  now apply insert_by_weight_sorted.
Qed.

Lemma firstn_incl {A : Type} (k : nat) (l : list A) (x : A) :
  In x (firstn k l) -> In x l.
Proof.
  intros H. rewrite <- (firstn_skipn k l). apply in_app_iff. now left.
Qed.

Lemma firstn_sorted (k : nat) (l : list (string * R)) :
  non_increasing l -> non_increasing (firstn k l).
Proof.
  unfold non_increasing. intros H. revert k.
  induction H as [|y l Hl IH Hy]; intros [|k]; simpl; try constructor.
  - apply IH.
  - apply Forall_forall. intros z Hz.
    apply (proj1 (Forall_forall _ _) Hy). now apply (firstn_incl k l).
Qed.

(** *** The n-grams of a document *)

Lemma range_one (a : nat) : range a (a + 1) = [a].
Proof. unfold range. now replace (a + 1 - a) with 1 by lia. Qed.

Lemma range_none (a b : nat) : b <= a -> range a b = [].
Proof. unfold range. intros H. now replace (b - a) with 0 by lia. Qed.

(** Fewer tokens than the gram size: no n-gram. *)
Lemma analyze_short (n : nat) (d : string) :
  length (tokenize d) < n -> analyze n d = [].
Proof.
  unfold analyze, word_ngrams. intros H.
  destruct (Nat.eqb_spec n 1) as [E|E].
  - subst. destruct (tokenize d); [reflexivity | simpl in H; lia].
  - cbv beta iota. rewrite range_none; [reflexivity|]. lia.
Qed.

(** As many tokens as the gram size, or more: some n-gram. *)
Lemma analyze_long (n : nat) (d : string) :
  1 <= n -> n <= length (tokenize d) -> analyze n d <> [].
Proof.
  unfold analyze, word_ngrams. intros H1 H.
  destruct (Nat.eqb_spec n 1) as [E|E].
  - subst. destruct (tokenize d); [simpl in H; lia | discriminate].
  - cbv beta iota.
    replace (Nat.min (n + 1) (length (tokenize d) + 1)) with (n + 1) by lia.
    rewrite range_one. simpl. rewrite app_nil_r. unfold range.
    replace (length (tokenize d) - n + 1 - 0)
      with (S (length (tokenize d) - n)) by lia.
    discriminate.
Qed.

Lemma unigram_windows (tokens : list string) :
  map (fun i => PyStr.join " " (slice tokens i (i + 1)))
      (seq 0 (length tokens)) = tokens.
Proof.
  induction tokens as [|t ts IH]; [reflexivity|].
  cbn [length seq map]. f_equal.
  rewrite <- seq_shift, map_map. rewrite <- IH at 2.
  apply map_ext. intros i. unfold slice.
  replace (S i + 1 - S i) with (i + 1 - i) by lia. reflexivity.
Qed.

(** The n-grams of a document are its windows of [n] consecutive tokens,
    left to right, each joined by single spaces. *)
Lemma analyze_windows (n : nat) (d : string) :
  1 <= n ->
  analyze n d =
  map (fun i => PyStr.join " " (slice (tokenize d) i (i + n)))
      (range 0 (length (tokenize d) + 1 - n)).
Proof.
  intros Hn. unfold analyze, word_ngrams.
  destruct (Nat.eqb_spec n 1) as [E|E].
  - subst n. unfold range.
    replace (length (tokenize d) + 1 - 1 - 0) with (length (tokenize d))
      by lia.
    symmetry. apply unigram_windows.
  - cbv beta iota.
    destruct (Nat.le_gt_cases n (length (tokenize d))) as [L|L].
    + replace (Nat.min (n + 1) (length (tokenize d) + 1)) with (n + 1) by lia.
      rewrite range_one. cbn [flat_map app]. rewrite app_nil_r.
      now replace (length (tokenize d) - n + 1)
        with (length (tokenize d) + 1 - n) by lia.
    + rewrite range_none by lia.
      rewrite (range_none 0 (length (tokenize d) + 1 - n)) by lia.
      reflexivity.
Qed.

Lemma grams_nil (n : nat) (docs : list string) :
  (forall d, In d docs -> analyze n d = []) -> grams n docs = [].
Proof.
  unfold grams. induction docs as [|d docs IH]; intros H; simpl.
  - reflexivity.
  - rewrite (H d) by now left. apply IH. intros d' Hd'. apply H. now right.
Qed.

Lemma grams_short (n : nat) (docs : list string) :
  (forall d, In d docs -> length (tokenize d) < n) -> grams n docs = [].
Proof.
  intros H. apply grams_nil. intros d Hd. now apply analyze_short, H.
Qed.

Lemma grams_long (n : nat) (docs : list string) (d : string) :
  1 <= n -> In d docs -> n <= length (tokenize d) -> grams n docs <> [].
Proof.
  intros H1 Hd Hn E.
  destruct (analyze n d) as [|g gs] eqn:A.
  - now apply (analyze_long n d).
  - assert (Hg : In g (grams n docs)).
    { apply grams_In. exists d. split; [assumption|]. rewrite A. now left. }
    rewrite E in Hg. destruct Hg.
Qed.

(** *** The ranked list *)

Lemma ranking_raises (n : nat) (docs : list string) :
  grams n docs = [] -> get_top_ngrams docs n = Raise ValueError.
Proof.
  intros H. rewrite get_top_ngrams_ranking. unfold ranking. now rewrite H.
Qed.

Lemma ranking_returns (n : nat) (docs : list string) :
  grams n docs <> [] ->
  get_top_ngrams docs n =
  Ok (firstn 10
        (sorted_by_weight
           (map (fun g => (g, l2_weight n docs g))
                (first_occurrences (grams n docs))))).
Proof.
  intros H. rewrite get_top_ngrams_ranking. unfold ranking.
  now destruct (grams n docs).
Qed.

Lemma ranking_inv (n : nat) (docs : list string)
      (result : list (string * R)) :
  get_top_ngrams docs n = Ok result ->
  result =
  firstn 10
    (sorted_by_weight
       (map (fun g => (g, l2_weight n docs g))
            (first_occurrences (grams n docs)))).
Proof.
  rewrite get_top_ngrams_ranking. unfold ranking.
  destruct (grams n docs); [discriminate|]. now intros [= <-].
Qed.

(** Every entry of the ranked list is an n-gram of the corpus with its
    weight. *)
Lemma ranked_entry (n : nat) (docs : list string)
      (result : list (string * R)) (g : string) (w : R) :
  get_top_ngrams docs n = Ok result -> In (g, w) result ->
  In g (grams n docs) /\ w = l2_weight n docs g.
Proof.
  intros H Hin. apply ranking_inv in H. subst result.
  apply firstn_incl in Hin.
  apply (Permutation_in _ (sorted_by_weight_perm _)) in Hin.
  apply in_map_iff in Hin as [t [[= <- <-] Ht]].
  split; [|reflexivity]. now apply first_occurrences_In.
Qed.

Lemma ranked_length (n : nat) (docs : list string)
      (result : list (string * R)) :
  get_top_ngrams docs n = Ok result ->
  length result = Nat.min 10 (length (nodup string_dec (grams n docs))).
Proof.
  intros H. apply ranking_inv in H. subst result.
  rewrite length_firstn.
  rewrite (Permutation_length (sorted_by_weight_perm _)).
  now rewrite length_map, first_occurrences_length.
Qed.

Lemma ranked_sorted (n : nat) (docs : list string)
      (result : list (string * R)) :
  get_top_ngrams docs n = Ok result -> non_increasing result.
Proof.
  intros H. apply ranking_inv in H. subst result.
  apply firstn_sorted, sorted_by_weight_sorted.
Qed.

(** No file at all: no record, and the vectorizer's error. *)
Lemma no_files_raise (log_handler : LogHandlerInterface) (n : nat) :
  analyze_log_files log_handler [] n = Raise ValueError.
Proof.
  unfold analyze_log_files. cbn [extend_records bind].
  now apply ranking_raises.
Qed.

(** *** Document frequencies *)

Lemma DF_le (n : nat) (docs : list string) (g : string) :
  DF n docs g <= length docs.
Proof. unfold DF. apply filter_length_le. Qed.

Lemma DF_positive (n : nat) (docs : list string) (g : string) :
  In g (grams n docs) -> 1 <= DF n docs g.
Proof.
  intros H. apply grams_In in H as [d [Hd Hg]].
  unfold DF.
  assert (Hin : In d (filter (fun d => 0 <? TF n g d) docs)).
  { apply filter_In. split; [assumption|].
    rewrite TF_positive. apply mem_In. now apply first_occurrences_In. }
  destruct (filter (fun d => 0 <? TF n g d) docs); [destruct Hin | simpl; lia].
Qed.

(** The document frequency counts presence: a document counts once,
    however often it holds the n-gram. *)
Lemma DF_presence (n : nat) (docs : list string) (g : string) :
  DF n docs g =
  length (filter (fun d => existsb (String.eqb g) (analyze n d)) docs).
Proof.
  unfold DF. f_equal. apply filter_ext. intros d.
  rewrite TF_positive. unfold mem.
  destruct (existsb (String.eqb g) (analyze n d)) eqn:E.
  - apply existsb_exists. apply existsb_exists in E as [x [Hx Ex]].
    exists x. split; [now apply first_occurrences_In | assumption].
  - destruct (existsb (String.eqb g) (first_occurrences (analyze n d))) eqn:E';
      [|reflexivity].
    apply existsb_exists in E' as [x [Hx Ex]].
    rewrite <- E. symmetry. apply existsb_exists.
    exists x. split; [now apply first_occurrences_In | assumption].
Qed.

(** The column of a term in the dict that holds the terms [keys]. *)
Lemma lookup_column (f : string -> nat) (keys : list string) (g : string) :
  In g keys -> lookup g (map (fun t => (t, f t)) keys) = Some (f g).
Proof.
  induction keys as [|k keys IH]; simpl; [tauto|].
  intros Hin. destruct (String.eqb_spec k g) as [E|E]; [now subst|].
  apply IH. destruct Hin; [contradiction | assumption].
Qed.

End RankFacts.

(** * Bounds on logarithms *)

Module RealBounds.
Local Open Scope R_scope.

Lemma ln_le (x y : R) : 0 < x -> x <= y -> ln x <= ln y.
Proof.
  intros Hx [H| ->]; [left; now apply ln_increasing | right; reflexivity].
Qed.

Lemma ln_le_minus_1 (x : R) : 0 < x -> ln x <= x - 1.
Proof.
  intros Hx. pose proof (exp_ineq1_le (ln x)) as H.
  rewrite exp_ln in H by assumption. lra.
Qed.

Lemma ln_ge_inv (x : R) : 0 < x -> 1 - / x <= ln x.
Proof.
  intros Hx. pose proof (ln_le_minus_1 (/ x) (Rinv_0_lt_compat _ Hx)) as H.
  rewrite ln_Rinv in H by assumption. lra.
Qed.

(** [r ^ k <= x] bounds [ln x] from below, [x <= s ^ k] from above. *)
Lemma ln_lower_pow (x r : R) (k : nat) :
  0 < r -> r ^ k <= x -> INR k * (1 - / r) <= ln x.
Proof.
  intros Hr H.
  apply Rle_trans with (ln (r ^ k)).
  - rewrite ln_pow by assumption.
    apply Rmult_le_compat_l; [apply pos_INR | now apply ln_ge_inv].
  - apply ln_le; [now apply pow_lt | assumption].
Qed.

Lemma ln_upper_pow (x s : R) (k : nat) :
  0 < x -> 0 < s -> x <= s ^ k -> ln x <= INR k * (s - 1).
Proof.
  intros Hx Hs H.
  apply Rle_trans with (ln (s ^ k)).
  - now apply ln_le.
  - rewrite ln_pow by assumption.
    apply Rmult_le_compat_l; [apply pos_INR | now apply ln_le_minus_1].
Qed.

Lemma ln_3_2_bounds : 0.40 <= ln (3 / 2) <= 0.41.
Proof.
  split.
  - apply Rle_trans with (INR 32 * (1 - / 1.0127)).
    + rewrite INR_IZR_INZ. simpl Z.of_nat. lra.
    + apply ln_lower_pow; lra.
  - apply Rle_trans with (INR 32 * (1.0128 - 1)).
    + apply ln_upper_pow; lra.
    + rewrite INR_IZR_INZ. simpl Z.of_nat. lra.
Qed.

Lemma ln_3_bounds : 1.09 <= ln 3 <= 1.11.
Proof.
  split.
  - apply Rle_trans with (INR 128 * (1 - / 1.0086)).
    + rewrite INR_IZR_INZ. simpl Z.of_nat. lra.
    + apply ln_lower_pow; lra.
  - apply Rle_trans with (INR 64 * (1.01734 - 1)).
    + apply ln_upper_pow; lra.
    + rewrite INR_IZR_INZ. simpl Z.of_nat. lra.
Qed.

(** A quotient by a square root, between two slopes. *)
Lemma div_sqrt_bounds (x s lo hi : R) :
  0 < x -> 0 < s -> 0 < lo -> 0 < hi ->
  lo * lo * s < x * x -> x * x < hi * hi * s ->
  lo < x / sqrt s < hi.
Proof.
  intros Hx Hs Hlo Hhi H1 H2.
  pose proof (sqrt_lt_R0 s Hs) as Hq.
  pose proof (sqrt_sqrt s (Rlt_le _ _ Hs)) as Hqq.
  assert (A : lo * sqrt s < x).
  { destruct (Rlt_le_dec (lo * sqrt s) x) as [|C]; [assumption | exfalso].
    assert (E : x * x <= (lo * sqrt s) * (lo * sqrt s))
      by (apply Rmult_le_compat; lra).
    replace ((lo * sqrt s) * (lo * sqrt s))
      with (lo * lo * (sqrt s * sqrt s)) in E by ring.
    rewrite Hqq in E. lra. }
  assert (B : x < hi * sqrt s).
  { destruct (Rlt_le_dec x (hi * sqrt s)) as [|C]; [assumption | exfalso].
    assert (E : (hi * sqrt s) * (hi * sqrt s) <= x * x).
    { apply Rmult_le_compat; try lra;
        apply Rmult_le_pos; lra. }
    replace ((hi * sqrt s) * (hi * sqrt s))
      with (hi * hi * (sqrt s * sqrt s)) in E by ring.
    rewrite Hqq in E. lra. }
  split.
  - apply Rmult_lt_reg_r with (sqrt s); [assumption|].
    unfold Rdiv. rewrite Rmult_assoc, Rinv_l by lra. lra.
  - apply Rmult_lt_reg_r with (sqrt s); [assumption|].
    unfold Rdiv. rewrite Rmult_assoc, Rinv_l by lra. lra.
Qed.

End RealBounds.

(** * The scorer *)

Import TfidfVectorizer Scorer CountFacts SortFeaturesFacts TfidfFacts RankFacts.

(** The counts of a given corpus, by computation. *)
Ltac eval_counts :=
  repeat match goal with
         | |- context [TF ?n ?g ?d] =>
             let v := eval vm_compute in (TF n g d) in
             change (TF n g d) with v
         | |- context [DF ?n ?docs ?g] =>
             let v := eval vm_compute in (DF n docs g) in
             change (DF n docs g) with v
         end.

Module RepeatedToken.
Local Open Scope R_scope.

Lemma repeated_IDF_a : IDF 1 corpus_repeated "a" = 1.
Proof.
  unfold IDF. eval_counts. simpl.
  replace (1 / 1) with 1 by lra. rewrite ln_1. lra.
Qed.

Lemma repeated_squares : squares 1 corpus_repeated "a a" = 4.
Proof.
  unfold squares.
  change (nodup string_dec (analyze 1 "a a")) with ["a"].
  cbn [map Rsum fold_right].
  unfold tfidf. rewrite repeated_IDF_a. eval_counts. simpl. lra.
Qed.

Lemma repeated_weights :
  l2_weight 1 corpus_repeated "a" = 1 /\
  raw_weight 1 corpus_repeated "a" = 2.
Proof.
  unfold l2_weight, raw_weight, l2_tfidf, corpus_repeated.
  cbn [map Rsum fold_right]. fold corpus_repeated.
  rewrite repeated_squares. unfold tfidf. rewrite repeated_IDF_a. eval_counts. simpl INR.
  destruct (Req_dec_T 4 0) as [E|E]; [lra|].
  replace 4 with (2 * 2) by lra. rewrite sqrt_square by lra.
  split; lra.
Qed.

(** The record ["a a"] gives the weight 1 to [a]: TF is 2, IDF is 1, and
    the row [(2)] is divided by its norm 2. *)
Lemma repeated_top : get_top_ngrams corpus_repeated 1 = Ok [("a", 1)].
Proof.
  rewrite ranking_returns by discriminate.
  change (first_occurrences (grams 1 corpus_repeated)) with ["a"].
  cbn [map sorted_by_weight fold_right insert_by_weight firstn].
  now rewrite (proj1 repeated_weights).
Qed.

End RepeatedToken.

(** C1, as the code has it. The weight the scorer reports for an n-gram is
    the sum over the documents of TF x IDF divided by the Euclidean norm of
    the document's TF-IDF row: the vectorizer's L2 normalization is on. *)
Theorem reported_weight_l2 (docs : list string) (n : nat)
        (result : list (string * R)) (g : string) (w : R) :
  get_top_ngrams docs n = Ok result ->
  In (g, w) result ->
  In g (grams n docs) /\
  w = Rsum (map (fun d =>
                   if Req_dec_T (squares n docs d) 0 then 0%R
                   else (INR (TF n g d) * IDF n docs g
                         / sqrt (squares n docs d))%R)
                docs).
Proof.
  intros H Hin.
  destruct (ranked_entry n docs result g w H Hin) as [Hg ->].
  split; [exact Hg | reflexivity].
Qed.

Lemma reported_weight_l2_witness :
  In "a" (grams 1 corpus_repeated) /\
  1%R = Rsum (map (fun d =>
                     if Req_dec_T (squares 1 corpus_repeated d) 0 then 0%R
                     else (INR (TF 1 "a" d) * IDF 1 corpus_repeated "a"
                           / sqrt (squares 1 corpus_repeated d))%R)
                  corpus_repeated).
Proof.
  apply (reported_weight_l2 corpus_repeated 1 [("a", 1%R)] "a" 1%R).
  - exact RepeatedToken.repeated_top.
  - now left.
Defined.

(** C1 as stated fails: on the record ["a a"] the raw sum of TF x IDF for
    [a] is 2 and the reported weight is 1. *)
Lemma raw_sum_counterexample :
  ~ (forall (docs : list string) (n : nat) (result : list (string * R))
            (g : string) (w : R),
        1 <= n ->
        get_top_ngrams docs n = Ok result ->
        In (g, w) result ->
        w = raw_weight n docs g).
Proof.
  intros H.
  specialize (H corpus_repeated 1 [("a", 1%R)] "a" 1%R (le_n 1)
                RepeatedToken.repeated_top (or_introl eq_refl)).
  rewrite (proj2 RepeatedToken.repeated_weights) in H. lra.
Qed.

(** C3, as the code has it. On an empty corpus, and on a corpus whose
    records all have fewer than [n] tokens, the scorer raises the
    vectorizer's [ValueError] for an empty vocabulary; it returns no list. *)
Theorem empty_vocabulary_raises (docs : list string) (n : nat) :
  docs = [] \/ (forall d, In d docs -> length (tokenize d) < n) ->
  get_top_ngrams docs n = Raise ValueError.
Proof.
  intros H. apply ranking_raises, grams_short.
  destruct H as [-> | H]; [intros d [] | exact H].
Qed.

Lemma empty_vocabulary_raises_witness :
  get_top_ngrams [] 1 = Raise ValueError /\
  get_top_ngrams corpus_notice 5 = Raise ValueError.
Proof.
  split.
  - apply (empty_vocabulary_raises [] 1). left. reflexivity.
  - apply (empty_vocabulary_raises corpus_notice 5). right.
    intros d [<-|[]]. vm_compute. lia.
Defined.

(** C3 as stated fails: the empty corpus gives no empty list. *)
Lemma empty_result_counterexample :
  ~ (forall (docs : list string) (n : nat),
        docs = [] \/ (forall d, In d docs -> length (tokenize d) < n) ->
        get_top_ngrams docs n = Ok []).
Proof.
  intros H. specialize (H [] 1 (or_introl eq_refl)).
  rewrite ranking_raises in H by reflexivity. discriminate.
Qed.

(** C4. For an n-gram [g] of the corpus the column of [g] has the document
    frequency [df], the number of documents that hold [g] at least once,
    however often; the IDF the vectorizer scales the column by is
    [ln (D / df) + 1] with [D] the number of documents, which is not the
    smoothed [ln ((D + 1) / (df + 1)) + 1] unless every document holds [g],
    and then it is 1. The scorer returns a list that is not empty, and every
    weight in it is the sum over the documents of TF times this IDF, divided
    by the norm of the document's row; with ten distinct n-grams or fewer,
    [g] is in the list with that weight. *)
Theorem idf_unsmoothed (docs : list string) (n : nat) (g : string) :
  In g (grams n docs) ->
  exists (vocabulary_ : vocab) (X : list counter) (j : nat)
         (result : list (string * R)),
    count_fit_transform n docs = Ok (vocabulary_, X) /\
    lookup g vocabulary_ = Some j /\
    DF n docs g =
      length (filter (fun d => existsb (String.eqb g) (analyze n d)) docs) /\
    document_frequency X j = DF n docs g /\
    1 <= DF n docs g <= length docs /\
    idf X j = (ln (INR (length docs) / INR (DF n docs g)) + 1)%R /\
    (DF n docs g < length docs ->
     idf X j <>
     (ln ((INR (length docs) + 1) / (INR (DF n docs g) + 1)) + 1)%R) /\
    ((forall d, In d docs -> In g (analyze n d)) -> idf X j = 1%R) /\
    get_top_ngrams docs n = Ok result /\
    result <> [] /\
    (forall h w,
        In (h, w) result ->
        w = Rsum (map (fun d =>
                         if Req_dec_T (squares n docs d) 0 then 0%R
                         else (INR (TF n h d)
                               * (ln (INR (length docs) / INR (DF n docs h)) + 1)
                               / sqrt (squares n docs d))%R)
                      docs)) /\
    (length (nodup string_dec (grams n docs)) <= 10 ->
     exists w, In (g, w) result).
Proof.
  intros Hg.
  assert (G : grams n docs <> []) by (intros E; rewrite E in Hg; destruct Hg).
  pose proof (DF_positive n docs g Hg) as Hdf1.
  pose proof (DF_le n docs g) as Hdf2.
  assert (Hidf : idf (map (counted (column n docs) n) docs) (column n docs g)
                 = IDF n docs g)
    by (apply idf_IDF, column_inj).
  assert (Hdocs : (0 < INR (length docs))%R) by (apply lt_0_INR; lia).
  assert (Hpos : (0 < INR (DF n docs g))%R) by (apply lt_0_INR; lia).
  pose proof (ranking_returns n docs G) as Htop.
  exists (map (fun t => (t, column n docs t))
              (first_occurrences (grams n docs))),
         (map (counted (column n docs) n) docs),
         (column n docs g).
  eexists. repeat split.
  - rewrite count_fit_transform_spec.
    destruct (grams n docs); [contradiction | reflexivity].
  - apply lookup_column. now apply first_occurrences_In.
  - apply DF_presence.
  - apply document_frequency_DF, column_inj.
  - exact Hdf1.
  - exact Hdf2.
  - exact Hidf.
  - intros Hlt. rewrite Hidf. unfold IDF. intros E.
    assert (Hlt' : (INR (DF n docs g) < INR (length docs))%R)
      by now apply lt_INR.
    assert (E' : (INR (length docs) / INR (DF n docs g) =
                  (INR (length docs) + 1) / (INR (DF n docs g) + 1))%R).
    { apply ln_inv.
      - apply Rdiv_lt_0_compat; lra.
      - apply Rdiv_lt_0_compat; lra.
      - lra. }
    apply (f_equal (fun x => (x * INR (DF n docs g)
                              * (INR (DF n docs g) + 1))%R)) in E'.
    field_simplify in E'; lra.
  - intros Hall. rewrite Hidf. unfold IDF.
    assert (Hdf : DF n docs g = length docs).
    { unfold DF. rewrite forallb_filter_id; [reflexivity|].
      apply forallb_forall. intros d Hd. rewrite TF_positive.
      apply mem_In, first_occurrences_In. now apply Hall. }
    rewrite Hdf. unfold Rdiv. rewrite Rinv_r by lra. rewrite ln_1. lra.
  - exact Htop.
  - intros E. pose proof (ranked_length n docs _ Htop) as L.
    rewrite E in L. simpl in L.
    assert (Hin : In g (nodup string_dec (grams n docs)))
      by now apply nodup_In.
    destruct (nodup string_dec (grams n docs)); [destruct Hin|].
    simpl in L. lia.
  - intros h w Hin.
    now destruct (ranked_entry n docs _ h w Htop Hin) as [_ ->].
  - intros Hten. exists (l2_weight n docs g).
    rewrite firstn_all2.
    + apply (Permutation_in _ (Permutation_sym (sorted_by_weight_perm _))).
      apply in_map_iff. exists g. split; [reflexivity|].
      now apply first_occurrences_In.
    + rewrite (Permutation_length (sorted_by_weight_perm _)).
      now rewrite length_map, first_occurrences_length.
Qed.

Lemma idf_unsmoothed_witness :
  exists (vocabulary_ : vocab) (X : list counter) (j : nat)
         (result : list (string * R)),
    count_fit_transform 1 corpus_scenario = Ok (vocabulary_, X) /\
    lookup "b" vocabulary_ = Some j /\
    DF 1 corpus_scenario "b" =
      length (filter (fun d => existsb (String.eqb "b") (analyze 1 d))
                     corpus_scenario) /\
    document_frequency X j = DF 1 corpus_scenario "b" /\
    1 <= DF 1 corpus_scenario "b" <= length corpus_scenario /\
    idf X j =
      (ln (INR (length corpus_scenario) / INR (DF 1 corpus_scenario "b"))
       + 1)%R /\
    (DF 1 corpus_scenario "b" < length corpus_scenario ->
     idf X j <>
     (ln ((INR (length corpus_scenario) + 1)
          / (INR (DF 1 corpus_scenario "b") + 1)) + 1)%R) /\
    ((forall d, In d corpus_scenario -> In "b" (analyze 1 d)) ->
     idf X j = 1%R) /\
    get_top_ngrams corpus_scenario 1 = Ok result /\
    result <> [] /\
    (forall h w,
        In (h, w) result ->
        w = Rsum (map (fun d =>
                         if Req_dec_T (squares 1 corpus_scenario d) 0 then 0%R
                         else (INR (TF 1 h d)
                               * (ln (INR (length corpus_scenario)
                                      / INR (DF 1 corpus_scenario h)) + 1)
                               / sqrt (squares 1 corpus_scenario d))%R)
                      corpus_scenario)) /\
    (length (nodup string_dec (grams 1 corpus_scenario)) <= 10 ->
     exists w, In ("b", w) result).
Proof.
  apply (idf_unsmoothed corpus_scenario 1 "b").
  simpl. tauto.
Defined.

(** C8, as the code has it. For [n >= 1] and a corpus in which some record
    has at least [n] tokens, the scorer returns a list whose length is the
    smaller of 10 and the number of distinct n-grams of the corpus, with
    weights that do not increase along it. *)
Theorem ranked_list_shape (docs : list string) (n : nat) :
  1 <= n ->
  (exists d, In d docs /\ n <= length (tokenize d)) ->
  exists result,
    get_top_ngrams docs n = Ok result /\
    length result = Nat.min 10 (length (nodup string_dec (grams n docs))) /\
    non_increasing result.
Proof.
  intros Hn [d [Hd Hlen]].
  pose proof (ranking_returns n docs (grams_long n docs d Hn Hd Hlen)) as E.
  eexists. split; [exact E|]. split.
  - now apply ranked_length.
  - now apply (ranked_sorted n docs).
Qed.

Lemma ranked_list_shape_witness :
  exists result,
    get_top_ngrams corpus_scenario 1 = Ok result /\
    length result =
      Nat.min 10 (length (nodup string_dec (grams 1 corpus_scenario))) /\
    non_increasing result.
Proof.
  apply (ranked_list_shape corpus_scenario 1).
  - apply le_n.
  - exists "a b". split; [now left | vm_compute; lia].
Defined.

(** C8 as stated fails: a corpus that is not empty, yet has no record of
    [n] tokens, gets no list. The record of [corpus_notice] has four tokens
    and the gram size is 5. *)
Lemma ranked_list_counterexample :
  ~ (forall (docs : list string) (n : nat),
        1 <= n -> docs <> [] ->
        exists result,
          get_top_ngrams docs n = Ok result /\
          length result =
            Nat.min 10 (length (nodup string_dec (grams n docs))) /\
          non_increasing result).
Proof.
  intros H.
  destruct (H corpus_notice 5) as [result [E _]]; [lia | discriminate |].
  rewrite ranking_raises in E by reflexivity. discriminate.
Qed.


(** * The scenario of three documents *)

Module ScenarioFacts.
Import RealBounds Scenario.
Local Open Scope R_scope.

Lemma scenario_IDF_a : IDF 1 corpus_scenario "a" = 1.
Proof.
  unfold IDF. eval_counts. unfold corpus_scenario. simpl length.
  rewrite !INR_IZR_INZ. simpl Z.of_nat.
  replace (3 / 3) with 1 by lra. rewrite ln_1. lra.
Qed.

Lemma scenario_IDF_b : IDF 1 corpus_scenario "b" = idf_b.
Proof.
  unfold IDF. eval_counts. unfold corpus_scenario. simpl length.
  rewrite !INR_IZR_INZ. simpl Z.of_nat. reflexivity.
Qed.

Lemma scenario_IDF_c : IDF 1 corpus_scenario "c" = idf_c.
Proof.
  unfold IDF. eval_counts. unfold corpus_scenario. simpl length.
  rewrite !INR_IZR_INZ. simpl Z.of_nat.
  now replace (3 / 1) with 3 by lra.
Qed.

Lemma squares_ab : squares 1 corpus_scenario "a b" = 1 + idf_b * idf_b.
Proof.
  unfold squares.
  change (nodup string_dec (analyze 1 "a b")) with ["a"; "b"].
  cbn [map Rsum fold_right].
  unfold tfidf. rewrite scenario_IDF_a, scenario_IDF_b. eval_counts. simpl INR. ring.
Qed.

Lemma squares_ac : squares 1 corpus_scenario "a c" = 1 + idf_c * idf_c.
Proof.
  unfold squares.
  change (nodup string_dec (analyze 1 "a c")) with ["a"; "c"].
  cbn [map Rsum fold_right].
  unfold tfidf. rewrite scenario_IDF_a, scenario_IDF_c. eval_counts. simpl INR. ring.
Qed.

Lemma one_plus_square (x : R) : 1 + x * x <> 0.
Proof. nra. Qed.

Ltac row_weights :=
  unfold l2_weight, corpus_scenario; cbn [map Rsum fold_right];
  fold corpus_scenario; unfold l2_tfidf;
  rewrite squares_ab, squares_ac;
  destruct (Req_dec_T (1 + idf_b * idf_b) 0) as [Eb|_];
  [now apply one_plus_square in Eb|];
  destruct (Req_dec_T (1 + idf_c * idf_c) 0) as [Ec|_];
  [now apply one_plus_square in Ec|];
  unfold tfidf; rewrite ?scenario_IDF_a, ?scenario_IDF_b, ?scenario_IDF_c; eval_counts; simpl INR.

Lemma l2_weight_a : l2_weight 1 corpus_scenario "a" = weight_a.
Proof. row_weights. unfold weight_a, Rdiv. ring. Qed.

Lemma l2_weight_b : l2_weight 1 corpus_scenario "b" = weight_b.
Proof. row_weights. unfold weight_b, Rdiv. ring. Qed.

Lemma l2_weight_c : l2_weight 1 corpus_scenario "c" = weight_c.
Proof. row_weights. unfold weight_c, Rdiv. ring. Qed.

Lemma idf_b_bounds : 1.40 <= idf_b <= 1.41.
Proof. unfold idf_b. pose proof ln_3_2_bounds. lra. Qed.

Lemma idf_c_bounds : 2.09 <= idf_c <= 2.11.
Proof. unfold idf_c. pose proof ln_3_bounds. lra. Qed.

Lemma weight_a_bounds : 1.58 < weight_a < 1.60.
Proof.
  pose proof idf_b_bounds as Hb. pose proof idf_c_bounds as Hc.
  assert (Sb : 2.96 <= 1 + idf_b * idf_b <= 2.9881) by nra.
  assert (Sc : 5.3681 <= 1 + idf_c * idf_c <= 5.4521) by nra.
  assert (B : 0.578 < 1 / sqrt (1 + idf_b * idf_b) < 0.582)
    by (apply div_sqrt_bounds; lra).
  assert (C : 0.428 < 1 / sqrt (1 + idf_c * idf_c) < 0.432)
    by (apply div_sqrt_bounds; lra).
  unfold weight_a. lra.
Qed.

Lemma weight_b_bounds : 1.62 < weight_b < 1.64.
Proof.
  pose proof idf_b_bounds as Hb.
  assert (B : 0.81 < idf_b / sqrt (1 + idf_b * idf_b) < 0.82)
    by (apply div_sqrt_bounds; nra).
  unfold weight_b. lra.
Qed.

Lemma weight_c_bounds : 0.90 < weight_c < 0.91.
Proof.
  pose proof idf_c_bounds as Hc.
  unfold weight_c. apply div_sqrt_bounds; nra.
Qed.

(** The ranked list of the scenario: [b] before [a] before [c]. *)
Lemma scenario_top :
  get_top_ngrams corpus_scenario 1 =
  Ok [("b", weight_b); ("a", weight_a); ("c", weight_c)].
Proof.
  rewrite ranking_returns by discriminate.
  change (first_occurrences (grams 1 corpus_scenario)) with ["a"; "b"; "c"].
  cbn [map]. rewrite l2_weight_a, l2_weight_b, l2_weight_c.
  pose proof weight_a_bounds. pose proof weight_b_bounds.
  pose proof weight_c_bounds.
  unfold sorted_by_weight.
  repeat (cbn [fold_right insert_by_weight fst snd];
          match goal with
          | |- context [Rlt_dec ?x ?y] =>
              destruct (Rlt_dec x y); try (exfalso; lra)
          end).
  reflexivity.
Qed.

End ScenarioFacts.

(** C2, as the code has it. On the documents ["a b"], ["a c"], ["a b"] with
    [n = 1] the scorer's weights are about 1.59 for [a], 1.63 for [b] and
    0.90 for [c], and the ranked list orders them [b], [a], [c]. *)
Theorem scenario_ranking :
  get_top_ngrams corpus_scenario 1 =
    Ok [("b", Scenario.weight_b); ("a", Scenario.weight_a);
        ("c", Scenario.weight_c)] /\
  (1.58 < Scenario.weight_a < 1.60)%R /\
  (1.62 < Scenario.weight_b < 1.64)%R /\
  (0.90 < Scenario.weight_c < 0.91)%R.
Proof.
  split; [exact ScenarioFacts.scenario_top|].
  split; [exact ScenarioFacts.weight_a_bounds|].
  split; [exact ScenarioFacts.weight_b_bounds|].
  exact ScenarioFacts.weight_c_bounds.
Qed.

(** C2 as stated fails: the list does not start with [a], and no weight is
    the raw sum. *)
Lemma scenario_counterexample :
  ~ (exists wa wb wc : R,
        get_top_ngrams corpus_scenario 1 =
          Ok [("a", wa); ("b", wb); ("c", wc)] /\
        wa = 3%R /\ (2.80 < wb < 2.82)%R /\ (2.09 < wc < 2.11)%R).
Proof.
  intros [wa [wb [wc [H _]]]].
  rewrite ScenarioFacts.scenario_top in H. discriminate.
Qed.

(** * More on the handlers *)

Module SplitFacts.
Import PyStr PyStrFacts.

Lemma has_char_append (c : ascii) (a b : string) :
  has_char c (a ++ b) = has_char c a || has_char c b.
Proof.
  induction a as [|x a IH]; simpl; [reflexivity|].
  now rewrite IH, orb_assoc.
Qed.

Lemma has_char_remove_other (c d : ascii) (s : string) :
  has_char c s = false -> has_char c (remove_all d s) = false.
Proof.
  induction s as [|a s IH]; simpl; [reflexivity|].
  intros H. apply orb_false_iff in H as [Ha Hs].
  destruct (Ascii.eqb a d); simpl; [now apply IH|].
  rewrite Ha. now apply IH.
Qed.

Lemma occurs_has_char (c : ascii) (sep s : string) :
  Occurs sep s -> has_char c sep = true -> has_char c s = true.
Proof.
  intros [a [b ->]] H.
  rewrite !has_char_append, H. now rewrite orb_true_r.
Qed.

(** The text before the leftmost occurrence holds no occurrence. *)
Lemma partition_before_free (sep s b a : string) :
  sep <> "" -> partition sep s = Some (b, a) -> ~ Occurs sep b.
Proof.
  intros Hsep. revert b a. induction s as [|c s IH]; intros b a H;
    rewrite partition_eq in H.
  - destruct (startswith sep "") eqn:E; [|discriminate].
    destruct sep; [congruence | discriminate].
  - destruct (startswith sep (String c s)) eqn:E.
    + injection H as <- <-. intros [x [y Exy]].
      destruct x; [|discriminate]. destruct sep; [congruence | discriminate].
    + destruct (partition sep s) as [[b' a']|] eqn:P; [|discriminate].
      injection H as <- <-. intros [x [y Exy]].
      destruct x as [|x0 x].
      * simpl in Exy. apply partition_some in P.
        rewrite P in E. rewrite <- append_assoc in E.
        change (String c (b' ++ sep) ++ a') with (String c b' ++ sep ++ a')
          in E.
        assert (F : startswith sep (String c (b' ++ sep ++ a')) = true).
        { change (String c (b' ++ sep ++ a'))
            with (String c b' ++ sep ++ a').
          rewrite Exy, append_assoc. apply startswith_app. }
        rewrite <- append_assoc in F. simpl in E, F. congruence.
      * simpl in Exy. injection Exy as _ Exy.
        apply (IH b' a' eq_refl). now exists x, y.
Qed.

(** No part of a split holds the separator. *)
Lemma split_parts_free (sep s p : string) :
  sep <> "" -> In p (split sep s) -> ~ Occurs sep p.
Proof.
  intros Hsep. revert p.
  apply (split_ind sep (fun s l => forall p, In p l -> ~ Occurs sep p) Hsep).
  - intros s0 P p [<-|[]]. now apply partition_none.
  - intros s0 b a P IH p [<-|Hin].
    + now apply (partition_before_free sep s0 b a).
    + now apply IH.
Qed.

(** A prefix of a concatenation lies in the first string, or covers it. *)
Lemma startswith_append (u b w : string) :
  startswith u (b ++ w) = true ->
  (exists r, b = u ++ r) \/ (exists r, u = b ++ r /\ startswith r w = true).
Proof.
  revert b. induction u as [|x u IH]; intros b H.
  - left. now exists b.
  - destruct b as [|y b].
    + right. now exists (String x u).
    + simpl in H. apply andb_true_iff in H as [Hx Hu].
      apply Ascii.eqb_eq in Hx. subst y.
      destruct (IH b Hu) as [[r ->]|[r [-> Hr]]].
      * left. now exists r.
      * right. now exists r.
Qed.

(** The leftmost occurrence of a separator whose first character does not
    come again in it, behind a text that holds no occurrence. *)
Lemma partition_after_free (y : ascii) (q b a : string) :
  has_char y q = false ->
  ~ Occurs (String y q) b ->
  partition (String y q) (b ++ String y q ++ a) = Some (b, a).
Proof.
  intros Hy. induction b as [|c b IH]; intros Hb.
  - change ("" ++ String y q ++ a) with (String y q ++ a).
    rewrite partition_eq, startswith_app. now rewrite drop_app.
  - rewrite partition_eq.
    destruct (startswith (String y q) (String c b ++ String y q ++ a)) eqn:E.
    + exfalso. apply startswith_append in E as [[r Er]|[r [Er Hr]]].
      * apply Hb. exists "", r. exact Er.
      * destruct r as [|r0 r].
        -- apply Hb. exists "", "". simpl. rewrite append_nil_r in Er.
           now rewrite append_nil_r.
        -- simpl in Hr. apply andb_true_iff in Hr as [Hr _].
           apply Ascii.eqb_eq in Hr. subst r0.
           simpl in Er. injection Er as _ Er.
           rewrite Er, has_char_append in Hy. simpl in Hy.
           rewrite Ascii.eqb_refl in Hy. simpl in Hy.
           rewrite orb_true_r in Hy. discriminate.
    + cbn [append].
      change (b ++ String y (q ++ a)) with (b ++ String y q ++ a).
      rewrite IH; [reflexivity|].
      intros [x [z Exz]]. apply Hb. exists (String c x), z.
      simpl. now rewrite Exz.
Qed.

(** The leftmost occurrence of a separator whose last character comes
    neither earlier in it nor in the text before it. *)
Lemma startswith_last_char (z : ascii) (p b t : string) :
  has_char z p = false -> has_char z b = false -> b <> "" ->
  startswith (p ++ String z "") (b ++ p ++ String z t) = false.
Proof.
  revert b. induction p as [|x p IH]; intros b Hp Hb Hne.
  - destruct b as [|c b]; [congruence|]. simpl in *.
    apply orb_false_iff in Hb as [Hc _].
    rewrite Ascii.eqb_sym, Hc. reflexivity.
  - destruct b as [|c b]; [congruence|]. simpl in Hp, Hb.
    apply orb_false_iff in Hp as [Hx Hp].
    apply orb_false_iff in Hb as [Hc Hb].
    simpl. destruct (Ascii.eqb x c); [|reflexivity]. simpl.
    replace (b ++ String x (p ++ String z t))
      with ((b ++ String x "") ++ p ++ String z t)
      by (now rewrite append_assoc).
    apply IH; [assumption | | now destruct b].
    rewrite has_char_append, Hb. simpl. now rewrite Hx.
Qed.

Lemma partition_last_char (z : ascii) (p b a : string) :
  has_char z p = false -> has_char z b = false ->
  partition (p ++ String z "") (b ++ (p ++ String z "") ++ a) = Some (b, a).
Proof.
  intros Hp. induction b as [|c b IH]; intros Hb.
  - change ("" ++ (p ++ String z "") ++ a) with ((p ++ String z "") ++ a).
    rewrite partition_eq, startswith_app. now rewrite drop_app.
  - rewrite partition_eq.
    replace (String c b ++ (p ++ String z "") ++ a)
      with (String c b ++ p ++ String z a)
      by (now rewrite (append_assoc p)).
    rewrite startswith_last_char by (assumption || discriminate).
    cbn [append]. simpl in Hb. apply orb_false_iff in Hb as [_ Hb].
    replace (b ++ p ++ String z a) with (b ++ (p ++ String z "") ++ a)
      by (now rewrite (append_assoc p)).
    now rewrite IH.
Qed.

End SplitFacts.

Module HandlerMore.
Import PyStr PyStrFacts Lines HandlerFacts SplitFacts.

Lemma error_parse_lines_flat_map (lines : list string) :
  ApacheErrorLogHandler.parse_lines lines =
  flat_map ApacheErrorLogHandler.parse_line lines.
Proof.
  induction lines as [|l lines IH]; [reflexivity|].
  change (l :: lines) with ([l] ++ lines)%list.
  rewrite error_parse_lines_app, error_parse_lines_one, IH. reflexivity.
Qed.

Lemma error_extend_records (paths : list (list string)) (acc : list string) :
  extend_records ApacheErrorLogHandler.handler paths acc =
  Ok (acc ++ ApacheErrorLogHandler.parse_lines (concat paths))%list.
Proof.
  revert acc. induction paths as [|p paths IH]; intros acc;
    cbn [extend_records concat].
  - now rewrite app_nil_r.
  - cbn [parse_log_file ApacheErrorLogHandler.handler bind].
    rewrite IH, error_parse_lines_app. now rewrite app_assoc.
Qed.

Lemma access_loop_spec (lines acc out : list string) :
  ApacheAccessLogHandler.parse_loop lines acc = Ok out <->
  exists recs,
    out = (acc ++ recs)%list /\
    Forall2 (fun l r => ApacheAccessLogHandler.parse_line l = Ok r) lines recs.
Proof.
  revert acc. induction lines as [|l lines IH]; intros acc; simpl.
  - split.
    + intros [= <-]. exists []. split; [now rewrite app_nil_r | constructor].
    + intros [recs [-> F]]. inversion F. now rewrite app_nil_r.
  - destruct (ApacheAccessLogHandler.parse_line l) as [r|e] eqn:E; simpl.
    + rewrite IH. split.
      * intros [recs [-> F]]. exists (r :: recs). split.
        -- now rewrite <- app_assoc.
        -- now constructor.
      * intros [recs [-> F]]. inversion F as [|? r' ? recs' Hr F']; subst.
        assert (r' = r) by congruence. subst r'.
        exists recs'. split; [now rewrite <- app_assoc | assumption].
    + split; [discriminate|].
      intros [recs [_ F]]. inversion F; subst. congruence.
Qed.

End HandlerMore.

Import SplitFacts HandlerMore.

(** X1. A record of the access-log handler is the text of the line before
    its first [" - - ["], one space, and a text that holds no double quote
    and no hyphen; the text before holds no [" - - ["]. *)
Theorem access_record_shape (line rec : string) :
  ApacheAccessLogHandler.parse_line line = Ok rec ->
  exists client after rest,
    line = client ++ ApacheAccessLogHandler.sep_client ++ after /\
    rec = client ++ " " ++ rest /\
    ~ Occurs ApacheAccessLogHandler.sep_client client /\
    has_char dquote rest = false /\
    has_char hyphen rest = false.
Proof.
  unfold ApacheAccessLogHandler.parse_line.
  rewrite (split_unfold ApacheAccessLogHandler.sep_client) by discriminate.
  destruct (partition ApacheAccessLogHandler.sep_client line)
    as [[client after]|] eqn:P; [|simpl; intros H; discriminate H].
  unfold subscript. cbn [nth_error bind].
  destruct (split ApacheAccessLogHandler.sep_client after) as [|f1 fs] eqn:S;
    [simpl; intros H; discriminate H|].
  cbn [nth_error bind].
  destruct (split ApacheAccessLogHandler.sep_request f1) as [|t0 [|r1 rs]];
    try (simpl; intros H; discriminate H).
  cbn [nth_error bind].
  intros [= <-].
  exists client, after, (remove_all hyphen (remove_all dquote r1)).
  split; [now apply partition_some|]. split; [reflexivity|]. split.
  - now apply (partition_before_free _ line client after).
  - split; [|apply remove_all_has_char].
    apply has_char_remove_other, remove_all_has_char.
Qed.

Lemma access_record_shape_witness :
  exists client after rest,
    access_line_example =
      client ++ ApacheAccessLogHandler.sep_client ++ after /\
    "127.0.0.1 GET /x HTTP/1.1 200  " = client ++ " " ++ rest /\
    ~ Occurs ApacheAccessLogHandler.sep_client client /\
    has_char dquote rest = false /\
    has_char hyphen rest = false.
Proof.
  apply (access_record_shape access_line_example). reflexivity.
Defined.

(** X2. The access-log handler returns the records of a file exactly when
    every line of the file gives a record; the records are then those of the
    lines, one for each line and in the order of the lines. *)
Theorem access_one_record_per_line (lines records : list string) :
  @parse_log_file ApacheAccessLogHandler.handler lines = Ok records <->
  Forall2 (fun l r => ApacheAccessLogHandler.parse_line l = Ok r)
          lines records.
Proof.
  cbn [parse_log_file ApacheAccessLogHandler.handler].
  rewrite access_loop_spec. split.
  - now intros [recs [-> F]].
  - intros F. now exists records.
Qed.

(** X3. An error-log line of the form [f1] f2] body], where neither field
    holds ["] "], gives one record: the body, in which every ["] "] is
    replaced by a space. A body without ["] "] is the record as it is. *)
Theorem error_line_two_fields (f1 f2 body : string) :
  ~ Occurs "] " f1 -> ~ Occurs "] " f2 ->
  ApacheErrorLogHandler.parse_line (f1 ++ "] " ++ f2 ++ "] " ++ body) =
    [join " " (split "] " body)] /\
  (~ Occurs "] " body ->
   ApacheErrorLogHandler.parse_line (f1 ++ "] " ++ f2 ++ "] " ++ body) =
     [body]).
Proof.
  intros H1 H2.
  assert (E : ApacheErrorLogHandler.parse_line
                (f1 ++ "] " ++ f2 ++ "] " ++ body) =
              [join " " (split "] " body)]).
  { unfold ApacheErrorLogHandler.parse_line.
    rewrite (split_unfold "] ") by discriminate.
    rewrite (partition_after_free "]" " " f1) by (reflexivity || assumption).
    rewrite (split_unfold "] " (f2 ++ _)) by discriminate.
    rewrite (partition_after_free "]" " " f2) by (reflexivity || assumption).
    cbn [List.length skipn].
    destruct (split "] " body) eqn:S; [now apply split_nonempty in S|].
    reflexivity. }
  split; [exact E|].
  intros H3. rewrite E, split_no_occurrence by (discriminate || assumption).
  reflexivity.
Qed.

Lemma error_line_two_fields_witness :
  ApacheErrorLogHandler.parse_line
    ("[Mon Jan 01" ++ "] " ++ "[error" ++ "] " ++ "[client x] denied") =
    [join " " (split "] " "[client x] denied")] /\
  (~ Occurs "] " "[client x] denied" ->
   ApacheErrorLogHandler.parse_line
     ("[Mon Jan 01" ++ "] " ++ "[error" ++ "] " ++ "[client x] denied") =
     ["[client x] denied"]).
Proof.
  apply (error_line_two_fields "[Mon Jan 01" "[error" "[client x] denied").
  - apply partition_none. reflexivity.
  - apply partition_none. reflexivity.
Defined.

(** X4. An access-log line made of a client field, the delimiter
    [" - - ["], a time, the bracket-quote delimiter and a rest, in which no
    opening bracket comes outside the first delimiter, the time holds no
    double quote and the rest holds no bracket-quote delimiter, gives the
    record: the client field, one space, and the rest without its double
    quotes and hyphens. *)
Theorem access_line_well_formed (client time rest : string) :
  has_char "[" client = false ->
  has_char "[" time = false ->
  has_char "[" rest = false ->
  has_char dquote time = false ->
  ~ Occurs ApacheAccessLogHandler.sep_request rest ->
  ApacheAccessLogHandler.parse_line
    (client ++ ApacheAccessLogHandler.sep_client ++ time
     ++ ApacheAccessLogHandler.sep_request ++ rest) =
  Ok (client ++ " " ++ remove_all hyphen (remove_all dquote rest)).
Proof.
  intros Hc Ht Hr Hq Hs.
  unfold ApacheAccessLogHandler.parse_line.
  rewrite (split_unfold ApacheAccessLogHandler.sep_client) by discriminate.
  change ApacheAccessLogHandler.sep_client with (" - - " ++ String "[" "").
  rewrite (partition_last_char "[" " - - " client) by (reflexivity || assumption).
  change (" - - " ++ String "[" "") with ApacheAccessLogHandler.sep_client.
  rewrite (split_no_occurrence ApacheAccessLogHandler.sep_client).
  2: discriminate.
  2:{ intros O. apply (occurs_has_char "[") in O; [|reflexivity].
      rewrite !has_char_append, Ht, Hr in O. discriminate. }
  unfold subscript. cbn [nth_error bind].
  rewrite (split_unfold ApacheAccessLogHandler.sep_request) by discriminate.
  change ApacheAccessLogHandler.sep_request with ("] " ++ String dquote "").
  rewrite (partition_last_char dquote "] " time) by (reflexivity || assumption).
  change ("] " ++ String dquote "") with ApacheAccessLogHandler.sep_request.
  rewrite (split_no_occurrence ApacheAccessLogHandler.sep_request)
    by (discriminate || assumption).
  reflexivity.
Qed.

Lemma access_line_well_formed_witness :
  ApacheAccessLogHandler.parse_line
    ("127.0.0.1" ++ ApacheAccessLogHandler.sep_client ++ "01/Jan/2020"
     ++ ApacheAccessLogHandler.sep_request
     ++ ("GET /x HTTP/1.1" ++ DQ ++ " 200 - -")) =
  Ok ("127.0.0.1" ++ " "
      ++ remove_all hyphen
           (remove_all dquote ("GET /x HTTP/1.1" ++ DQ ++ " 200 - -"))).
Proof.
  apply (access_line_well_formed
           "127.0.0.1" "01/Jan/2020" ("GET /x HTTP/1.1" ++ DQ ++ " 200 - -"));
    try reflexivity.
  apply partition_none. reflexivity.
Defined.

(** The second condition of [single_access_delimiters] is needed as well:
    on [access_line_bracket] the split on [" - - ["] has two parts, the
    split of the second part has three, and the record, cut before the
    third, does not end in the newline of the line. *)
Lemma request_split_needed :
  endswith_newline More.access_line_bracket /\
  List.length (split ApacheAccessLogHandler.sep_client
                     More.access_line_bracket) = 2 /\
  ApacheAccessLogHandler.parse_line More.access_line_bracket =
    Ok "1.1.1.1 GET /" /\
  ~ endswith_newline "1.1.1.1 GET /".
Proof.
  split; [|split; [reflexivity|split; [reflexivity|]]].
  - unfold More.access_line_bracket. eexists.
    now rewrite <- !append_assoc.
  - intros E. apply endswith_newline_has_char in E. discriminate E.
Qed.

(** * More on the scorer *)

Module ScorerMore.
Import PyStr TfidfVectorizer Scorer More.
Import CountFacts SortFeaturesFacts TfidfFacts RankFacts RealBounds.
Local Open Scope list_scope.
Local Open Scope nat_scope.

(** *** Tokens *)

Lemma has_space_append (a b : string) :
  has_space (a ++ b)%string = has_space a || has_space b.
Proof.
  induction a as [|c a IH]; simpl; [reflexivity|].
  now rewrite IH, orb_assoc.
Qed.

Lemma append_not_empty (a : string) (c : ascii) :
  (a ++ String c EmptyString)%string <> EmptyString.
Proof. now destruct a. Qed.

(** Every run [findall] closes is a token. *)
Lemma findall_from_tokens (doc run : string) :
  has_space run = false ->
  Forall is_token (findall_from run doc).
Proof.
  revert run. induction doc as [|c doc IH]; intros run Hrun; simpl.
  - destruct run; constructor; [split; [discriminate | assumption] | constructor].
  - destruct (isspace c) eqn:E.
    + destruct run as [|r run].
      * now apply IH.
      * constructor; [split; [discriminate | assumption] | now apply IH].
    + apply IH. rewrite has_space_append, Hrun. simpl. now rewrite E.
Qed.

Lemma tokenize_tokens (doc : string) : Forall is_token (tokenize doc).
Proof. now apply findall_from_tokens. Qed.

Lemma findall_from_run (t run doc : string) :
  has_space t = false ->
  findall_from run (t ++ doc)%string = findall_from (run ++ t)%string doc.
Proof.
  revert run. induction t as [|c t IH]; intros run Ht; simpl.
  - now rewrite PyStrFacts.append_nil_r.
  - simpl in Ht. apply orb_false_iff in Ht as [Hc Ht].
    rewrite Hc, IH by assumption.
    now rewrite PyStrFacts.append_assoc.
Qed.

(** Tokens joined by single spaces are read back as they are. *)
Lemma tokenize_join (tokens : list string) :
  Forall is_token tokens -> tokenize (join " " tokens) = tokens.
Proof.
  unfold tokenize.
  induction tokens as [|t ts IH]; intros H; [reflexivity|].
  inversion H as [|? ? [Hne Hsp] Hts]; subst.
  destruct ts as [|t2 ts].
  - simpl join. rewrite <- (PyStrFacts.append_nil_r t) at 1.
    rewrite findall_from_run by assumption. simpl.
    destruct t; [congruence | reflexivity].
  - rewrite PyStrFacts.join_cons by discriminate.
    rewrite findall_from_run by assumption. simpl append at 1.
    cbn [append findall_from].
    destruct t as [|c t]; [congruence|].
    replace (isspace " ") with true by reflexivity.
    f_equal. now apply IH.
Qed.

Lemma Forall_firstn_skipn {A : Type} (P : A -> Prop) (l : list A) (i k : nat) :
  Forall P l -> Forall P (firstn k (skipn i l)).
Proof.
  intros H. apply Forall_forall. intros x Hx.
  apply firstn_incl in Hx.
  apply (proj1 (Forall_forall P l) H).
  rewrite <- (firstn_skipn i l). apply in_app_iff. now right.
Qed.

Lemma analyze_firstn_skipn (n : nat) (d : string) :
  1 <= n ->
  analyze n d =
    map (fun i => join " " (firstn n (skipn i (tokenize d))))
        (seq 0 (length (tokenize d) + 1 - n)).
Proof.
  intros Hn.
  rewrite analyze_windows by assumption. unfold range, slice.
  rewrite Nat.sub_0_r. apply map_ext. intros i.
  now replace (i + n - i) with n by lia.
Qed.

(** *** Document frequencies *)

Lemma IDF_lower_bound (n : nat) (docs : list string) (g : string) :
  In g (grams n docs) -> (1 <= IDF n docs g)%R.
Proof.
  intros H. unfold IDF.
  pose proof (DF_positive n docs g H) as H1.
  pose proof (DF_le n docs g) as H2.
  assert (P1 : (0 < INR (DF n docs g))%R) by (apply lt_0_INR; lia).
  assert (P2 : (INR (DF n docs g) <= INR (length docs))%R) by now apply le_INR.
  assert (Q : (1 <= INR (length docs) / INR (DF n docs g))%R).
  { apply Rmult_le_reg_r with (INR (DF n docs g)); [assumption|].
    unfold Rdiv. rewrite Rmult_assoc, Rinv_l by lra. lra. }
  pose proof (ln_le 1 _ Rlt_0_1 Q) as L. rewrite ln_1 in L. lra.
Qed.

(** *** Sums *)

Lemma Rsum_square_member {A : Type} (f : A -> R) (l : list A) (a : A) :
  In a l -> (f a * f a <= Rsum (map (fun x => f x * f x) l))%R.
Proof.
  assert (Hpos : forall l', (0 <= Rsum (map (fun x => f x * f x) l'))%R).
  { induction l' as [|x l' IH]; simpl; [lra | nra]. }
  induction l as [|x l IH]; simpl; [tauto|].
  intros [->|H].
  - specialize (Hpos l). lra.
  - specialize (IH H). nra.
Qed.

Lemma squares_nonneg (n : nat) (docs : list string) (d : string) :
  (0 <= squares n docs d)%R.
Proof.
  unfold squares.
  induction (nodup string_dec (analyze n d)) as [|x l IH]; simpl; [lra | nra].
Qed.

(** The weight of an n-gram in one document, after normalization. *)
Lemma l2_tfidf_bounds (n : nat) (docs : list string) (g d : string) :
  In g (grams n docs) -> In g (analyze n d) ->
  (0 < l2_tfidf n docs g d <= 1)%R.
Proof.
  intros Hg Hd.
  pose proof (IDF_lower_bound n docs g Hg) as Hidf.
  assert (Htf : (1 <= INR (TF n g d))%R).
  { change 1%R with (INR 1). apply le_INR. unfold TF.
    now apply (proj1 (count_occ_In string_dec _ _)). }
  assert (Ht : (0 < tfidf n docs g d)%R) by (unfold tfidf; nra).
  assert (Hsq : (tfidf n docs g d * tfidf n docs g d <= squares n docs d)%R).
  { unfold squares.
    apply (Rsum_square_member (fun x => tfidf n docs x d)).
    now apply nodup_In. }
  unfold l2_tfidf.
  destruct (Req_dec_T (squares n docs d) 0) as [Z|NZ]; [nra|].
  assert (Hs : (0 < squares n docs d)%R) by nra.
  pose proof (sqrt_lt_R0 _ Hs) as Hq.
  assert (Hle : (tfidf n docs g d <= sqrt (squares n docs d))%R).
  { rewrite <- (sqrt_square (tfidf n docs g d)) by lra.
    apply sqrt_le_1_alt. exact Hsq. }
  split.
  - apply Rdiv_lt_0_compat; assumption.
  - apply Rmult_le_reg_r with (sqrt (squares n docs d)); [assumption|].
    unfold Rdiv. rewrite Rmult_assoc, Rinv_l by lra. lra.
Qed.

Lemma l2_weight_bounds (n : nat) (docs : list string) (g : string) :
  In g (grams n docs) ->
  (0 < l2_weight n docs g <= INR (DF n docs g))%R.
Proof.
  intros Hg. unfold l2_weight, DF.
  assert (Hterm : forall d,
             (0 <= l2_tfidf n docs g d
              <= if 0 <? TF n g d then 1 else 0)%R /\
             (In g (analyze n d) -> 0 < l2_tfidf n docs g d)%R).
  { intros d. destruct (in_dec string_dec g (analyze n d)) as [Hin|Hout].
    - pose proof (l2_tfidf_bounds n docs g d Hg Hin) as B.
      rewrite TF_positive.
      replace (mem g (first_occurrences (analyze n d))) with true
        by (symmetry; apply mem_In; now apply first_occurrences_In).
      split; [lra | intros _; lra].
    - rewrite (l2_tfidf_absent n docs g d Hout).
      split; [|contradiction].
      destruct (0 <? TF n g d); lra. }
  assert (Hsum : forall l,
             (0 <= Rsum (map (l2_tfidf n docs g) l)
              <= INR (length (filter (fun d => 0 <? TF n g d) l)))%R).
  { induction l as [|d l IH]; simpl; [lra|].
    destruct (Hterm d) as [B _].
    destruct (0 <? TF n g d); simpl length.
    - rewrite S_INR. lra.
    - lra. }
  split; [|apply Hsum].
  apply grams_In in Hg as [d [Hd Hin]].
  apply in_split in Hd as [l1 [l2 ->]].
  rewrite map_app, Rsum_app. simpl.
  destruct (Hterm d) as [_ P]. specialize (P Hin).
  pose proof (Hsum l1). pose proof (Hsum l2). lra.
Qed.

(** *** The sorted list *)

Lemma sorted_app_inv {A : Type} (R : A -> A -> Prop) (l1 l2 : list A) :
  StronglySorted R (l1 ++ l2) ->
  forall x y, In x l1 -> In y l2 -> R x y.
Proof.
  induction l1 as [|a l1 IH]; simpl; intros H x y Hx Hy; [destruct Hx|].
  inversion H as [|? ? Hs Hf]; subst.
  destruct Hx as [->|Hx].
  - apply (proj1 (Forall_forall _ _) Hf). apply in_app_iff. now right.
  - now apply IH.
Qed.

Lemma firstn_NoDup {A : Type} (k : nat) (l : list A) :
  NoDup l -> NoDup (firstn k l).
Proof.
  intros H. rewrite <- (firstn_skipn k l) in H.
  now apply NoDup_app_remove_r in H.
Qed.

Lemma ranked_phrases (n : nat) (docs : list string) :
  Permutation
    (map fst (sorted_by_weight
                (map (fun g => (g, l2_weight n docs g))
                     (first_occurrences (grams n docs)))))
    (first_occurrences (grams n docs)).
Proof.
  rewrite (Permutation_map fst (sorted_by_weight_perm _)).
  rewrite map_map. simpl. now rewrite map_id.
Qed.

End ScorerMore.

Import More ScorerMore.

(** X6. For [n >= 1] the n-grams of a record are its windows of [n]
    consecutive tokens, from left to right, each joined by single spaces: a
    record of [k] tokens has [k + 1 - n] of them, none when [k < n]. *)
Theorem ngrams_are_windows (n : nat) (d : string) :
  1 <= n ->
  analyze n d =
    map (fun i => join " " (firstn n (skipn i (tokenize d))))
        (seq 0 (length (tokenize d) + 1 - n)) /\
  length (analyze n d) = length (tokenize d) + 1 - n.
Proof.
  intros Hn.
  pose proof (analyze_firstn_skipn n d Hn) as E.
  split; [exact E|]. now rewrite E, length_map, length_seq.
Qed.

Lemma ngrams_are_windows_witness :
  analyze 2 "a b  c" =
    map (fun i => join " " (firstn 2 (skipn i (tokenize "a b  c"))))
        (seq 0 (length (tokenize "a b  c") + 1 - 2)) /\
  length (analyze 2 "a b  c") = length (tokenize "a b  c") + 1 - 2.
Proof. apply (ngrams_are_windows 2 "a b  c"). lia. Defined.

(** X7. For [n >= 1] every n-gram of a record reads back as exactly [n]
    tokens, the tokens of one window of the record: no token is empty or
    holds a space, and the single spaces of the n-gram are the only ones. *)
Theorem ngram_reads_back (n : nat) (d g : string) :
  1 <= n -> In g (analyze n d) ->
  exists i,
    i + n <= length (tokenize d) /\
    tokenize g = firstn n (skipn i (tokenize d)) /\
    length (tokenize g) = n /\
    Forall is_token (tokenize g).
Proof.
  intros Hn Hg.
  rewrite (analyze_firstn_skipn n d Hn) in Hg.
  apply in_map_iff in Hg as [i [<- Hi]].
  apply in_seq in Hi. exists i.
  assert (T : tokenize (join " " (firstn n (skipn i (tokenize d)))) =
              firstn n (skipn i (tokenize d))).
  { apply tokenize_join, Forall_firstn_skipn, tokenize_tokens. }
  rewrite T. split; [lia|]. split; [reflexivity|]. split.
  - rewrite length_firstn, length_skipn. lia.
  - apply Forall_firstn_skipn, tokenize_tokens.
Qed.

Lemma ngram_reads_back_witness :
  exists i,
    i + 2 <= length (tokenize "a b  c") /\
    tokenize "b c" = firstn 2 (skipn i (tokenize "a b  c")) /\
    length (tokenize "b c") = 2 /\
    Forall is_token (tokenize "b c").
Proof.
  apply (ngram_reads_back 2 "a b  c" "b c"); [lia|].
  right. left. reflexivity.
Defined.


(** X8. Every column of the vocabulary has a document frequency between 1
    and the number of records, so the pruning by [min_df] and [max_df] keeps
    every column, and the IDF of every column is at least 1. *)
Theorem idf_at_least_one (docs : list string) (n : nat)
        (vocabulary_ : vocab) (X : list counter) (g : string) (j : nat) :
  count_fit_transform n docs = Ok (vocabulary_, X) ->
  In (g, j) vocabulary_ ->
  1 <= document_frequency X j <= length docs /\
  (1 <= idf X j)%R.
Proof.
  intros H Hin. rewrite count_fit_transform_spec in H.
  destruct (grams n docs) as [|g0 gs] eqn:G; [discriminate|].
  rewrite <- G in *. injection H as <- <-.
  apply in_map_iff in Hin as [t [[= -> <-] Ht]].
  apply (proj1 (first_occurrences_In _ _)) in Ht.
  rewrite (idf_IDF n docs (column n docs) (column_inj n docs)).
  rewrite (document_frequency_DF n docs (column n docs) (column_inj n docs)).
  split; [split|].
  - now apply DF_positive.
  - apply DF_le.
  - now apply IDF_lower_bound.
Qed.

Lemma idf_at_least_one_witness :
  let X := [[(0, 1); (1, 1)]; [(0, 1); (2, 1)]; [(0, 1); (1, 1)]] in
  1 <= document_frequency X 2 <= length corpus_scenario /\
  (1 <= idf X 2)%R.
Proof.
  apply (idf_at_least_one corpus_scenario 1
           [("a", 0); ("b", 1); ("c", 2)]
           [[(0, 1); (1, 1)]; [(0, 1); (2, 1)]; [(0, 1); (1, 1)]] "c" 2).
  - reflexivity.
  - simpl. tauto.
Defined.

(** X9. Every weight the scorer reports is positive, and at most the number
    of records that hold the n-gram, hence at most the number of records. *)
Theorem reported_weight_bounds (docs : list string) (n : nat)
        (result : list (string * R)) (g : string) (w : R) :
  get_top_ngrams docs n = Ok result ->
  In (g, w) result ->
  (0 < w <= INR (DF n docs g))%R /\ DF n docs g <= length docs.
Proof.
  intros H Hin.
  destruct (ranked_entry n docs result g w H Hin) as [Hg ->].
  split; [now apply l2_weight_bounds | apply DF_le].
Qed.

Lemma reported_weight_bounds_witness :
  (0 < 1 <= INR (DF 1 corpus_repeated "a"))%R /\
  DF 1 corpus_repeated "a" <= length corpus_repeated.
Proof.
  apply (reported_weight_bounds corpus_repeated 1 [("a", 1%R)] "a" 1%R).
  - exact RepeatedToken.repeated_top.
  - now left.
Defined.

(** X10. The list the scorer returns has at most ten entries, names no
    phrase twice, and names only n-grams of the records. *)
Theorem ranked_phrases_distinct (docs : list string) (n : nat)
        (result : list (string * R)) :
  get_top_ngrams docs n = Ok result ->
  length result <= 10 /\
  NoDup (map fst result) /\
  (forall g, In g (map fst result) -> In g (grams n docs)).
Proof.
  intros H. split; [|split].
  - rewrite (ranked_length n docs result H). lia.
  - apply ranking_inv in H. subst result.
    rewrite <- firstn_map. apply firstn_NoDup.
    apply (Permutation_NoDup (Permutation_sym (ranked_phrases n docs))).
    apply first_occurrences_NoDup.
  - intros g Hg. apply in_map_iff in Hg as [[g' w] [<- Hin]].
    now apply (ranked_entry n docs result g' w H).
Qed.

Lemma ranked_phrases_distinct_witness :
  length [("a", 1%R)] <= 10 /\
  NoDup (map fst [("a", 1%R)]) /\
  (forall g, In g (map fst [("a", 1%R)]) -> In g (grams 1 corpus_repeated)).
Proof.
  apply (ranked_phrases_distinct corpus_repeated 1).
  exact RepeatedToken.repeated_top.
Defined.

(** X11. The list is the top of the ranking: an n-gram of the records
    that the list leaves out weighs no more than any entry of the list, and
    the list then has ten entries. *)
Theorem left_out_weighs_less (docs : list string) (n : nat)
        (result : list (string * R)) (g : string) :
  get_top_ngrams docs n = Ok result ->
  In g (grams n docs) ->
  ~ In g (map fst result) ->
  length result = 10 /\
  forall g' w', In (g', w') result -> (l2_weight n docs g <= w')%R.
Proof.
  intros H Hg Hout. apply ranking_inv in H.
  set (l := sorted_by_weight
              (map (fun g => (g, l2_weight n docs g))
                   (first_occurrences (grams n docs)))) in *.
  assert (Hl : In (g, l2_weight n docs g) l).
  { apply (Permutation_in _ (Permutation_sym (sorted_by_weight_perm _))).
    apply in_map_iff. exists g. split; [reflexivity|].
    now apply first_occurrences_In. }
  rewrite <- (firstn_skipn 10 l) in Hl. apply in_app_iff in Hl.
  destruct Hl as [Hl|Hl].
  { exfalso. apply Hout. subst result.
    now apply (in_map fst) in Hl. }
  split.
  - subst result. rewrite length_firstn.
    destruct (Nat.le_gt_cases 10 (length l)) as [L|L]; [lia|].
    rewrite skipn_all2 in Hl by lia. destruct Hl.
  - intros g' w' Hin. subst result.
    pose proof (sorted_by_weight_sorted
                  (map (fun g => (g, l2_weight n docs g))
                       (first_occurrences (grams n docs)))) as S.
    fold l in S. unfold non_increasing in S.
    rewrite <- (firstn_skipn 10 l) in S.
    exact (sorted_app_inv _ _ _ S _ _ Hin Hl).
Qed.

Module TieFacts.
Local Open Scope list_scope.

Lemma weighs_true (w : R) (x : string * R) :
  weighs w x = true <-> snd x = w.
Proof. unfold weighs. destruct (Req_dec_T (snd x) w); intuition congruence. Qed.

(** Inserting an entry leaves the entries of each weight in their order. *)
Lemma insert_by_weight_same (w : R) (x : string * R)
      (l : list (string * R)) :
  filter (weighs w) (insert_by_weight x l) = filter (weighs w) (x :: l).
Proof.
  induction l as [|y l IH]; [reflexivity|].
  simpl insert_by_weight.
  destruct (Rlt_dec (snd x) (snd y)) as [L|L]; [|reflexivity].
  cbn [filter] in *. rewrite IH.
  destruct (weighs w y) eqn:Ey; destruct (weighs w x) eqn:Ex;
    try reflexivity.
  apply weighs_true in Ey. apply weighs_true in Ex. lra.
Qed.

Lemma sorted_by_weight_same (w : R) (l : list (string * R)) :
  filter (weighs w) (sorted_by_weight l) = filter (weighs w) l.
Proof.
  induction l as [|x l IH]; [reflexivity|].
  simpl sorted_by_weight. rewrite insert_by_weight_same.
  cbn [filter]. now rewrite IH.
Qed.

(** An element of a filtered list, in the list itself. *)
Lemma filter_split {A : Type} (p : A -> bool) (l a b : list A) (x : A) :
  filter p l = a ++ x :: b ->
  exists l1 l2, l = l1 ++ x :: l2 /\ filter p l2 = b.
Proof.
  revert a. induction l as [|y l IH]; intros a H; simpl in H.
  - destruct a; discriminate.
  - destruct (p y) eqn:E.
    + destruct a as [|a0 a]; simpl in H.
      * injection H as -> Hb. now exists [], l.
      * injection H as _ H. destruct (IH a H) as [l1 [l2 [-> Hb]]].
        now exists (y :: l1), l2.
    + destruct (IH a H) as [l1 [l2 [-> Hb]]]. now exists (y :: l1), l2.
Qed.

End TieFacts.

Module ElevenTokens.
Local Open Scope R_scope.

Lemma eleven_tfidf (g : string) :
  In g tokens_eleven -> tfidf 1 corpus_eleven g record_eleven = 1.
Proof.
  intros H. simpl in H.
  repeat (destruct H as [<-|H]; [
    unfold tfidf, IDF; eval_counts; unfold corpus_eleven; simpl;
    replace (1 / 1) with 1 by lra; rewrite ln_1; lra |]).
  destruct H.
Qed.

Lemma eleven_squares : squares 1 corpus_eleven record_eleven = 11.
Proof.
  unfold squares.
  change (nodup string_dec (analyze 1 record_eleven)) with tokens_eleven.
  rewrite (map_ext_in _ (fun _ => 1)).
  - simpl. lra.
  - intros g Hg. rewrite (eleven_tfidf g Hg). lra.
Qed.

Lemma eleven_weight (g : string) :
  In g tokens_eleven -> l2_weight 1 corpus_eleven g = 1 / sqrt 11.
Proof.
  intros H. unfold l2_weight, corpus_eleven. cbn [map Rsum fold_right].
  fold corpus_eleven. unfold l2_tfidf.
  rewrite eleven_squares, (eleven_tfidf g H).
  destruct (Req_dec_T 11 0); lra.
Qed.

(** All the weights are equal, so the first ten tokens are listed in the
    order of the record. *)
Lemma eleven_top :
  get_top_ngrams corpus_eleven 1 =
  Ok (map (fun g => (g, 1 / sqrt 11)) (firstn 10 tokens_eleven)).
Proof.
  rewrite ranking_returns by discriminate.
  change (first_occurrences (grams 1 corpus_eleven)) with tokens_eleven.
  rewrite (map_ext_in _ (fun g => (g, 1 / sqrt 11)))
    by (intros g Hg; now rewrite (eleven_weight g Hg)).
  unfold sorted_by_weight, tokens_eleven. cbn [map].
  repeat (cbn [fold_right insert_by_weight fst snd];
          match goal with
          | |- context [Rlt_dec ?x ?y] =>
              destruct (Rlt_dec x y); try (exfalso; lra)
          end).
  reflexivity.
Qed.

End ElevenTokens.

Lemma left_out_weighs_less_witness :
  length (map (fun g => (g, (1 / sqrt 11)%R)) (firstn 10 tokens_eleven)) = 10 /\
  forall g' w',
    In (g', w') (map (fun g => (g, (1 / sqrt 11)%R)) (firstn 10 tokens_eleven)) ->
    (l2_weight 1 corpus_eleven "k" <= w')%R.
Proof.
  apply (left_out_weighs_less corpus_eleven 1
           (map (fun g => (g, (1 / sqrt 11)%R)) (firstn 10 tokens_eleven)) "k").
  - exact ElevenTokens.eleven_top.
  - simpl. tauto.
  - simpl. intuition discriminate.
Defined.

(** X21. Ties keep the order of first occurrence: when the list names two
    phrases of the same weight, the one it names first is the one that comes
    first among the distinct n-grams of the records, taken in the order in
    which they first occur. *)
Theorem ties_in_order_of_first_occurrence (docs : list string) (n : nat)
        (l1 l2 l3 : list (string * R)) (g1 g2 : string) (w : R) :
  get_top_ngrams docs n = Ok (l1 ++ (g1, w) :: l2 ++ (g2, w) :: l3)%list ->
  exists k1 k2 k3,
    first_occurrences (grams n docs) = (k1 ++ g1 :: k2 ++ g2 :: k3)%list.
Proof.
  intros H. apply ranking_inv in H.
  set (keys := first_occurrences (grams n docs)) in *.
  set (S := sorted_by_weight (map (fun g => (g, l2_weight n docs g)) keys))
    in *.
  pose proof (TieFacts.sorted_by_weight_same
                w (map (fun g => (g, l2_weight n docs g)) keys)) as St.
  fold S in St. rewrite <- (firstn_skipn 10 S), <- H in St.
  rewrite !filter_app in St. cbn [filter] in St.
  rewrite !filter_app in St. cbn [filter] in St.
  replace (weighs w (g1, w)) with true in St
    by (symmetry; now apply TieFacts.weighs_true).
  replace (weighs w (g2, w)) with true in St
    by (symmetry; now apply TieFacts.weighs_true).
  rewrite <- !app_assoc in St. cbn [app] in St.
  rewrite <- !app_assoc in St. cbn [app] in St.
  symmetry in St.
  apply TieFacts.filter_split in St as [m1 [m2 [E1 St]]].
  apply TieFacts.filter_split in St as [m3 [m4 [E2 _]]].
  exists (map fst m1), (map fst m3), (map fst m4).
  assert (K : map fst (map (fun g => (g, l2_weight n docs g)) keys) = keys)
    by (rewrite map_map; apply map_id).
  rewrite <- K, E1, E2.
  rewrite map_app. cbn [map]. rewrite map_app. reflexivity.
Qed.

Lemma ties_in_order_of_first_occurrence_witness :
  exists k1 k2 k3,
    first_occurrences (grams 1 corpus_eleven) =
    (k1 ++ "c" :: k2 ++ "h" :: k3)%list.
Proof.
  apply (ties_in_order_of_first_occurrence corpus_eleven 1
           [("a", (1 / sqrt 11)%R); ("b", (1 / sqrt 11)%R)]
           [("d", (1 / sqrt 11)%R); ("e", (1 / sqrt 11)%R);
            ("f", (1 / sqrt 11)%R); ("g", (1 / sqrt 11)%R)]
           [("i", (1 / sqrt 11)%R); ("j", (1 / sqrt 11)%R)]
           "c" "h" (1 / sqrt 11)%R).
  exact ElevenTokens.eleven_top.
Defined.

(** * The files, the options and [main] *)

Module GramSizeFacts.
Import PyStr TfidfVectorizer GramSize.
Local Open Scope list_scope.

Lemma range_int_nat (a b : nat) :
  range_int (Z.of_nat a) (Z.of_nat b) = map Z.of_nat (range a b).
Proof.
  unfold range_int, range.
  replace (Z.to_nat (Z.of_nat b - Z.of_nat a)) with (b - a)%nat by lia.
  generalize (b - a)%nat as len. intros len. revert a.
  induction len as [|len IH]; intros a; [reflexivity|].
  cbn [seq map]. f_equal; [lia|].
  rewrite <- seq_shift, map_map, <- IH.
  apply map_ext. intros k. lia.
Qed.

Lemma slice_int_nat {A : Type} (l : list A) (i k : nat) :
  (i + k <= length l)%nat ->
  slice_int l (Z.of_nat i) (Z.of_nat i + Z.of_nat k) = slice l i (i + k).
Proof.
  intros H. unfold slice_int.
  destruct (Z.ltb_spec (Z.of_nat i) 0) as [L|_]; [lia|].
  destruct (Z.ltb_spec (Z.of_nat i + Z.of_nat k) 0) as [L|_]; [lia|].
  f_equal; lia.
Qed.

(** On a gram size that is no negative number the analyzer is the one of
    the statements above. *)
Lemma analyze_int_nat (n : nat) (doc : string) :
  analyze_int (Z.of_nat n) doc = analyze n doc.
Proof.
  unfold analyze_int, analyze, word_ngrams_int, word_ngrams.
  destruct (Nat.eqb_spec n 1) as [E|E].
  - subst n. reflexivity.
  - destruct (Z.eqb_spec (Z.of_nat n) 1) as [E'|_]; [lia|].
    cbv beta iota. f_equal.
    set (tokens := tokenize doc).
    replace (Z.min (Z.of_nat n + 1) (Z.of_nat (length tokens) + 1))
      with (Z.of_nat (Nat.min (n + 1) (length tokens + 1))) by lia.
    rewrite range_int_nat, flat_map_concat_map, map_map.
    rewrite flat_map_concat_map. f_equal.
    apply map_ext_in. intros k Hk.
    unfold range in Hk. apply in_seq in Hk.
    replace (Z.of_nat (length tokens) - Z.of_nat k + 1)%Z
      with (Z.of_nat (length tokens - k + 1)) by lia.
    change 0%Z with (Z.of_nat 0).
    rewrite range_int_nat, map_map.
    apply map_ext_in. intros i Hi.
    unfold range in Hi. apply in_seq in Hi.
    f_equal. apply slice_int_nat. lia.
Qed.

Lemma count_documents_by_ext (f g : string -> list string)
      (docs : list string) :
  (forall d, f d = g d) ->
  count_documents_by f docs = count_documents_by g docs.
Proof.
  intros H. unfold count_documents_by.
  generalize (@nil (string * nat), @nil counter) as acc.
  induction docs as [|d docs IH]; intros [vocabulary rows]; [reflexivity|].
  cbn [fold_left]. rewrite IH. now rewrite H.
Qed.

Lemma get_top_ngrams_by_ext (f g : string -> list string)
      (docs : list string) :
  (forall d, f d = g d) ->
  get_top_ngrams_by f docs = get_top_ngrams_by g docs.
Proof.
  intros H.
  unfold get_top_ngrams_by, fit_transform_by, count_fit_transform_by,
    count_vocab_by.
  now rewrite (count_documents_by_ext f g docs H).
Qed.

(** The scorer at an integer gram size that is not negative. *)
Lemma get_top_ngrams_int_nat (docs : list string) (n : Z) :
  (0 <= n)%Z ->
  get_top_ngrams_int docs n = get_top_ngrams docs (Z.to_nat n).
Proof.
  intros H. unfold get_top_ngrams_int.
  rewrite (get_top_ngrams_by_ext _ (analyze (Z.to_nat n))).
  - reflexivity.
  - intros d. rewrite <- analyze_int_nat. f_equal. lia.
Qed.

(** No record at all: the vocabulary is empty whatever the gram size. *)
Lemma get_top_ngrams_int_nil (n : Z) :
  get_top_ngrams_int [] n = Raise ValueError.
Proof. reflexivity. Qed.

End GramSizeFacts.

Module PipelineFacts.
Import PyStr Pipeline GramSize More.
Import PyStrFacts Lines HandlerFacts HandlerMore RankFacts GramSizeFacts.
Local Open Scope list_scope.

(** *** The sort by modification time *)

Lemma insert_by_mtime_perm (x : Z * string) (l : list (Z * string)) :
  Permutation (insert_by_mtime x l) (x :: l).
Proof.
  induction l as [|y l IH]; simpl; [reflexivity|].
  destruct (fst y <? fst x)%Z; [|reflexivity].
  rewrite IH. apply perm_swap.
Qed.

Lemma sorted_by_mtime_perm (l : list (Z * string)) :
  Permutation (sorted_by_mtime l) l.
Proof.
  induction l as [|x l IH]; simpl; [reflexivity|].
  rewrite insert_by_mtime_perm. now constructor.
Qed.

Lemma insert_by_mtime_sorted (x : Z * string) (l : list (Z * string)) :
  StronglySorted (fun a b => (fst a <= fst b)%Z) l ->
  StronglySorted (fun a b => (fst a <= fst b)%Z) (insert_by_mtime x l).
Proof.
  induction 1 as [|y l Hl IH Hy]; simpl.
  - constructor; constructor.
  - destruct (Z.ltb_spec (fst y) (fst x)) as [L|L].
    + constructor; [assumption|].
      apply (Permutation_Forall (Permutation_sym (insert_by_mtime_perm x l))).
      constructor; [lia | assumption].
    + constructor; [now constructor|].
      constructor; [assumption|].
      apply Forall_impl with (2 := Hy). intros z Hz. lia.
Qed.

Lemma sorted_by_mtime_sorted (l : list (Z * string)) :
  StronglySorted (fun a b => (fst a <= fst b)%Z) (sorted_by_mtime l).
Proof.
  induction l as [|x l IH]; simpl; [constructor|].
  now apply insert_by_mtime_sorted.
Qed.

(** Inserting an element leaves the elements of each time in their
    order. *)
Lemma insert_by_mtime_same (t : Z) (x : Z * string) (l : list (Z * string)) :
  filter (fun a => (fst a =? t)%Z) (insert_by_mtime x l) =
  filter (fun a => (fst a =? t)%Z) (x :: l).
Proof.
  induction l as [|y l IH]; [reflexivity|].
  simpl insert_by_mtime.
  destruct (Z.ltb_spec (fst y) (fst x)) as [L|L]; [|reflexivity].
  cbn [filter] in *. rewrite IH.
  destruct (Z.eqb_spec (fst y) t) as [Ey|Ey];
    destruct (Z.eqb_spec (fst x) t) as [Ex|Ex]; try reflexivity.
  lia.
Qed.

Lemma sorted_by_mtime_same (t : Z) (l : list (Z * string)) :
  filter (fun a => (fst a =? t)%Z) (sorted_by_mtime l) =
  filter (fun a => (fst a =? t)%Z) l.
Proof.
  induction l as [|x l IH]; [reflexivity|].
  simpl sorted_by_mtime. rewrite insert_by_mtime_same.
  cbn [filter]. now rewrite IH.
Qed.

(** *** The keys of the sort *)

Lemma keyed_some (w : world) (paths : list string) :
  all_timed w paths -> exists l, keyed w paths = Some l.
Proof.
  unfold all_timed. induction paths as [|p paths IH]; intros H; simpl.
  - now eexists.
  - destruct (getmtime w p) as [t|] eqn:T.
    + destruct IH as [l ->]; [intros q Hq; apply H; now right|].
      now eexists.
    + exfalso. now apply (H p); [left|].
Qed.

Lemma keyed_none (w : world) (paths : list string) (path : string) :
  In path paths -> getmtime w path = None -> keyed w paths = None.
Proof.
  induction paths as [|p paths IH]; intros Hin T; [destruct Hin|].
  simpl. destruct Hin as [->|Hin]; [now rewrite T|].
  destruct (getmtime w p); [|reflexivity].
  now rewrite (IH Hin T).
Qed.

Lemma keyed_paths (w : world) (paths : list string) (l : list (Z * string)) :
  keyed w paths = Some l -> map snd l = paths.
Proof.
  revert l. induction paths as [|p paths IH]; intros l; simpl.
  - now intros [= <-].
  - destruct (getmtime w p) as [t|]; [|discriminate].
    destruct (keyed w paths) as [l'|]; [|discriminate].
    intros [= <-]. simpl. now rewrite (IH l').
Qed.

Lemma keyed_times (w : world) (paths : list string) (l : list (Z * string)) :
  keyed w paths = Some l ->
  forall a, In a l -> getmtime w (snd a) = Some (fst a).
Proof.
  revert l. induction paths as [|p paths IH]; intros l; simpl.
  - intros [= <-] a [].
  - destruct (getmtime w p) as [t|] eqn:T; [|discriminate].
    destruct (keyed w paths) as [l'|]; [|discriminate].
    intros [= <-] a [<-|Ha]; [exact T | now apply (IH l')].
Qed.

(** A list of paths with their times, sorted by the times, is oldest
    first. *)
Lemma timed_sorted (w : world) (l : list (Z * string)) :
  (forall a, In a l -> getmtime w (snd a) = Some (fst a)) ->
  StronglySorted (fun a b => (fst a <= fst b)%Z) l ->
  oldest_first w (map snd l).
Proof.
  unfold oldest_first. intros Ht S.
  induction S as [|a l Hl IH Ha]; simpl; constructor.
  - apply IH. intros b Hb. apply Ht. now right.
  - apply Forall_forall. intros q Hq.
    apply in_map_iff in Hq as [b [<- Hb]].
    unfold not_newer.
    rewrite (Ht a) by now left. rewrite (Ht b) by now right.
    exact (proj1 (Forall_forall _ _) Ha b Hb).
Qed.

Lemma timed_at_time (w : world) (t : Z) (l : list (Z * string)) :
  (forall a, In a l -> getmtime w (snd a) = Some (fst a)) ->
  at_time w t (map snd l) = map snd (filter (fun a => (fst a =? t)%Z) l).
Proof.
  unfold at_time. induction l as [|a l IH]; intros Ht; [reflexivity|].
  cbn [map filter]. rewrite (Ht a) by now left.
  rewrite IH by (intros b Hb; apply Ht; now right).
  now destruct (fst a =? t)%Z.
Qed.

(** *** The matching paths *)

Lemma matched_found (w : world) (input_dir : string) (prefixes : list string) :
  matched w input_dir prefixes = found w input_dir prefixes.
Proof.
  unfold matched, found.
  assert (G : forall ps acc,
             fold_left (fun l p => l ++ glob w (pattern input_dir p)) ps acc =
             acc ++ flat_map (fun p => glob w (pattern input_dir p)) ps).
  { induction ps as [|p ps IH]; intros acc; simpl.
    - now rewrite app_nil_r.
    - now rewrite IH, app_assoc. }
  apply G.
Qed.

(** When every path found has a time, the function returns the paths
    found, sorted. *)
Lemma get_matching_returns (w : world) (input_dir : string)
      (prefixes : list string) :
  all_timed w (found w input_dir prefixes) ->
  exists l,
    keyed w (found w input_dir prefixes) = Some l /\
    get_matching_log_files w input_dir prefixes =
    Returns (map snd (sorted_by_mtime l)).
Proof.
  intros H. destruct (keyed_some w _ H) as [l E].
  exists l. split; [exact E|].
  unfold get_matching_log_files. now rewrite matched_found, E.
Qed.

Lemma get_matching_inv (w : world) (input_dir : string)
      (prefixes paths : list string) :
  get_matching_log_files w input_dir prefixes = Returns paths ->
  Permutation paths (found w input_dir prefixes).
Proof.
  unfold get_matching_log_files. rewrite matched_found.
  destruct (keyed w (found w input_dir prefixes)) as [l|] eqn:E;
    [|discriminate].
  intros [= <-]. rewrite <- (keyed_paths w _ l E).
  apply Permutation_map, sorted_by_mtime_perm.
Qed.

Lemma get_matching_raises (w : world) (input_dir : string)
      (prefixes : list string) (r : raised) :
  get_matching_log_files w input_dir prefixes = Raises r -> r = OSError.
Proof.
  unfold get_matching_log_files.
  destruct (keyed w _); [discriminate | now intros [= <-]].
Qed.

(** Two filters that no element passes together. *)
Lemma filter_disjoint_perm {A : Type} (a b : A -> bool) (l : list A) :
  (forall x, a x && b x = false) ->
  Permutation (filter a l ++ filter b l) (filter (fun x => a x || b x) l).
Proof.
  intros H. induction l as [|x l IH]; [reflexivity|].
  simpl. specialize (H x).
  destruct (a x), (b x); simpl in *; try discriminate.
  - now constructor.
  - rewrite <- IH. symmetry. apply Permutation_middle.
  - exact IH.
Qed.

Lemma prefixes_apart (c1 c2 : ascii) (p1 p2 s : string) :
  Ascii.eqb c1 c2 = false ->
  startswith (String c1 p1) s && startswith (String c2 p2) s = false.
Proof.
  intros H. destruct s as [|c s]; [reflexivity|]. simpl.
  destruct (Ascii.eqb_spec c1 c) as [E1|E1]; [|reflexivity].
  destruct (Ascii.eqb_spec c2 c) as [E2|E2]; [|now rewrite andb_false_r].
  exfalso. apply Ascii.eqb_neq in H. congruence.
Qed.

Lemma matches_two (p1 p2 name : string) :
  matches [p1; p2] name = startswith p1 name || startswith p2 name.
Proof. unfold matches. simpl. now rewrite orb_false_r. Qed.

Lemma append_cancel (dir a b : string) :
  (dir ++ a)%string = (dir ++ b)%string -> a = b.
Proof.
  induction dir as [|c dir IH]; simpl; [tauto|].
  intros [= H]. now apply IH.
Qed.

Lemma NoDup_map_append (dir : string) (l : list string) :
  NoDup l -> NoDup (map (append dir) l).
Proof.
  induction 1 as [|x l Hx Hl IH]; simpl; constructor; [|assumption].
  intros Hin. apply in_map_iff in Hin as [y [E Hy]].
  apply append_cancel in E. now subst y.
Qed.

(** In a directory that [glob] lists by the two prefixes [p1] and [p2],
    which no name starts with together, the paths found are the names that
    match, each once for each time the directory holds it. *)
Lemma found_two (w : world) (input_dir dir : string) (names : list string)
      (p1 p2 : string) :
  (forall name, startswith p1 name && startswith p2 name = false) ->
  lists w input_dir dir names p1 ->
  lists w input_dir dir names p2 ->
  Permutation (found w input_dir [p1; p2])
              (map (append dir) (filter (matches [p1; p2]) names)).
Proof.
  intros Hapart L1 L2. unfold found, lists in *. cbn [flat_map].
  rewrite app_nil_r, L1, L2, <- map_app.
  apply Permutation_map.
  rewrite (filter_disjoint_perm _ _ names Hapart).
  erewrite filter_ext; [reflexivity|].
  intros name. now rewrite matches_two.
Qed.

(** *** The records of the files *)

(** A file that is read and parsed adds its records. *)
Lemma parse_path_lines (w : world) (log_handler : LogHandlerInterface)
      (path : string) (lines : list string) :
  readlines w path = Lines lines ->
  parse_log_file_path w log_handler path =
  match @parse_log_file log_handler lines with
  | Ok log_record_list => Returns log_record_list
  | Raise e => Raises (Exception e)
  end.
Proof. intros H. unfold parse_log_file_path. now rewrite H. Qed.

Lemma lines_of_lines (w : world) (path : string) (lines : list string) :
  readlines w path = Lines lines -> lines_of w path = lines.
Proof. intros H. unfold lines_of. now rewrite H. Qed.

(** The gathering of the records raises no [GetLogInsightsException]. *)
Lemma extend_raises (w : world) (log_handler : LogHandlerInterface)
      (paths acc : list string) (r : raised) :
  extend_records_in w log_handler paths acc = Raises r ->
  (exists e, r = Exception e) \/ r = OSError \/ r = UnicodeDecodeError.
Proof.
  revert acc. induction paths as [|p paths IH]; intros acc; simpl;
    [discriminate|].
  unfold parse_log_file_path.
  destruct (readlines w p) as [lines| |].
  - destruct (@parse_log_file log_handler lines) as [rs|e].
    + apply IH.
    + intros [= <-]. left. now exists e.
  - intros [= <-]. right. now left.
  - intros [= <-]. right. now right.
Qed.

(** The error-log records of files that can all be read. *)
Lemma error_records_in (w : world) (paths acc : list string) :
  (forall path, In path paths -> readable w path) ->
  extend_records_in w ApacheErrorLogHandler.handler paths acc =
  Returns (acc ++ flat_map ApacheErrorLogHandler.parse_line
                           (flat_map (lines_of w) paths)).
Proof.
  revert acc. induction paths as [|p paths IH]; intros acc H;
    cbn [extend_records_in flat_map].
  - now rewrite app_nil_r.
  - destruct (H p) as [lines E]; [now left|].
    rewrite (parse_path_lines w _ p lines E).
    cbn [parse_log_file ApacheErrorLogHandler.handler].
    rewrite IH by (intros q Hq; apply H; now right).
    rewrite (lines_of_lines w p lines E).
    now rewrite flat_map_app, error_parse_lines_flat_map, app_assoc.
Qed.

(** A file that cannot be read ends the gathering with its error. *)
Lemma error_records_unreadable (w : world) (paths acc : list string)
      (path : string) :
  In path paths -> ~ readable w path ->
  extend_records_in w ApacheErrorLogHandler.handler paths acc = Raises OSError \/
  extend_records_in w ApacheErrorLogHandler.handler paths acc =
  Raises UnicodeDecodeError.
Proof.
  revert acc. induction paths as [|p paths IH]; intros acc Hin Hno;
    [destruct Hin|].
  simpl. unfold parse_log_file_path.
  destruct (readlines w p) as [lines| |] eqn:E.
  - cbn [parse_log_file ApacheErrorLogHandler.handler].
    apply IH; [|assumption].
    destruct Hin as [->|Hin]; [|assumption].
    exfalso. apply Hno. now exists lines.
  - now left.
  - now right.
Qed.

(** With the access-log handler, a file with a line the handler raises on
    ends the gathering, unless an earlier file did. *)
Lemma access_records_raise (w : world) (paths acc : list string)
      (path : string) (lines : list string) :
  In path paths ->
  readlines w path = Lines lines ->
  @parse_log_file ApacheAccessLogHandler.handler lines = Raise IndexError ->
  exists r, extend_records_in w ApacheAccessLogHandler.handler paths acc =
            Raises r.
Proof.
  intros Hin E Hraise. revert acc.
  induction paths as [|p paths IH]; intros acc; [destruct Hin|].
  simpl. destruct Hin as [->|Hin].
  - rewrite (parse_path_lines w _ path lines E), Hraise. now eexists.
  - destruct (parse_log_file_path w ApacheAccessLogHandler.handler p)
      as [rs|r]; [now apply IH | now eexists].
Qed.

(** Over files that can all be read, the gathering is the gathering over
    their lines. *)
Lemma extend_records_in_lines (w : world) (log_handler : LogHandlerInterface)
      (paths acc : list string) :
  (forall path, In path paths -> readable w path) ->
  extend_records_in w log_handler paths acc =
  match extend_records log_handler (map (lines_of w) paths) acc with
  | Ok log_record_list => Returns log_record_list
  | Raise e => Raises (Exception e)
  end.
Proof.
  revert acc. induction paths as [|p paths IH]; intros acc H;
    cbn [extend_records_in extend_records map]; [reflexivity|].
  destruct (H p) as [lines E]; [now left|].
  rewrite (parse_path_lines w _ p lines E), (lines_of_lines w p lines E).
  destruct (@parse_log_file log_handler lines) as [rs|e]; cbn [bind];
    [|reflexivity].
  apply IH. intros q Hq. apply H. now right.
Qed.

(** A record of a run over error-log files comes from a line of a file. *)
Lemma error_records_In (w : world) (paths : list string) (rec : string) :
  In rec (flat_map ApacheErrorLogHandler.parse_line
                   (flat_map (lines_of w) paths)) <->
  exists path line,
    In path paths /\ In line (lines_of w path) /\
    In rec (ApacheErrorLogHandler.parse_line line).
Proof.
  rewrite in_flat_map. split.
  - intros [line [Hl Hr]]. apply in_flat_map in Hl as [path [Hp Hl]].
    now exists path, line.
  - intros [path [line [Hp [Hl Hr]]]]. exists line. split; [|assumption].
    apply in_flat_map. now exists path.
Qed.

(** The scorer returns a list exactly when some record is long enough. *)
Lemma get_top_ngrams_returns (docs : list string) (n : nat) :
  1 <= n ->
  (exists table, get_top_ngrams docs n = Ok table) <->
  exists d, In d docs /\ n <= List.length (TfidfVectorizer.tokenize d).
Proof.
  intros Hn. split.
  - intros [table H].
    destruct (Exists_dec
                (fun d => n <= List.length (TfidfVectorizer.tokenize d)) docs)
      as [E|E]; [intros d; apply le_dec | |].
    + apply Exists_exists in E. exact E.
    + exfalso. rewrite ranking_raises in H; [discriminate|].
      apply grams_short. intros d Hd.
      destruct (Nat.lt_ge_cases (List.length (TfidfVectorizer.tokenize d)) n)
        as [L|L]; [assumption|].
      exfalso. apply E. apply Exists_exists. now exists d.
  - intros [d [Hd Hl]]. eexists.
    apply ranking_returns. now apply (grams_long n docs d).
Qed.

(** *** [analyze_log_files] and [main] *)

Lemma supported_log_type (type : string) :
  existsb (String.eqb type) SUPPORTED_LOG_TYPES = true <->
  type = "apache-error"%string \/ type = "apache-access"%string.
Proof.
  unfold SUPPORTED_LOG_TYPES. simpl. rewrite orb_false_r, orb_true_iff.
  now rewrite !String.eqb_eq.
Qed.

Lemma validate_input_cases (parsed : options) :
  (validate_input parsed = Returns parsed /\
   input_dir parsed <> ""%string /\
   (log_type parsed = "apache-error"%string \/
    log_type parsed = "apache-access"%string)) \/
  ((exists message,
       validate_input parsed = Raises (GetLogInsightsException message 1)) /\
   (input_dir parsed = ""%string \/
    ~ (log_type parsed = "apache-error"%string \/
       log_type parsed = "apache-access"%string))).
Proof.
  unfold validate_input.
  destruct (String.eqb_spec (input_dir parsed) "") as [E|E].
  - right. split; [now eexists | now left].
  - destruct (existsb (String.eqb (log_type parsed)) SUPPORTED_LOG_TYPES)
      eqn:S; simpl.
    + left. split; [reflexivity|]. split; [assumption|].
      now apply supported_log_type.
    + right. split; [now eexists|]. right. intros H.
      apply supported_log_type in H. congruence.
Qed.

Lemma validate_input_ok (parsed : options) :
  input_dir parsed <> ""%string ->
  log_type parsed = "apache-error"%string \/
  log_type parsed = "apache-access"%string ->
  validate_input parsed = Returns parsed.
Proof.
  intros Hd Ht.
  destruct (validate_input_cases parsed) as [[V _]|[_ [E|E]]];
    [assumption | contradiction | contradiction].
Qed.

Lemma handler_of_access :
  handler_of "apache-access" = ApacheAccessLogHandler.handler.
Proof. reflexivity. Qed.

Lemma handler_of_error :
  handler_of "apache-error" = ApacheErrorLogHandler.handler.
Proof. reflexivity. Qed.

(** Whatever [analyze_log_files] raises carries exit code 1, or none. *)
Lemma analyze_raises (w : world) (log_handler : LogHandlerInterface)
      (dir : string) (n : Z) (r : raised) :
  analyze_log_files_in w log_handler dir n = Raises r ->
  r = GetLogInsightsException (message_no_dir dir) 1 \/
  (exists e, r = Exception e) \/ r = OSError \/ r = UnicodeDecodeError.
Proof.
  unfold analyze_log_files_in.
  destruct (path_exists w dir); cbn [negb]; [|intros [= <-]; now left].
  destruct (get_matching_log_files w dir _) as [paths|r'] eqn:M.
  - destruct (extend_records_in w log_handler paths []) as [docs|r''] eqn:X.
    + destruct (get_top_ngrams_int docs n) as [t|e]; [discriminate|].
      intros [= <-]. right. left. now exists e.
    + intros [= <-]. right. now apply (extend_raises w log_handler paths []).
  - intros [= <-]. right. right. left.
    exact (get_matching_raises w dir _ r' M).
Qed.

(** With a directory that exists, files that can all be read and a gram
    size that is not negative, [analyze_log_files] is the run over the lines
    of the files found, oldest first. *)
Lemma analyze_in_lines (w : world) (log_handler : LogHandlerInterface)
      (dir : string) (n : Z) (paths : list string) :
  path_exists w dir = true ->
  get_matching_log_files w dir (@get_log_file_prefixes log_handler) =
  Returns paths ->
  (forall path, In path paths -> readable w path) ->
  (0 <= n)%Z ->
  analyze_log_files_in w log_handler dir n =
  match analyze_log_files log_handler (map (lines_of w) paths)
                          (Z.to_nat n) with
  | Ok common_words => Returns common_words
  | Raise e => Raises (Exception e)
  end.
Proof.
  intros He G Hr Hn. unfold analyze_log_files_in, analyze_log_files.
  rewrite He, G. cbn [negb].
  rewrite (extend_records_in_lines w log_handler paths [] Hr).
  destruct (extend_records log_handler (map (lines_of w) paths) [])
    as [docs|e]; cbn [bind]; [|reflexivity].
  now rewrite get_top_ngrams_int_nat.
Qed.

(** [main] once the options are valid and the gram size is read. *)
Lemma main_parsed (parsed : options) (w : world) (n : Z) :
  validate_input parsed = Returns parsed ->
  num_grams parsed = Some n ->
  main (Parsed parsed) w =
  match analyze_log_files_in w (handler_of (log_type parsed))
                             (input_dir parsed) n with
  | Returns common_words => (0%Z, Some common_words)
  | Raises _ => (1%Z, None)
  end.
Proof.
  intros V N. unfold main. rewrite V, N.
  destruct (analyze_log_files_in w _ _ n) as [t|r] eqn:A; [reflexivity|].
  destruct (analyze_raises w _ _ n r A) as [->|[[e ->]|[->| ->]]];
    reflexivity.
Qed.

(** With options, [main] ends with status 1 unless it prints a table. *)
Lemma main_parsed_cases (parsed : options) (w : world) :
  main (Parsed parsed) w = (1%Z, None) \/
  exists n table,
    validate_input parsed = Returns parsed /\
    num_grams parsed = Some n /\
    analyze_log_files_in w (handler_of (log_type parsed))
                         (input_dir parsed) n = Returns table /\
    main (Parsed parsed) w = (0%Z, Some table).
Proof.
  destruct (validate_input_cases parsed) as [[V _]|[[m E] _]].
  - destruct (num_grams parsed) as [n|] eqn:N.
    + rewrite (main_parsed parsed w n V N).
      destruct (analyze_log_files_in w _ _ n) as [t|r] eqn:A.
      * right. now exists n, t.
      * now left.
    + left. unfold main. now rewrite V, N.
  - left. unfold main. now rewrite E.
Qed.

End PipelineFacts.

Import Pipeline GramSize PipelineFacts GramSizeFacts.
Import More.

(** X5. For error logs the files only matter through their lines. When
    every file can be opened and read, the records gathered are the records
    of all the lines, file after file, each line giving its record or
    nothing, and the run ranks them. A file that cannot be read ends the
    gathering with the [OSError] or [UnicodeDecodeError] of the reading. *)
Theorem error_run_of_all_lines (w : world) (paths : list string) :
  ((forall path, In path paths -> readable w path) ->
   extend_records_in w ApacheErrorLogHandler.handler paths [] =
   Returns (flat_map ApacheErrorLogHandler.parse_line
                     (flat_map (lines_of w) paths)) /\
   forall input_dir n,
     path_exists w input_dir = true ->
     get_matching_log_files w input_dir ApacheErrorLogHandler.prefixes =
     Returns paths ->
     analyze_log_files_in w ApacheErrorLogHandler.handler input_dir n =
     match get_top_ngrams_int
             (flat_map ApacheErrorLogHandler.parse_line
                       (flat_map (lines_of w) paths)) n with
     | Ok common_words => Returns common_words
     | Raise e => Raises (Exception e)
     end) /\
  (forall path,
      In path paths -> ~ readable w path ->
      extend_records_in w ApacheErrorLogHandler.handler paths [] =
      Raises OSError \/
      extend_records_in w ApacheErrorLogHandler.handler paths [] =
      Raises UnicodeDecodeError).
Proof.
  split.
  - intros H.
    assert (E : extend_records_in w ApacheErrorLogHandler.handler paths [] =
                Returns (flat_map ApacheErrorLogHandler.parse_line
                                  (flat_map (lines_of w) paths)))
      by now rewrite error_records_in.
    split; [exact E|].
    intros input_dir n He M. unfold analyze_log_files_in.
    rewrite He. cbn [negb get_log_file_prefixes ApacheErrorLogHandler.handler].
    now rewrite M, E.
  - intros path Hin Hno. now apply error_records_unreadable with path.
Qed.

Lemma error_run_of_all_lines_witness :
  extend_records_in world_httpd ApacheErrorLogHandler.handler
    ["/var/log/httpd/error_log.1"; "/var/log/httpd/error_log"] [] =
  Returns ["resuming normal operations"; "disk full"] /\
  (extend_records_in world_httpd ApacheErrorLogHandler.handler
     ["/var/log/httpd/error_log.1"; "/var/log/httpd/ssl_error_log"] [] =
   Raises OSError \/
   extend_records_in world_httpd ApacheErrorLogHandler.handler
     ["/var/log/httpd/error_log.1"; "/var/log/httpd/ssl_error_log"] [] =
   Raises UnicodeDecodeError).
Proof.
  split.
  - apply (proj1 (error_run_of_all_lines world_httpd
                    ["/var/log/httpd/error_log.1";
                     "/var/log/httpd/error_log"])).
    intros path [<-|[<-|[]]]; eexists; reflexivity.
  - apply (proj2 (error_run_of_all_lines world_httpd
                    ["/var/log/httpd/error_log.1";
                     "/var/log/httpd/ssl_error_log"])
                 "/var/log/httpd/ssl_error_log").
    + right. now left.
    + intros [lines E]. discriminate E.
Defined.

(** X13. When [os.path.getmtime] returns on every path that [glob] yields
    for the patterns [input_dir/prefix*], [get_matching_log_files] returns
    exactly these paths, each as often as it is yielded, oldest first. When
    it raises on one of them, the function raises [OSError]. *)
Theorem matching_files_sorted (w : world) (input_dir : string)
        (prefixes : list string) :
  (all_timed w (found w input_dir prefixes) ->
   exists paths,
     get_matching_log_files w input_dir prefixes = Returns paths /\
     oldest_first w paths /\
     Permutation paths (found w input_dir prefixes)) /\
  (forall path,
      In path (found w input_dir prefixes) -> getmtime w path = None ->
      get_matching_log_files w input_dir prefixes = Raises OSError).
Proof.
  split.
  - intros H. destruct (get_matching_returns w _ _ H) as [l [K G]].
    exists (map snd (sorted_by_mtime l)). split; [exact G|]. split.
    + apply timed_sorted; [|apply sorted_by_mtime_sorted].
      intros a Ha. apply (keyed_times w _ l K).
      now apply (Permutation_in _ (sorted_by_mtime_perm l)).
    + now apply get_matching_inv.
  - intros path Hin T. unfold get_matching_log_files.
    now rewrite matched_found, (keyed_none w _ path Hin T).
Qed.

Lemma matching_files_sorted_witness :
  (exists paths,
      get_matching_log_files world_httpd httpd ApacheErrorLogHandler.prefixes =
      Returns paths /\
      oldest_first world_httpd paths /\
      Permutation paths
        (found world_httpd httpd ApacheErrorLogHandler.prefixes)) /\
  get_matching_log_files world_dangling httpd ApacheErrorLogHandler.prefixes =
  Raises OSError.
Proof.
  split.
  - apply (proj1 (matching_files_sorted world_httpd httpd
                    ApacheErrorLogHandler.prefixes)).
    intros path H. vm_compute in H.
    destruct H as [<-|[<-|[]]]; discriminate.
  - apply (proj2 (matching_files_sorted world_dangling httpd
                    ApacheErrorLogHandler.prefixes)
                 "/var/log/httpd/error_log").
    + now left.
    + reflexivity.
Defined.

(** X14. Paths of the same modification time keep the order in which they
    were found: prefix after prefix, and within a prefix the order in which
    [glob] yields them. *)
Theorem matching_files_stable (w : world) (input_dir : string)
        (prefixes : list string) :
  all_timed w (found w input_dir prefixes) ->
  exists paths,
    get_matching_log_files w input_dir prefixes = Returns paths /\
    forall t, at_time w t paths = at_time w t (found w input_dir prefixes).
Proof.
  intros H. destruct (get_matching_returns w _ _ H) as [l [K G]].
  exists (map snd (sorted_by_mtime l)). split; [exact G|].
  intros t. rewrite timed_at_time.
  - rewrite sorted_by_mtime_same.
    rewrite <- (timed_at_time w t l (keyed_times w _ l K)).
    now rewrite (keyed_paths w _ l K).
  - intros a Ha. apply (keyed_times w _ l K).
    now apply (Permutation_in _ (sorted_by_mtime_perm l)).
Qed.

Lemma matching_files_stable_witness :
  exists paths,
    get_matching_log_files world_httpd httpd ApacheErrorLogHandler.prefixes =
    Returns paths /\
    forall t,
      at_time world_httpd t paths =
      at_time world_httpd t
              (found world_httpd httpd ApacheErrorLogHandler.prefixes).
Proof.
  apply (matching_files_stable world_httpd httpd
           ApacheErrorLogHandler.prefixes).
  intros path H. vm_compute in H.
  destruct H as [<-|[<-|[]]]; discriminate.
Defined.

(** X15. With the prefixes of either handler no file is matched twice. In
    a directory that [glob] lists by these prefixes (each path found is a
    name of the directory that starts with the prefix, behind one and the
    same directory part) the paths returned are the names that start with
    a prefix of the handler, each as often as the directory holds it; names
    without repetition give paths without repetition. *)
Theorem handler_files_once (w : world) (log_handler : LogHandlerInterface)
        (input_dir dir : string) (names : list string) :
  log_handler = ApacheErrorLogHandler.handler \/
  log_handler = ApacheAccessLogHandler.handler ->
  (forall log_prefix,
      In log_prefix (@get_log_file_prefixes log_handler) ->
      lists w input_dir dir names log_prefix) ->
  all_timed w (found w input_dir (@get_log_file_prefixes log_handler)) ->
  exists paths,
    get_matching_log_files w input_dir (@get_log_file_prefixes log_handler) =
    Returns paths /\
    Permutation
      paths
      (map (append dir)
           (filter (matches (@get_log_file_prefixes log_handler)) names)) /\
    (NoDup names -> NoDup paths).
Proof.
  intros Hh Hl Ht.
  destruct (get_matching_returns w _ _ Ht) as [l [K G]].
  exists (map snd (sorted_by_mtime l)). split; [exact G|].
  assert (P : Permutation
                (map snd (sorted_by_mtime l))
                (map (append dir)
                     (filter (matches (@get_log_file_prefixes log_handler))
                             names))).
  { rewrite (get_matching_inv w _ _ _ G).
    destruct Hh as [-> | ->];
      cbn [get_log_file_prefixes ApacheErrorLogHandler.handler
           ApacheAccessLogHandler.handler] in *;
      unfold ApacheErrorLogHandler.prefixes, ApacheAccessLogHandler.prefixes
        in *;
      (apply found_two;
       [ intros name; now apply prefixes_apart
       | apply Hl; now left
       | apply Hl; right; now left ]). }
  split; [exact P|].
  intros Hnd. apply (Permutation_NoDup (Permutation_sym P)).
  now apply NoDup_map_append, NoDup_filter.
Qed.

Lemma handler_files_once_witness :
  let names := ["error_log"; "access_log"; "error_log.1"]%string in
  exists paths,
    get_matching_log_files world_httpd httpd
      (@get_log_file_prefixes ApacheErrorLogHandler.handler) =
    Returns paths /\
    Permutation
      paths
      (map (append "/var/log/httpd/")
           (filter (matches
                      (@get_log_file_prefixes ApacheErrorLogHandler.handler))
                   names)) /\
    (NoDup names -> NoDup paths).
Proof.
  apply (handler_files_once world_httpd ApacheErrorLogHandler.handler
           httpd "/var/log/httpd/"
           ["error_log"; "access_log"; "error_log.1"]%string).
  - now left.
  - intros log_prefix [<-|[<-|[]]]; reflexivity.
  - intros path H. vm_compute in H.
    destruct H as [<-|[<-|[]]]; discriminate.
Defined.

(** X16. [validate_input] accepts the options exactly when the input
    directory is given and the log type is one of the two supported ones;
    every rejection carries exit code 1, and a missing input directory is
    the one reported when both checks fail. *)
Theorem validate_input_accepts (parsed : options) :
  (validate_input parsed = Returns parsed <->
   input_dir parsed <> ""%string /\
   (log_type parsed = "apache-error"%string \/
    log_type parsed = "apache-access"%string)) /\
  (forall r, validate_input parsed = Raises r ->
             exists message, r = GetLogInsightsException message 1) /\
  (input_dir parsed = ""%string ->
   validate_input parsed =
   Raises (GetLogInsightsException message_input_dir 1)).
Proof.
  split; [|split].
  - split.
    + intros H.
      destruct (validate_input_cases parsed) as [[_ C]|[[m E] _]];
        [exact C | congruence].
    + intros [Hd Ht]. now apply validate_input_ok.
  - intros r H.
    destruct (validate_input_cases parsed) as [[V _]|[[m E] _]];
      [congruence|].
    exists m. congruence.
  - intros H. unfold validate_input. now rewrite H.
Qed.

(** X17. [main] ends in one of four ways: status 0 after the help, status
    2 after a usage error of the option parser, status 0 with a printed
    table, and status 1 without one. The first two are the parser's alone.
    It prints a table exactly when the parser returns options with an input
    directory and a supported log type, [int] reads the gram size, and
    [analyze_log_files] returns the table. *)
Theorem main_exit_status (args : command_line) (w : world) :
  (main args w = (0%Z, None) <-> args = Help) /\
  (main args w = (2%Z, None) <-> args = UsageError) /\
  (forall table,
      main args w = (0%Z, Some table) <->
      exists parsed n,
        args = Parsed parsed /\
        input_dir parsed <> ""%string /\
        (log_type parsed = "apache-error"%string \/
         log_type parsed = "apache-access"%string) /\
        num_grams parsed = Some n /\
        analyze_log_files_in w (handler_of (log_type parsed))
                             (input_dir parsed) n = Returns table) /\
  (main args w = (0%Z, None) \/ main args w = (2%Z, None) \/
   main args w = (1%Z, None) \/
   exists table, main args w = (0%Z, Some table)).
Proof.
  destruct args as [| |parsed].
  - split; [split; reflexivity|]. split; [split; discriminate|].
    split; [|now left].
    intros table. split; [discriminate|].
    intros [parsed [n [E _]]]. discriminate E.
  - split; [split; discriminate|]. split; [split; reflexivity|].
    split; [|right; now left].
    intros table. split; [discriminate|].
    intros [parsed [n [E _]]]. discriminate E.
  - destruct (main_parsed_cases parsed w)
      as [M|[n [table [V [N [A M]]]]]].
    + split; [split; [rewrite M|]; discriminate|].
      split; [split; [rewrite M|]; discriminate|].
      split; [|right; right; now left].
      intros table. split; [rewrite M; discriminate|].
      intros [p [n [[= <-] [Hd [Ht [N A]]]]]].
      pose proof (validate_input_ok parsed Hd Ht) as V.
      rewrite (main_parsed parsed w n V N), A in M. discriminate M.
    + split; [split; [rewrite M|]; discriminate|].
      split; [split; [rewrite M|]; discriminate|].
      split; [|right; right; right; now exists table].
      intros table'. rewrite M. split.
      * intros [= <-]. exists parsed, n.
        destruct (validate_input_cases parsed) as [[_ [Hd Ht]]|[[m E] _]];
          [|congruence].
        repeat split; assumption.
      * intros [p [n' [[= <-] [_ [_ [N' A']]]]]].
        congruence.
Qed.

(** X18. With options from the parser, [main] ends with status 1 and
    prints no table when the options are rejected, when [int] does not read
    the gram size, when the input directory does not exist, and when [glob]
    finds no path for the prefixes of the handler: without a record the
    vectorizer raises, whatever the gram size. *)
Theorem main_without_files (parsed : options) (w : world) :
  validate_input parsed <> Returns parsed \/
  num_grams parsed = None \/
  path_exists w (input_dir parsed) = false \/
  found w (input_dir parsed)
        (@get_log_file_prefixes (handler_of (log_type parsed))) = [] ->
  main (Parsed parsed) w = (1%Z, None).
Proof.
  intros H.
  destruct (main_parsed_cases parsed w) as [M|[n [table [V [N [A _]]]]]];
    [exact M|].
  exfalso. destruct H as [H|[H|[H|H]]].
  - contradiction.
  - congruence.
  - unfold analyze_log_files_in in A. rewrite H in A. discriminate A.
  - unfold analyze_log_files_in in A.
    destruct (path_exists w (input_dir parsed)); cbn [negb] in A;
      [|discriminate A].
    unfold get_matching_log_files in A. rewrite matched_found, H in A.
    cbn [keyed sorted_by_mtime fold_right map extend_records_in] in A.
    rewrite get_top_ngrams_int_nil in A. discriminate A.
Qed.

Lemma main_without_files_witness :
  main (Parsed (options_for "apache-error" 5)) world_empty = (1%Z, None).
Proof.
  apply (main_without_files (options_for "apache-error" 5) world_empty).
  right. right. right. reflexivity.
Defined.

(** X19. With the access-log handler, one line that lacks a delimiter, in
    any file that [glob] finds for the prefixes of the handler and that can
    be read, makes [main] end with status 1 and print no table. *)
Theorem main_access_bad_line (parsed : options) (w : world)
        (path : string) (lines : list string) (line : string) :
  log_type parsed = "apache-access"%string ->
  In path (found w (input_dir parsed) ApacheAccessLogHandler.prefixes) ->
  readlines w path = Lines lines ->
  In line lines ->
  lacks_access_delimiters line ->
  main (Parsed parsed) w = (1%Z, None).
Proof.
  intros Ht Hin E Hl Hbad.
  destruct (main_parsed_cases parsed w) as [M|[n [table [V [N [A _]]]]]];
    [exact M|].
  exfalso. rewrite Ht, handler_of_access in A.
  unfold analyze_log_files_in in A.
  destruct (path_exists w (input_dir parsed)); cbn [negb] in A;
    [|discriminate A].
  cbn [get_log_file_prefixes ApacheAccessLogHandler.handler] in A.
  destruct (get_matching_log_files w (input_dir parsed)
              ApacheAccessLogHandler.prefixes) as [paths|r] eqn:G;
    [|discriminate A].
  assert (Hp : In path paths)
    by (apply (Permutation_in _ (Permutation_sym (get_matching_inv _ _ _ _ G)));
        exact Hin).
  destruct (access_records_raise w paths [] path lines Hp E) as [r X].
  { cbn [parse_log_file ApacheAccessLogHandler.handler].
    apply in_split in Hl as [before [after ->]].
    apply access_loop_aborts. now apply access_line_fails. }
  rewrite X in A. discriminate A.
Qed.

Lemma main_access_bad_line_witness :
  main (Parsed (options_for "apache-access" 5)) world_httpd = (1%Z, None).
Proof.
  apply (main_access_bad_line
           (options_for "apache-access" 5) world_httpd
           "/var/log/httpd/access_log"
           [access_line_example; "no delimiters here"]
           "no delimiters here").
  - reflexivity.
  - now left.
  - reflexivity.
  - right. now left.
  - left. apply partition_none. reflexivity.
Defined.

(** X20. With the error-log handler, options that are valid, a gram size
    [n >= 1], an input directory that exists and files that all have a
    time and can be read, [main] prints a table exactly when some line of
    some file found gives a record of at least [n] tokens. *)
Theorem main_error_log_table (parsed : options) (w : world) (n : Z) :
  log_type parsed = "apache-error"%string ->
  input_dir parsed <> ""%string ->
  num_grams parsed = Some n ->
  (1 <= n)%Z ->
  path_exists w (input_dir parsed) = true ->
  all_timed w (found w (input_dir parsed) ApacheErrorLogHandler.prefixes) ->
  (forall path,
      In path (found w (input_dir parsed) ApacheErrorLogHandler.prefixes) ->
      readable w path) ->
  ((exists table, main (Parsed parsed) w = (0%Z, Some table)) <->
   exists path line rec,
     In path (found w (input_dir parsed) ApacheErrorLogHandler.prefixes) /\
     In line (lines_of w path) /\
     In rec (ApacheErrorLogHandler.parse_line line) /\
     (n <= Z.of_nat (List.length (TfidfVectorizer.tokenize rec)))%Z).
Proof.
  intros Ht Hd Hn H1 He Htimed Hread.
  rewrite (main_parsed parsed w n)
    by (try apply validate_input_ok; try assumption; now left).
  unfold analyze_log_files_in. rewrite He. cbn [negb].
  rewrite Ht, handler_of_error.
  cbn [get_log_file_prefixes ApacheErrorLogHandler.handler].
  destruct (get_matching_returns w _ _ Htimed) as [l [K G]]. rewrite G.
  pose proof (get_matching_inv w _ _ _ G) as P.
  set (paths := map snd (sorted_by_mtime l)) in *.
  rewrite error_records_in
    by (intros q Hq; apply Hread; now apply (Permutation_in _ P)).
  cbn [app]. rewrite get_top_ngrams_int_nat by lia.
  set (docs := flat_map ApacheErrorLogHandler.parse_line
                        (flat_map (lines_of w) paths)).
  assert (Hnat : 1 <= Z.to_nat n) by lia.
  pose proof (get_top_ngrams_returns docs (Z.to_nat n) Hnat) as R.
  split.
  - intros [table H].
    destruct (get_top_ngrams docs (Z.to_nat n)) as [t|e] eqn:T;
      [|discriminate H].
    destruct (proj1 R (ex_intro _ t eq_refl)) as [d [Hdocs Hlen]].
    apply error_records_In in Hdocs as [path [line [Hp [Hl Hr]]]].
    exists path, line, d. split; [now apply (Permutation_in _ P)|].
    split; [assumption|]. split; [assumption | lia].
  - intros [path [line [rec [Hp [Hl [Hr Hlen]]]]]].
    assert (Hdocs : In rec docs).
    { apply error_records_In. exists path, line. split; [|now split].
      now apply (Permutation_in _ (Permutation_sym P)). }
    assert (Hlen' : Z.to_nat n <= List.length (TfidfVectorizer.tokenize rec))
      by lia.
    destruct (proj2 R (ex_intro _ rec (conj Hdocs Hlen'))) as [table T].
    exists table. now rewrite T.
Qed.

Lemma main_error_log_table_witness :
  (exists table,
      main (Parsed (options_for "apache-error" 2)) world_httpd =
      (0%Z, Some table)) <->
  exists path line rec,
    In path (found world_httpd httpd ApacheErrorLogHandler.prefixes) /\
    In line (lines_of world_httpd path) /\
    In rec (ApacheErrorLogHandler.parse_line line) /\
    (2 <= Z.of_nat (List.length (TfidfVectorizer.tokenize rec)))%Z.
Proof.
  apply (main_error_log_table (options_for "apache-error" 2) world_httpd 2%Z).
  - reflexivity.
  - discriminate.
  - reflexivity.
  - lia.
  - reflexivity.
  - intros path H. vm_compute in H.
    destruct H as [<-|[<-|[]]]; discriminate.
  - intros path H. vm_compute in H.
    destruct H as [<-|[<-|[]]]; eexists; reflexivity.
Defined.
